(** * Stick tables (src/stick_table.c): a shallow embedding and its properties

    The table of sticky sessions is embedded as a record that carries the
    two ebtree indexes, the counters and the memory its session pointers
    refer to.  Every C function of the file is a Rocq function of the same
    name on that record; [now_ms] is passed explicitly. *)

From stdpp Require Import gmap list sorting strings.
From Stdlib Require Import ZArith Lia.

Open Scope Z_scope.

(** ** Machine integers *)

(** [unsigned int] values are kept as their value in [0, 2^32); an [int]
    holding a tick is kept as its 32-bit pattern and read back as a signed
    number with [s32] where the C code compares a difference with zero. *)
Definition u32 (x : Z) : Z := x mod 2 ^ 32.

Definition s32 (x : Z) : Z :=
  let y := x mod 2 ^ 32 in if y <? 2 ^ 31 then y else y - 2 ^ 32.

(** [size_t] is 64 bits wide. *)
Definition size_t (x : Z) : Z := x mod 2 ^ 64.

Definition MIN (a b : Z) : Z := if a <? b then a else b.

(** ** Ticks

    Modelled from the spec: the tick helpers of common/ticks.h and the
    constants of common/time.h are not part of the file.  The spec has a
    32-bit wrapping tick clock, a "never" sentinel and a fixed look-back
    margin; they are given here the definitions the C headers have: the
    sentinel is tick 0, the margin is half the tick space, and two ticks
    are ordered by the sign of their 32-bit difference. *)

Definition TICK_ETERNITY : Z := 0.
Definition TIMER_LOOK_BACK : Z := 2 ^ 31.
Definition MS_TO_TICKS (ms : Z) : Z := ms.

Definition tick_isset (expire : Z) : bool := negb (expire =? 0).

Definition tick_add (now timeout : Z) : Z :=
  let now := u32 (now + timeout) in
  if now =? 0 then 1 else now.

Definition tick_is_lt (t1 t2 : Z) : bool := s32 (t1 - t2) <? 0.

Definition tick_is_expired (timer now : Z) : bool :=
  if negb (tick_isset timer) then false
  else if s32 (timer - now) <=? 0 then true
  else false.

Definition tick_first (t1 t2 : Z) : Z :=
  if negb (tick_isset t1) then t2
  else if negb (tick_isset t2) then t1
  else if s32 (t1 - t2) <=? 0 then t1
  else t2.

(** ** Sessions and tables *)

Definition ptr := nat.

(** [struct stksess].  The two embedded ebtree nodes are represented by
    what the file reads and writes of them: the 32-bit key of [exps], the
    key bytes of [keys], and whether each [node.leaf_p] is non-NULL. *)
Record stksess := {
  sid : Z;
  ts_expire : Z;
  exps_key : Z;
  exps_leaf_p : bool;
  keys_leaf_p : bool;
  keys_key : list Z;
}.

#[global] Instance stksess_inhabited : Inhabited stksess :=
  populate {| sid := 0; ts_expire := 0; exps_key := 0;
              exps_leaf_p := false; keys_leaf_p := false; keys_key := [] |}.

Definition with_sid (v : Z) (e : stksess) : stksess :=
  {| sid := v; ts_expire := ts_expire e; exps_key := exps_key e;
     exps_leaf_p := exps_leaf_p e; keys_leaf_p := keys_leaf_p e;
     keys_key := keys_key e |}.

Definition with_expire (v : Z) (e : stksess) : stksess :=
  {| sid := sid e; ts_expire := v; exps_key := exps_key e;
     exps_leaf_p := exps_leaf_p e; keys_leaf_p := keys_leaf_p e;
     keys_key := keys_key e |}.

Definition with_exps_key (v : Z) (e : stksess) : stksess :=
  {| sid := sid e; ts_expire := ts_expire e; exps_key := v;
     exps_leaf_p := exps_leaf_p e; keys_leaf_p := keys_leaf_p e;
     keys_key := keys_key e |}.

Definition with_exps_leaf_p (v : bool) (e : stksess) : stksess :=
  {| sid := sid e; ts_expire := ts_expire e; exps_key := exps_key e;
     exps_leaf_p := v; keys_leaf_p := keys_leaf_p e;
     keys_key := keys_key e |}.

Definition with_keys_leaf_p (v : bool) (e : stksess) : stksess :=
  {| sid := sid e; ts_expire := ts_expire e; exps_key := exps_key e;
     exps_leaf_p := exps_leaf_p e; keys_leaf_p := v;
     keys_key := keys_key e |}.

Definition with_keys_key (v : list Z) (e : stksess) : stksess :=
  {| sid := sid e; ts_expire := ts_expire e; exps_key := exps_key e;
     exps_leaf_p := exps_leaf_p e; keys_leaf_p := keys_leaf_p e;
     keys_key := v |}.

Inductive stktable_type :=
  | STKTABLE_TYPE_IP
  | STKTABLE_TYPE_INTEGER
  | STKTABLE_TYPE_STRING.

Definition is_string (ty : stktable_type) : bool :=
  match ty with STKTABLE_TYPE_STRING => true | _ => false end.

(** [struct stktable_key]: the bytes at [key] and the length [key_len]. *)
Record stktable_key := { key : list Z; key_len : Z }.

(** [struct stktable], with the memory [mem] its pointers refer to.
    - [keys] is the ebmb tree of the sessions, in insertion order (only
      exact lookups are made on it);
    - [exps] is the eb32 tree, the list of its nodes in key order;
    - [pool] is the slot allocator, see [pool_alloc2];
    - [exp_task] is the [expire] field of the expiration task. *)
Record stktable := {
  keys : list ptr;
  exps : list ptr;
  pool : list ptr;
  exp_task : Z;
  type : stktable_type;
  key_size : Z;
  size : Z;
  current : Z;
  nopurge : Z;
  exp_next : Z;
  expire : Z;
  mem : gmap ptr stksess;
}.

Definition with_keys (v : list ptr) (t : stktable) : stktable :=
  {| keys := v; exps := exps t; pool := pool t; exp_task := exp_task t;
     type := type t; key_size := key_size t; size := size t;
     current := current t; nopurge := nopurge t; exp_next := exp_next t;
     expire := expire t; mem := mem t |}.

Definition with_exps (v : list ptr) (t : stktable) : stktable :=
  {| keys := keys t; exps := v; pool := pool t; exp_task := exp_task t;
     type := type t; key_size := key_size t; size := size t;
     current := current t; nopurge := nopurge t; exp_next := exp_next t;
     expire := expire t; mem := mem t |}.

Definition with_pool (v : list ptr) (t : stktable) : stktable :=
  {| keys := keys t; exps := exps t; pool := v; exp_task := exp_task t;
     type := type t; key_size := key_size t; size := size t;
     current := current t; nopurge := nopurge t; exp_next := exp_next t;
     expire := expire t; mem := mem t |}.

Definition with_current (v : Z) (t : stktable) : stktable :=
  {| keys := keys t; exps := exps t; pool := pool t; exp_task := exp_task t;
     type := type t; key_size := key_size t; size := size t;
     current := v; nopurge := nopurge t; exp_next := exp_next t;
     expire := expire t; mem := mem t |}.

(** [t->exp_task->expire = t->exp_next = v]. *)
Definition with_exp_next_task (v : Z) (t : stktable) : stktable :=
  {| keys := keys t; exps := exps t; pool := pool t; exp_task := v;
     type := type t; key_size := key_size t; size := size t;
     current := current t; nopurge := nopurge t; exp_next := v;
     expire := expire t; mem := mem t |}.

Definition with_exp_next (v : Z) (t : stktable) : stktable :=
  {| keys := keys t; exps := exps t; pool := pool t; exp_task := exp_task t;
     type := type t; key_size := key_size t; size := size t;
     current := current t; nopurge := nopurge t; exp_next := v;
     expire := expire t; mem := mem t |}.

Definition with_mem (v : gmap ptr stksess) (t : stktable) : stktable :=
  {| keys := keys t; exps := exps t; pool := pool t; exp_task := exp_task t;
     type := type t; key_size := key_size t; size := size t;
     current := current t; nopurge := nopurge t; exp_next := exp_next t;
     expire := expire t; mem := v |}.

(** [*ts] and a write through [ts]. *)
Definition deref (t : stktable) (ts : ptr) : stksess := mem t !!! ts.

Definition poke (ts : ptr) (f : stksess → stksess) (t : stktable) : stktable :=
  with_mem (<[ts := f (deref t ts)]> (mem t)) t.

(** ** The ebtree primitives

    Modelled from the spec: ebtree is a library outside the file; the spec
    assumes of it insert, delete, exact lookup, first node, next node in
    key order and first node with key >= x.  A node is in a tree at most
    once; duplicates of a key are kept in insertion order. *)

Fixpoint eb32_lookup_ge (m : gmap ptr stksess) (l : list ptr) (x : Z) : option ptr :=
  match l with
  | [] => None
  | p :: l' => if x <=? exps_key (m !!! p) then Some p else eb32_lookup_ge m l' x
  end.

Definition eb32_first (l : list ptr) : option ptr := head l.

Fixpoint eb32_next (l : list ptr) (p : ptr) : option ptr :=
  match l with
  | [] => None
  | q :: l' => if decide (q = p) then head l' else eb32_next l' p
  end.

(** The tree with the node [p] added, after the nodes with the same key. *)
Fixpoint eb32_place (m : gmap ptr stksess) (l : list ptr) (p : ptr) : list ptr :=
  match l with
  | [] => [p]
  | q :: l' =>
      if exps_key (m !!! p) <? exps_key (m !!! q) then p :: q :: l'
      else q :: eb32_place m l' p
  end.

(** The tree without the node [p]. *)
Definition unlink (p : ptr) (l : list ptr) : list ptr := filter (λ q, q ≠ p) l.

Definition eb32_insert (ts : ptr) (t : stktable) : stktable :=
  poke ts (with_exps_leaf_p true) (with_exps (eb32_place (mem t) (exps t) ts) t).

Definition eb32_delete (ts : ptr) (t : stktable) : stktable :=
  poke ts (with_exps_leaf_p false) (with_exps (unlink ts (exps t)) t).

Definition ebmb_insert (ts : ptr) (t : stktable) : stktable :=
  poke ts (with_keys_leaf_p true) (with_keys (ts :: keys t) t).

Definition ebmb_delete (ts : ptr) (t : stktable) : stktable :=
  poke ts (with_keys_leaf_p false) (with_keys (unlink ts (keys t)) t).

(** The bytes of a C string, up to its terminator. *)
Fixpoint cstr (b : list Z) : list Z :=
  match b with
  | [] => []
  | c :: b' => if c =? 0 then [] else c :: cstr b'
  end.

Fixpoint eb_find (f : ptr → bool) (l : list ptr) : option ptr :=
  match l with
  | [] => None
  | p :: l' => if f p then Some p else eb_find f l'
  end.

(** [ebmb_lookup(root, x, len)]: a node whose first [len] key bytes are
    those of [x]. *)
Definition ebmb_lookup (m : gmap ptr stksess) (l : list ptr) (x : list Z) (len : Z) : option ptr :=
  eb_find (λ p, bool_decide (take (Z.to_nat len) (keys_key (m !!! p)) = take (Z.to_nat len) x)) l.

(** [ebst_lookup(root, x)]: a node whose key is the C string [x]. *)
Definition ebst_lookup (m : gmap ptr stksess) (l : list ptr) (x : list Z) : option ptr :=
  eb_find (λ p, bool_decide (cstr (keys_key (m !!! p)) = cstr x)) l.

(** [ebst_lookup_len(root, x, len)]: a node whose key is the string made
    of the first [len] bytes of [x]. *)
Definition ebst_lookup_len (m : gmap ptr stksess) (l : list ptr) (x : list Z) (len : Z) : option ptr :=
  eb_find (λ p, bool_decide (cstr (keys_key (m !!! p)) = take (Z.to_nat len) x)) l.

(** ** The slot allocator

    Modelled from the spec: the pool allocator of common/memory.h is an
    external collaborator with two calls, acquire a slot (or fail) and
    release a slot.  The pool is the list of the slots it can still hand
    out; a released slot is the next one handed out, with the bytes it had
    when it was released. *)

Definition pool_alloc2 (pl : list ptr) : option (ptr * list ptr) :=
  match pl with
  | [] => None
  | p :: pl' => Some (p, pl')
  end.

Definition pool_free2 (pl : list ptr) (p : ptr) : list ptr := p :: pl.

(** [memcpy(dst, src, n)] on the bytes at [dst] and [src]; the C contract
    is that both hold [n] bytes.  A write [buf[i] = c] past the end of a
    buffer, undefined in C, leaves the list as it is. *)
Definition memcpy (dst src : list Z) (n : Z) : list Z :=
  take (Z.to_nat n) src ++ drop (Z.to_nat n) dst.

(** ** The functions of stick_table.c *)

Definition stksess_free (t : stktable) (ts : ptr) : stktable :=
  let t := with_current (u32 (current t - 1)) t in
  with_pool (pool_free2 (pool t) ts) t.

Definition stksess_key (t : stktable) (ts : ptr) (k : stktable_key) : stktable :=
  if negb (is_string (type t)) then
    poke ts (λ e, with_keys_key (memcpy (keys_key e) (key k) (key_size t)) e) t
  else
    let n := MIN (size_t (key_size t - 1)) (key_len k) in
    poke ts (λ e, with_keys_key (<[Z.to_nat n := 0]> (memcpy (keys_key e) (key k) n)) e) t.

Definition stksess_init (t : stktable) (ts : ptr) (k : stktable_key) : stktable :=
  let t := poke ts (with_keys_leaf_p false) t in
  let t := poke ts (with_exps_leaf_p false) t in
  let t := poke ts (with_sid 0) t in
  stksess_key t ts k.

(** What a scan did with a node it visited: detached it from [exps] only,
    put it back at its new date, or trashed the session. *)
Inductive verdict := Dropped | Restamped | Trashed.

Definition visit := (ptr * verdict)%type.

(** [if (unlikely(!eb)) eb = eb32_first(&t->exps);] *)
Definition scan_pick (t : stktable) (eb : option ptr) : option ptr :=
  match eb with
  | Some p => Some p
  | None => eb32_first (exps t)
  end.

(** [if (!eb || eb->key > ts->exps.key) eb = &ts->exps;] *)
Definition scan_resume (t : stktable) (eb : option ptr) (ts : ptr) : option ptr :=
  match eb with
  | None => Some ts
  | Some e => if exps_key (deref t e) >? exps_key (deref t ts) then Some ts else Some e
  end.

(** One turn of the loop of [stktable_trash_oldest], entered with
    [batched < to_batch]; [None] is the [break]. *)
Definition trash_oldest_body (t : stktable) (eb : option ptr) (batched : Z)
  : option (stktable * option ptr * Z * visit) :=
  match scan_pick t eb with
  | None => None
  | Some ts =>
      let eb := eb32_next (exps t) ts in
      let t := eb32_delete ts t in
      if negb (ts_expire (deref t ts) =? exps_key (deref t ts)) then
        if negb (tick_isset (ts_expire (deref t ts))) then
          Some (t, eb, batched, (ts, Dropped))
        else
          let t := poke ts (with_exps_key (ts_expire (deref t ts))) t in
          let t := eb32_insert ts t in
          Some (t, scan_resume t eb ts, batched, (ts, Restamped))
      else
        let t := ebmb_delete ts t in
        let t := stksess_free t ts in
        Some (t, eb, batched + 1, (ts, Trashed))
  end.

(** The loop, with the list of the visits it made.  It runs out of [fuel]
    only when given less than it needs, see [trash_oldest_loop_fuel]. *)
Fixpoint trash_oldest_loop (fuel : nat) (t : stktable) (eb : option ptr)
    (to_batch batched : Z) : option (stktable * Z * list visit) :=
  if batched <? to_batch then
    match fuel with
    | O => None
    | S fuel =>
        match trash_oldest_body t eb batched with
        | None => Some (t, batched, [])
        | Some (t', eb', batched', v) =>
            match trash_oldest_loop fuel t' eb' to_batch batched' with
            | None => None
            | Some (t'', n, vs) => Some (t'', n, v :: vs)
            end
        end
    end
  else Some (t, batched, []).

Definition trash_oldest_scan (t : stktable) (to_batch now : Z)
  : option (stktable * Z * list visit) :=
  let eb := eb32_lookup_ge (mem t) (exps t) (u32 (now - TIMER_LOOK_BACK)) in
  trash_oldest_loop (2 * length (exps t) + 1) t eb to_batch 0.

Definition stktable_trash_oldest (t : stktable) (to_batch now : Z)
  : option (stktable * Z) :=
  match trash_oldest_scan t to_batch now with
  | None => None
  | Some (t', n, _) => Some (t', n)
  end.

(** [stksess_new], in its two blocks.  The first is the test
    [t->current == t->size]: it gives the table it leaves and whether the
    function goes on ([false] is [return NULL]). *)
Definition stksess_new_room (t : stktable) (now : Z) : option (stktable * bool) :=
  if current t =? size t then
    if negb (nopurge t =? 0) then Some (t, false)
    else
      match stktable_trash_oldest t (Z.shiftr (size t) 8) now with
      | None => None
      | Some (t', n) => Some (t', negb (n =? 0))
      end
  else Some (t, true).

(** The second is the allocation: the table after it and the session,
    [None] for NULL. *)
Definition stksess_new_alloc (t : stktable) (k : stktable_key) : stktable * option ptr :=
  match pool_alloc2 (pool t) with
  | None => (t, None)
  | Some (ts, pl) =>
      let t := with_pool pl t in
      let t := with_current (u32 (current t + 1)) t in
      (stksess_init t ts k, Some ts)
  end.

Definition stksess_new (t : stktable) (k : stktable_key) (now : Z)
  : option (stktable * option ptr) :=
  match stksess_new_room t now with
  | None => None
  | Some (t', false) => Some (t', None)
  | Some (t', true) => Some (stksess_new_alloc t' k)
  end.

Definition stktable_lookup (t : stktable) (k : stktable_key) : option ptr :=
  if is_string (type t) then ebst_lookup_len (mem t) (keys t) (key k) (key_len k)
  else ebmb_lookup (mem t) (keys t) (key k) (key_size t).

(** The lookup [stktable_store] starts with: a stored session with the key
    of [ts], if there is one. *)
Definition store_lookup (t : stktable) (ts : ptr) : option ptr :=
  if is_string (type t) then ebst_lookup (mem t) (keys t) (keys_key (deref t ts))
  else ebmb_lookup (mem t) (keys t) (keys_key (deref t ts)) (key_size t).

(** [stktable_store]: the table after the call and the returned int.
    [task_queue] belongs to the scheduler: of the task, the table keeps
    the [expire] field the function writes. *)
Definition stktable_store (t : stktable) (ts : ptr) (sid' : Z) (now : Z)
  : stktable * Z :=
  match store_lookup t ts with
  | None =>
      let t := poke ts (with_sid sid') t in
      let t := ebmb_insert ts t in
      let e := tick_add now (MS_TO_TICKS (expire t)) in
      let t := poke ts (with_expire e) t in
      let t := poke ts (with_exps_key e) t in
      let t := eb32_insert ts t in
      let t :=
        if negb (expire t =? 0) then
          with_exp_next_task (tick_first (ts_expire (deref t ts)) (exp_next t)) t
        else t in
      (t, 0)
  | Some ts =>
      let t := if negb (sid (deref t ts) =? sid') then poke ts (with_sid sid') t else t in
      (t, 1)
  end.

(** One turn of the loop of [stktable_trash_expired]. *)
Inductive expired_turn :=
  | TurnBreak
  | TurnReturn (t : stktable)
  | TurnNext (t : stktable) (eb : option ptr) (v : visit).

Definition trash_expired_body (t : stktable) (eb : option ptr) (now : Z) : expired_turn :=
  match scan_pick t eb with
  | None => TurnBreak
  | Some ts =>
      if tick_is_lt now (exps_key (deref t ts)) then
        TurnReturn (with_exp_next (exps_key (deref t ts)) t)
      else
        let eb := eb32_next (exps t) ts in
        let t := eb32_delete ts t in
        if negb (tick_is_expired (ts_expire (deref t ts)) now) then
          if negb (tick_isset (ts_expire (deref t ts))) then
            TurnNext t eb (ts, Dropped)
          else
            let t := poke ts (with_exps_key (ts_expire (deref t ts))) t in
            let t := eb32_insert ts t in
            TurnNext t (scan_resume t eb ts) (ts, Restamped)
        else
          let t := ebmb_delete ts t in
          let t := stksess_free t ts in
          TurnNext t eb (ts, Trashed)
  end.

Fixpoint trash_expired_loop (fuel : nat) (t : stktable) (eb : option ptr) (now : Z)
  : option (stktable * Z * list visit) :=
  match fuel with
  | O => None
  | S fuel =>
      match trash_expired_body t eb now with
      | TurnBreak =>
          let t := with_exp_next TICK_ETERNITY t in Some (t, exp_next t, [])
      | TurnReturn t => Some (t, exp_next t, [])
      | TurnNext t' eb' v =>
          match trash_expired_loop fuel t' eb' now with
          | None => None
          | Some (t'', r, vs) => Some (t'', r, v :: vs)
          end
      end
  end.

Definition trash_expired_scan (t : stktable) (now : Z)
  : option (stktable * Z * list visit) :=
  let eb := eb32_lookup_ge (mem t) (exps t) (u32 (now - TIMER_LOOK_BACK)) in
  trash_expired_loop (S (length (exps t))) t eb now.

Definition stktable_trash_expired (t : stktable) (now : Z) : option (stktable * Z) :=
  match trash_expired_scan t now with
  | None => None
  | Some (t', r, _) => Some (t', r)
  end.

(** [process_table_expire]: [task->expire = stktable_trash_expired(t)]. *)
Definition process_table_expire (t : stktable) (now : Z) : option stktable :=
  match stktable_trash_expired t now with
  | None => None
  | Some (t', r) => Some (with_exp_next_task r t')
  end.

Definition with_exp_task (v : Z) (t : stktable) : stktable :=
  {| keys := keys t; exps := exps t; pool := pool t; exp_task := v;
     type := type t; key_size := key_size t; size := size t;
     current := current t; nopurge := nopurge t; exp_next := exp_next t;
     expire := expire t; mem := mem t |}.

(** [stktable_init]; [created] is what [create_pool] returns, the slots of
    the new pool or [None] for NULL. *)
Definition stktable_init (t : stktable) (created : option (list ptr)) : stktable * Z :=
  if negb (size t =? 0) then
    let t := with_keys [] t in
    let t := with_exps [] t in
    let t := with_pool (default [] created) t in
    let t := with_exp_next TICK_ETERNITY t in
    let t := if negb (expire t =? 0) then with_exp_task TICK_ETERNITY t else t in
    (t, match created with Some _ => 1 | None => 0 end)
  else (t, 1).

(** ** Termination measures of the two scans *)

(** A node of [exps] is visited at most twice by [stktable_trash_oldest]:
    once if its key is the date of its session, twice if it is not. *)
Definition oldest_weight (t : stktable) (p : ptr) : nat :=
  if ts_expire (deref t p) =? exps_key (deref t p) then 1%nat else 2%nat.

Definition oldest_measure (t : stktable) : nat :=
  sum_list_with (oldest_weight t) (exps t).

(** [stktable_trash_expired] visits a node only if its key has elapsed. *)
Definition expired_weight (now : Z) (t : stktable) (p : ptr) : nat :=
  if tick_is_lt now (exps_key (deref t p)) then 0%nat else 1%nat.

Definition expired_measure (now : Z) (t : stktable) : nat :=
  sum_list_with (expired_weight now t) (exps t).

(** The cursor of a scan is NULL or a node of [exps]. *)
Definition cursor_ok (t : stktable) (eb : option ptr) : Prop :=
  ∀ p, eb = Some p → p ∈ exps t.

(** ** The runs of the two loops, as relations

    [oldest_run to_batch t eb batched t' n vs]: entered with table [t],
    cursor [eb] and count [batched], the loop of [stktable_trash_oldest]
    leaves the table [t'] and the count [n] after the visits [vs]. *)
Inductive oldest_run (to_batch : Z)
  : stktable → option ptr → Z → stktable → Z → list visit → Prop :=
  | oldest_run_batched t eb b :
      ¬ b < to_batch → oldest_run to_batch t eb b t b []
  | oldest_run_break t eb b :
      b < to_batch → trash_oldest_body t eb b = None →
      oldest_run to_batch t eb b t b []
  | oldest_run_turn t eb b t1 eb1 b1 v t' n vs :
      b < to_batch → trash_oldest_body t eb b = Some (t1, eb1, b1, v) →
      oldest_run to_batch t1 eb1 b1 t' n vs →
      oldest_run to_batch t eb b t' n (v :: vs).

(** [expired_run now t eb t' r vs]: the same for the loop of
    [stktable_trash_expired], which returns [r]. *)
Inductive expired_run (now : Z)
  : stktable → option ptr → stktable → Z → list visit → Prop :=
  | expired_run_break t eb :
      trash_expired_body t eb now = TurnBreak →
      expired_run now t eb (with_exp_next TICK_ETERNITY t) TICK_ETERNITY []
  | expired_run_return t eb t' :
      trash_expired_body t eb now = TurnReturn t' →
      expired_run now t eb t' (exp_next t') []
  | expired_run_turn t eb t1 eb1 v t' r vs :
      trash_expired_body t eb now = TurnNext t1 eb1 v →
      expired_run now t1 eb1 t' r vs →
      expired_run now t eb t' r (v :: vs).

(** ** The scenario of the specification

    A string table of capacity 2 with 9-byte keys and a ttl of 1000 ms,
    over three slots of stale memory. *)
Definition stale_slot : stksess :=
  {| sid := 99; ts_expire := 5; exps_key := 6; exps_leaf_p := true;
     keys_leaf_p := true; keys_key := [7; 7; 7; 7; 7; 7; 7; 7; 7] |}.

Definition stale_mem : gmap ptr stksess :=
  <[1%nat := stale_slot]> (<[2%nat := stale_slot]> (<[3%nat := stale_slot]> ∅)).

Definition scenario_empty : stktable :=
  {| keys := []; exps := []; pool := [1; 2; 3]%nat; exp_task := 0;
     type := STKTABLE_TYPE_STRING; key_size := 9; size := 2; current := 0;
     nopurge := 0; exp_next := 0; expire := 1000; mem := stale_mem |}.

Definition alice : stktable_key := {| key := [97; 108; 105; 99; 101]; key_len := 5 |}.
Definition bob : stktable_key := {| key := [98; 111; 98]; key_len := 3 |}.
Definition carol : stktable_key := {| key := [99; 97; 114; 111; 108]; key_len := 5 |}.
Definition alexandra : stktable_key :=
  {| key := [97; 108; 101; 120; 97; 110; 100; 114; 97]; key_len := 9 |}.

Definition alice_session : stksess :=
  {| sid := 1; ts_expire := 1100; exps_key := 1100; exps_leaf_p := true;
     keys_leaf_p := true; keys_key := [97; 108; 105; 99; 101; 0; 7; 7; 7] |}.

Definition bob_session : stksess :=
  {| sid := 3; ts_expire := 1300; exps_key := 1300; exps_leaf_p := true;
     keys_leaf_p := true; keys_key := [98; 111; 98; 0; 7; 7; 7; 7; 7] |}.

(** The table once "alice" was stored at tick 100 in slot 1. *)
Definition scenario_one : stktable :=
  {| keys := [1]%nat; exps := [1]%nat; pool := [2; 3]%nat; exp_task := 1100;
     type := STKTABLE_TYPE_STRING; key_size := 9; size := 2; current := 1;
     nopurge := 0; exp_next := 1100; expire := 1000;
     mem := <[1%nat := alice_session]> stale_mem |}.

(** Then a second session for "alice" was allocated in slot 2; its caller
    has not stored it yet. *)
Definition scenario_dup : stktable :=
  {| keys := [1]%nat; exps := [1]%nat; pool := [3]%nat; exp_task := 1100;
     type := STKTABLE_TYPE_STRING; key_size := 9; size := 2; current := 2;
     nopurge := 0; exp_next := 1100; expire := 1000;
     mem :=
       <[2%nat := {| sid := 0; ts_expire := 5; exps_key := 6;
                     exps_leaf_p := false; keys_leaf_p := false;
                     keys_key := [97; 108; 105; 99; 101; 0; 7; 7; 7] |}]>
       (<[1%nat := alice_session]> stale_mem) |}.

(** Or "bob" was stored at tick 300 in slot 2: the table is full. *)
Definition scenario_full : stktable :=
  {| keys := [2; 1]%nat; exps := [1; 2]%nat; pool := [3]%nat; exp_task := 1100;
     type := STKTABLE_TYPE_STRING; key_size := 9; size := 2; current := 2;
     nopurge := 0; exp_next := 1100; expire := 1000;
     mem := <[2%nat := bob_session]> (<[1%nat := alice_session]> stale_mem) |}.

(** The same table configured without expiration, and once "alice" was
    stored in it at tick 100. *)
Definition forever_empty : stktable :=
  {| keys := []; exps := []; pool := [1; 2; 3]%nat; exp_task := 0;
     type := STKTABLE_TYPE_STRING; key_size := 9; size := 2; current := 0;
     nopurge := 0; exp_next := 0; expire := 0; mem := stale_mem |}.

Definition forever_one : stktable :=
  {| keys := [1]%nat; exps := [1]%nat; pool := [2; 3]%nat; exp_task := 0;
     type := STKTABLE_TYPE_STRING; key_size := 9; size := 2; current := 1;
     nopurge := 0; exp_next := 0; expire := 0;
     mem :=
       <[1%nat := {| sid := 1; ts_expire := 100; exps_key := 100;
                     exps_leaf_p := true; keys_leaf_p := true;
                     keys_key := [97; 108; 105; 99; 101; 0; 7; 7; 7] |}]>
       stale_mem |}.

(** ** Reachable tables *)

(** The key of a stored session as the lookups of [stktable_store] read
    it: the C string for a string table, the first [key_size] bytes for
    the other kinds. *)
Definition stored_key (t : stktable) (p : ptr) : list Z :=
  if is_string (type t) then cstr (keys_key (deref t p))
  else take (Z.to_nat (key_size t)) (keys_key (deref t p)).

(** The table structure before [stktable_init]: zeroed memory but for the
    configuration. *)
Definition zeroed (t : stktable) : Prop :=
  keys t = [] ∧ exps t = [] ∧ pool t = [] ∧ current t = 0 ∧
  exp_next t = 0 ∧ exp_task t = 0.

(** [reachable t owned]: the table [t] is reached from an initialised
    table by calls of the functions of the file; [owned] are the sessions
    [stksess_new] returned that their callers have neither stored nor
    freed yet.  A caller stores or frees only a session it owns, and still
    owns a session whose store returned non-zero. *)
Inductive reachable : stktable → list ptr → Prop :=
  | reach_init t0 created t :
      zeroed t0 → 0 ≤ size t0 < 2 ^ 32 → NoDup (default [] created) →
      stktable_init t0 created = (t, 1) →
      reachable t []
  | reach_new t owned k now t' r :
      reachable t owned →
      stksess_new t k now = Some (t', r) →
      reachable t' (match r with Some ts => ts :: owned | None => owned end)
  | reach_store t owned ts sid' now t' r :
      reachable t owned → ts ∈ owned →
      stktable_store t ts sid' now = (t', r) →
      reachable t' (if r =? 0 then unlink ts owned else owned)
  | reach_free t owned ts :
      reachable t owned → ts ∈ owned →
      reachable (stksess_free t ts) (unlink ts owned)
  | reach_expire t owned now t' :
      reachable t owned →
      process_table_expire t now = Some t' →
      reachable t' owned.

(** What holds of every reachable table. *)
Record table_inv (owned : list ptr) (t : stktable) : Prop := {
  inv_slots : NoDup (owned ++ keys t ++ pool t);
  inv_exps : NoDup (exps t);
  inv_both : ∀ p, p ∈ keys t ↔ p ∈ exps t;
  inv_current : current t = Z.of_nat (length (keys t) + length owned);
  inv_bound : current t ≤ size t;
  inv_size : 0 ≤ size t < 2 ^ 32;
  inv_sync : ∀ p, p ∈ exps t →
             ts_expire (deref t p) = exps_key (deref t p) ∧ ts_expire (deref t p) ≠ 0;
  inv_unique : ∀ p q, p ∈ keys t → q ∈ keys t →
               stored_key t p = stored_key t q → p = q;
}.

(** The scans leave the configuration of the table alone. *)
Definition same_config (t t' : stktable) : Prop :=
  size t' = size t ∧ type t' = type t ∧ key_size t' = key_size t ∧
  nopurge t' = nopurge t ∧ expire t' = expire t.

(** ** What a scan does with a node it keeps

    [kept_visit t ts t' eb' v]: the turn that visited the node [ts] in the
    table [t] left the session in the key tree and in memory, with the
    table [t'], the cursor [eb'] and the verdict [v].  A session that
    never expires is [Dropped] from [exps] and the scan goes to the next
    node; any other is [Restamped]: put back in [exps] at its date, and
    the scan goes on from the next node [e] or from [ts], whichever has
    the smaller key ([e] if the keys are equal, [ts] if there is no next
    node). *)
Definition kept_visit (t : stktable) (ts : ptr) (t' : stktable)
    (eb' : option ptr) (v : verdict) : Prop :=
  let nx := eb32_next (exps t) ts in
  keys t' = keys t ∧ pool t' = pool t ∧ current t' = current t ∧
  if ts_expire (deref t ts) =? TICK_ETERNITY then
    v = Dropped ∧ exps t' = unlink ts (exps t) ∧ eb' = nx
  else
    v = Restamped ∧
    exps_key (deref t' ts) = ts_expire (deref t ts) ∧
    exps t' = eb32_place (mem t') (unlink ts (exps t)) ts ∧
    eb' = match nx with
          | None => Some ts
          | Some e =>
              if exps_key (deref t' e) >? exps_key (deref t' ts) then Some ts
              else Some e
          end.

(** The table [scenario_one] after a caller moved the date of "alice"
    from tick 1100 to tick 1200. *)
Definition scenario_touched : stktable :=
  poke 1%nat (with_expire 1200) scenario_one.

(** ** What a sweep leaves *)

(** The sessions a scan trashed, in the order of the visits. *)
Fixpoint trashed (vs : list visit) : list ptr :=
  match vs with
  | [] => []
  | (p, Trashed) :: vs => p :: trashed vs
  | _ :: vs => trashed vs
  end.

(** [sweep_result now t t' r vs]: the sweep of the table [t] at tick [now]
    made the visits [vs], left the table [t'] and returned [r].
    - [r] is recorded in [exp_next]; it is [TICK_ETERNITY] and [exps] is
      empty, or it is the key of a node of [exps] that is later than
      [now];
    - every visited node was in [exps] with a key not later than [now];
      its session is trashed if and only if its date has expired, and
      then, as when it is dropped, it is no longer in [exps];
    - the trashed sessions are the ones taken out of [keys]; each is given
      back to the pool and takes one from [current];
    - no date is changed and no node is added to [exps]. *)
Definition sweep_result (now : Z) (t t' : stktable) (r : Z) (vs : list visit) : Prop :=
  exp_next t' = r
  ∧ ((r = TICK_ETERNITY ∧ exps t' = [])
     ∨ (∃ p, p ∈ exps t' ∧ exps_key (deref t' p) = r ∧ tick_is_lt now r = true))
  ∧ (∀ p v, (p, v) ∈ vs →
       p ∈ exps t ∧ tick_is_lt now (exps_key (deref t p)) = false ∧
       (v = Trashed ↔ tick_is_expired (ts_expire (deref t p)) now = true) ∧
       (v ≠ Restamped → p ∉ exps t'))
  ∧ (∀ q, q ∈ keys t' ↔ q ∈ keys t ∧ q ∉ trashed vs)
  ∧ pool t' = reverse (trashed vs) ++ pool t
  ∧ current t' = Nat.iter (length (trashed vs)) (λ c, u32 (c - 1)) (current t)
  ∧ (∀ q, ts_expire (deref t' q) = ts_expire (deref t q))
  ∧ (∀ q, q ∈ exps t' → q ∈ exps t).

(** ** The order of a scan *)

(** The nodes of the tree before the first node with key >= [x], and the
    nodes from that one on: since the tree is in key order, the nodes with
    a key below [x] and the nodes with a key of at least [x]. *)
Fixpoint eb32_below (m : gmap ptr stksess) (l : list ptr) (x : Z) : list ptr :=
  match l with
  | [] => []
  | p :: l' => if x <=? exps_key (m !!! p) then [] else p :: eb32_below m l' x
  end.

Fixpoint eb32_from (m : gmap ptr stksess) (l : list ptr) (x : Z) : list ptr :=
  match l with
  | [] => []
  | p :: l' => if x <=? exps_key (m !!! p) then p :: l' else eb32_from m l' x
  end.

(** The nodes keyed from [now - TIMER_LOOK_BACK] up to the largest key,
    then the nodes keyed from the smallest key up. *)
Definition scan_order (t : stktable) (now : Z) : list ptr :=
  let x := u32 (now - TIMER_LOOK_BACK) in
  eb32_from (mem t) (exps t) x ++ eb32_below (mem t) (exps t) x.

(** The nodes at the head of [l] whose key is not later than [now], and
    the key of the first node that is, [TICK_ETERNITY] if there is none. *)
Fixpoint elapsed_prefix (now : Z) (t : stktable) (l : list ptr) : list ptr :=
  match l with
  | [] => []
  | p :: l' =>
      if tick_is_lt now (exps_key (deref t p)) then []
      else p :: elapsed_prefix now t l'
  end.

Fixpoint first_later (now : Z) (t : stktable) (l : list ptr) : Z :=
  match l with
  | [] => TICK_ETERNITY
  | p :: l' =>
      if tick_is_lt now (exps_key (deref t p)) then exps_key (deref t p)
      else first_later now t l'
  end.

(** Every node of [exps] is keyed by the date of its session, and that
    date is set: no session was touched since it was stored. *)
Definition exps_in_sync (t : stktable) : Prop :=
  ∀ p, p ∈ exps t →
    ts_expire (deref t p) = exps_key (deref t p) ∧ ts_expire (deref t p) ≠ 0.

Definition all_trashed (l : list ptr) : list visit := map (λ p, (p, Trashed)) l.

(** ** Tables around the wrap of the tick clock *)

Definition session_at (byte key' date : Z) : stksess :=
  {| sid := 1; ts_expire := date; exps_key := key'; exps_leaf_p := true;
     keys_leaf_p := true; keys_key := [byte; 0; 0; 0] |}.

(** Three sessions of an integer table: slot 1 keyed 5, just past zero;
    slots 2 and 3 keyed 0xFFFFFFE0 and 0xFFFFFFE8, near the maximum. *)
Definition wrap_table (m : gmap ptr stksess) : stktable :=
  {| keys := [3; 2; 1]%nat; exps := [1; 2; 3]%nat; pool := []; exp_task := 5;
     type := STKTABLE_TYPE_INTEGER; key_size := 4; size := 1024; current := 3;
     nopurge := 0; exp_next := 5; expire := 50; mem := m |}.

(** Untouched: every key is the date of its session. *)
Definition wrap_in_sync : stktable :=
  wrap_table (<[1%nat := session_at 10 5 5]>
             (<[2%nat := session_at 20 4294967264 4294967264]>
             (<[3%nat := session_at 30 4294967272 4294967272]> ∅))).

(** The session of slot 2 was touched: its date moved from 0xFFFFFFE0 to
    tick 16, past the wrap. *)
Definition wrap_touched : stktable :=
  wrap_table (<[1%nat := session_at 10 5 5]>
             (<[2%nat := session_at 20 4294967264 16]>
             (<[3%nat := session_at 30 4294967272 4294967272]> ∅))).

(** The expiration tree is in key order, and its keys are 32-bit values. *)
Definition exps_sorted (t : stktable) : Prop :=
  StronglySorted (λ p q, exps_key (deref t p) ≤ exps_key (deref t q)) (exps t)
  ∧ ∀ p, p ∈ exps t → 0 ≤ exps_key (deref t p) < 2 ^ 32.

(** The order of two keys in a scan that starts at key [x]: both at least
    [x], both below, or the first at least [x] and the second below. *)
Definition scanned_before (x k1 k2 : Z) : Prop :=
  (x ≤ k1 ∧ k1 ≤ k2) ∨ (k1 ≤ k2 ∧ k2 < x) ∨ (x ≤ k1 ∧ k2 < x).

(** ** Keys as the lookups read them *)

(** The key [stktable_lookup] searches for: the string made of the first
    [key_len] bytes of the raw key for a string table, the first
    [key_size] bytes of the raw key for the other kinds. *)
Definition lookup_key (t : stktable) (k : stktable_key) : list Z :=
  if is_string (type t) then take (Z.to_nat (key_len k)) (key k)
  else take (Z.to_nat (key_size t)) (key k).

(** The key a raw key is stored as: for a string table its first
    [min (key_size - 1) key_len] bytes, up to a zero byte if they hold
    one. *)
Definition normal_key (t : stktable) (k : stktable_key) : list Z :=
  if is_string (type t) then
    cstr (take (Z.to_nat (Z.min (key_size t - 1) (key_len k))) (key k))
  else take (Z.to_nat (key_size t)) (key k).

(** A raw key that holds the bytes [stksess_key] reads of it. *)
Definition key_readable (t : stktable) (k : stktable_key) : Prop :=
  if is_string (type t) then 0 ≤ key_len k ≤ Z.of_nat (length (key k))
  else key_size t ≤ Z.of_nat (length (key k)).

(** A raw key the table stores whole: a string of at most [key_size - 1]
    bytes, none of them zero, or [key_size] bytes for the other kinds. *)
Definition key_fits (t : stktable) (k : stktable_key) : Prop :=
  if is_string (type t) then
    0 ≤ key_len k ≤ key_size t - 1 ∧ key_len k ≤ Z.of_nat (length (key k)) ∧
    Forall (λ c, c ≠ 0) (take (Z.to_nat (key_len k)) (key k))
  else key_size t ≤ Z.of_nat (length (key k)).

(** The table [scenario_full] after the sweep at tick 1200: "alice" has
    expired, "bob" has not. *)
Definition scenario_swept : stktable :=
  {| keys := [2]%nat; exps := [2]%nat; pool := [1; 3]%nat; exp_task := 1100;
     type := STKTABLE_TYPE_STRING; key_size := 9; size := 2; current := 1;
     nopurge := 0; exp_next := 1300; expire := 1000;
     mem :=
       <[1%nat := {| sid := 1; ts_expire := 1100; exps_key := 1100;
                     exps_leaf_p := false; keys_leaf_p := false;
                     keys_key := [97; 108; 105; 99; 101; 0; 7; 7; 7] |}]>
       (<[2%nat := bob_session]> stale_mem) |}.

(** ** A full table of 256 sessions

    An integer table of capacity 256 over 300 slots of four key bytes. *)
Definition blank_slot : stksess :=
  {| sid := 0; ts_expire := 0; exps_key := 0; exps_leaf_p := false;
     keys_leaf_p := false; keys_key := [0; 0; 0; 0] |}.

Definition large_empty : stktable :=
  {| keys := []; exps := []; pool := seq 1 300; exp_task := 0;
     type := STKTABLE_TYPE_INTEGER; key_size := 4; size := 256; current := 0;
     nopurge := 0; exp_next := 0; expire := 1000;
     mem := list_to_map (map (λ p, (p, blank_slot)) (seq 1 300)) |}.

(** One more call of [stksess_new] by a caller that keeps its session. *)
Definition one_more (k : stktable_key) (now : Z) (s : stktable * list ptr)
  : stktable * list ptr :=
  match stksess_new s.1 k now with
  | Some (t', Some ts) => (t', ts :: s.2)
  | Some (t', None) => (t', s.2)
  | None => s
  end.

(** The key 7 was stored at tick 100; then 255 callers got a session for
    the key 9 at tick 200 and have not stored it yet. *)
Definition large_one : stktable :=
  (stktable_store
     (stksess_new_alloc large_empty {| key := [7; 0; 0; 0]; key_len := 4 |}).1
     1%nat 1 100).1.

Definition large_full : stktable * list ptr :=
  Nat.iter 255 (one_more {| key := [9; 0; 0; 0]; key_len := 4 |} 200) (large_one, []).

(** ** The configuration keywords of the table types

    Modelled from the spec: types/stick_table.h is not part of the file.
    Of it the parser needs the number of table types, three as the
    keyword table has three entries; the flag of the types whose key size
    can be configured, a bit that only the string entry carries; and the
    numbers of the kinds, IP, integer and string in this order. *)
Definition STKTABLE_TYPES : Z := 3.
Definition STK_F_CUSTOM_KEYSIZE : Z := 1.

Definition type_of_index (i : Z) : option stktable_type :=
  if i =? 0 then Some STKTABLE_TYPE_IP
  else if i =? 1 then Some STKTABLE_TYPE_INTEGER
  else if i =? 2 then Some STKTABLE_TYPE_STRING
  else None.

(** [struct stktable_type]: a keyword, its flags and its default key
    size. *)
Record stktable_type_kw := { kw : string; flags : Z; default_size : Z }.

Definition stktable_types : list stktable_type_kw :=
  [ {| kw := "ip"; flags := 0; default_size := 4 |};
    {| kw := "integer"; flags := 0; default_size := 4 |};
    {| kw := "string"; flags := STK_F_CUSTOM_KEYSIZE; default_size := 32 |} ].

(** [args[i]]: the words of a configuration line.  The reader of the
    configuration file makes every word after the last one of the line
    the empty string. *)
Definition arg (args : list string) (i : Z) : string := nth (Z.to_nat i) args "".

(** What [stktable_parse_type] returns and leaves at [myidx], [type] and
    [key_size]. *)
Record parsed := { p_ret : Z; p_myidx : Z; p_type : Z; p_key_size : Z }.

Section parse.

(** [atol] of the C library; its [long] is converted to [size_t] by the
    assignment to [*key_size]. *)
Variable atol : string → Z.

(** The loop of [stktable_parse_type] from the entry [ty] on, [tys] being
    the entries [stktable_types[ty]] and following; the other arguments
    are the values at [myidx] and [key_size]. *)
Fixpoint parse_type_from (tys : list stktable_type_kw) (args : list string)
    (myidx ty key_size : Z) : parsed :=
  match tys with
  | [] => {| p_ret := 1; p_myidx := myidx; p_type := ty; p_key_size := key_size |}
  | d :: tys' =>
      if negb (String.eqb (arg args myidx) (kw d)) then
        parse_type_from tys' args myidx (ty + 1) key_size
      else
        let key_size := default_size d in
        let myidx := myidx + 1 in
        if negb (Z.land (flags d) STK_F_CUSTOM_KEYSIZE =? 0) then
          if String.eqb "len" (arg args myidx) then
            let myidx := myidx + 1 in
            let key_size := size_t (atol (arg args myidx)) in
            if key_size =? 0 then
              {| p_ret := 1; p_myidx := myidx; p_type := ty; p_key_size := key_size |}
            else
              {| p_ret := 0; p_myidx := myidx + 1; p_type := ty;
                 p_key_size := size_t (key_size + 1) |}
          else
            {| p_ret := 0; p_myidx := myidx; p_type := ty; p_key_size := key_size |}
        else
          {| p_ret := 0; p_myidx := myidx; p_type := ty; p_key_size := key_size |}
  end.

Definition stktable_parse_type (args : list string) (myidx key_size : Z) : parsed :=
  parse_type_from stktable_types args myidx 0 key_size.

End parse.

(** A reader of unsigned decimal numbers, 0 on anything else, to run the
    parser on examples. *)
Fixpoint digits (acc : Z) (s : string) : Z :=
  match s with
  | EmptyString => acc
  | String c s' =>
      let d := Z.of_nat (Ascii.nat_of_ascii c) - 48 in
      if (0 <=? d) && (d <=? 9) then digits (10 * acc + d) s' else acc
  end.

(** * Properties *)

(** ** Memory *)

Lemma deref_poke_eq ts f t : deref (poke ts f t) ts = f (deref t ts).
Proof. unfold deref, poke; simpl. by rewrite lookup_total_insert_eq. Qed.

Lemma deref_poke_ne ts f t q : q ≠ ts → deref (poke ts f t) q = deref t q.
Proof. intros Hq. unfold deref, poke; simpl. by rewrite lookup_total_insert_ne. Qed.

Lemma deref_poke ts f t q :
  deref (poke ts f t) q = if decide (q = ts) then f (deref t ts) else deref t q.
Proof.
  destruct (decide (q = ts)) as [->|Hq];
    [apply deref_poke_eq | by apply deref_poke_ne].
Qed.

(** ** Key normalisation *)

Lemma MIN_min a b : MIN a b = Z.min a b.
Proof. unfold MIN. destruct (Z.ltb_spec a b); lia. Qed.

Lemma terminate_memcpy dst src n :
  (n ≤ length src)%nat → (n < length dst)%nat →
  <[n := 0]> (take n src ++ drop n dst) = take n src ++ 0 :: drop (S n) dst.
Proof.
  intros Hs Hd.
  rewrite insert_app_r_alt by (rewrite length_take; lia).
  rewrite length_take, Nat.min_l, Nat.sub_diag by lia.
  destruct (lookup_lt_is_Some_2 dst n Hd) as [c Hc].
  by rewrite (drop_S _ _ _ Hc).
Qed.

(** C8.  [stksess_key] on a table whose slots hold [key_size] key bytes:
    for a string table it copies [min (key_size - 1) key_len] bytes of the
    raw key and writes one zero byte at that offset, so that a raw key
    longer than [key_size - 1] is stored as its first [key_size - 1] bytes
    are (truncated, not rejected); for the other kinds it copies exactly
    [key_size] bytes. *)
Theorem stksess_key_normalizes (t : stktable) (ts : ptr) (k : stktable_key) :
  1 ≤ key_size t < 2 ^ 64 →
  key_size t ≤ Z.of_nat (length (keys_key (deref t ts))) →
  0 ≤ key_len k ≤ Z.of_nat (length (key k)) →
  (is_string (type t) = false → key_size t ≤ Z.of_nat (length (key k))) →
  let buf := keys_key (deref t ts) in
  let stored := keys_key (deref (stksess_key t ts k) ts) in
  if is_string (type t) then
    let n := Z.to_nat (Z.min (key_size t - 1) (key_len k)) in
    stored = take n (key k) ++ 0 :: drop (S n) buf
    ∧ (key_size t - 1 < key_len k →
       stksess_key t ts k =
       stksess_key t ts {| key := take (Z.to_nat (key_size t - 1)) (key k);
                           key_len := key_size t - 1 |})
  else
    stored = take (Z.to_nat (key_size t)) (key k) ++ drop (Z.to_nat (key_size t)) buf.
Proof.
  intros Hks Hbuf Hlen Hfix buf stored. subst buf stored.
  unfold stksess_key. destruct (is_string (type t)); simpl.
  - assert (Hsz : size_t (key_size t - 1) = key_size t - 1)
      by (unfold size_t; apply Z.mod_small; lia).
    rewrite Hsz, MIN_min. split.
    + rewrite deref_poke_eq; simpl. unfold memcpy.
      apply terminate_memcpy; lia.
    + intros Hlong. simpl. rewrite MIN_min.
      rewrite !Z.min_l by lia. unfold memcpy.
      by rewrite take_take, Nat.min_id.
  - rewrite deref_poke_eq; simpl. reflexivity.
Qed.

Lemma stksess_key_normalizes_witness :
  keys_key (deref (stksess_key scenario_empty 1%nat alexandra) 1%nat)
    = [97; 108; 101; 120; 97; 110; 100; 114; 0]
  ∧ stksess_key scenario_empty 1%nat alexandra
    = stksess_key scenario_empty 1%nat
        {| key := [97; 108; 101; 120; 97; 110; 100; 114]; key_len := 8 |}.
Proof.
  destruct (stksess_key_normalizes scenario_empty 1%nat alexandra
              ltac:(simpl; lia) ltac:(by vm_compute) ltac:(simpl; lia)
              ltac:(discriminate)) as [H1 H2].
  split; [exact H1 | apply H2; simpl; lia].
Defined.

(** ** Lists as trees *)

Lemma elem_of_unlink p q l : q ∈ unlink p l ↔ q ≠ p ∧ q ∈ l.
Proof. unfold unlink. by rewrite list_elem_of_filter. Qed.

Lemma not_elem_of_unlink p l : p ∉ unlink p l.
Proof. rewrite elem_of_unlink. tauto. Qed.

Lemma NoDup_unlink p l : NoDup l → NoDup (unlink p l).
Proof. apply NoDup_filter. Qed.

Lemma unlink_absent p l : p ∉ l → unlink p l = l.
Proof.
  induction l as [|q l IH]; intros Hp; [done|].
  unfold unlink in *. rewrite filter_cons.
  destruct (decide (q ≠ p)) as [Hq|Hq].
  - f_equal. apply IH. set_solver.
  - exfalso. apply Hp. destruct (decide (q = p)) as [->|]; [left|tauto].
Qed.

Lemma unlink_cons_eq p l : unlink p (p :: l) = unlink p l.
Proof. unfold unlink. by rewrite filter_cons_False by tauto. Qed.

Lemma unlink_cons_ne p q l : q ≠ p → unlink p (q :: l) = q :: unlink p l.
Proof. intros. unfold unlink. by rewrite filter_cons_True. Qed.

Lemma sum_unlink (f : ptr → nat) p l :
  NoDup l → p ∈ l →
  sum_list_with f l = (f p + sum_list_with f (unlink p l))%nat.
Proof.
  induction l as [|q l IH]; intros Hnd Hp; [by apply elem_of_nil in Hp|].
  apply NoDup_cons in Hnd as [Hq Hnd].
  destruct (decide (q = p)) as [->|Hne].
  - rewrite unlink_cons_eq, unlink_absent by done. done.
  - rewrite unlink_cons_ne by done. simpl.
    rewrite IH; [lia|done|].
    apply elem_of_cons in Hp as [?|?]; [congruence|done].
Qed.

Lemma sum_list_with_agree (f g : ptr → nat) l :
  (∀ q, q ∈ l → f q = g q) → sum_list_with f l = sum_list_with g l.
Proof.
  induction l as [|q l IH]; intros H; [done|]. simpl.
  rewrite (H q) by left. rewrite IH; [done|]. intros; apply H. by right.
Qed.

Lemma eb32_next_elem l p q : eb32_next l p = Some q → q ∈ l.
Proof.
  induction l as [|x l IH]; simpl; [done|].
  destruct (decide (x = p)).
  - destruct l; simpl; [done|]. intros [= ->]. right; left.
  - intros H. right. by apply IH.
Qed.

Lemma eb32_next_ne l p q : NoDup l → eb32_next l p = Some q → q ≠ p.
Proof.
  induction l as [|x l IH]; simpl; [done|].
  intros [Hx Hnd]%NoDup_cons. destruct (decide (x = p)) as [->|Hne].
  - destruct l; simpl; [done|]. intros [= ->] ->. apply Hx. left.
  - by apply IH.
Qed.

Lemma eb32_place_perm m l p : eb32_place m l p ≡ₚ p :: l.
Proof.
  induction l as [|q l IH]; simpl; [done|].
  destruct (_ <? _); [done|]. rewrite IH. apply Permutation_swap.
Qed.

Lemma elem_of_eb32_place m l p q : q ∈ eb32_place m l p ↔ q = p ∨ q ∈ l.
Proof. rewrite eb32_place_perm. apply elem_of_cons. Qed.

Lemma eb32_lookup_ge_elem m l x p : eb32_lookup_ge m l x = Some p → p ∈ l.
Proof.
  induction l as [|q l IH]; simpl; [done|].
  destruct (_ <=? _); [intros [= ->]; left | intros; right; auto].
Qed.

Lemma scan_pick_elem t eb p : cursor_ok t eb → scan_pick t eb = Some p → p ∈ exps t.
Proof.
  intros Hc. destruct eb as [q|]; simpl.
  - intros [= ->]. by apply Hc.
  - unfold eb32_first. destruct (exps t); simpl; [done|]. intros [= ->]. left.
Qed.

Lemma scan_pick_none t eb : scan_pick t eb = None → eb = None ∧ exps t = [].
Proof.
  destruct eb; simpl; [done|]. unfold eb32_first. by destruct (exps t).
Qed.

(** ** Reading the table after a tree operation *)

Lemma deref_eb32_delete ts t q :
  deref (eb32_delete ts t) q =
  if decide (q = ts) then with_exps_leaf_p false (deref t ts) else deref t q.
Proof. unfold eb32_delete. by rewrite deref_poke. Qed.

Lemma deref_eb32_insert ts t q :
  deref (eb32_insert ts t) q =
  if decide (q = ts) then with_exps_leaf_p true (deref t ts) else deref t q.
Proof. unfold eb32_insert. by rewrite deref_poke. Qed.

Lemma deref_ebmb_delete ts t q :
  deref (ebmb_delete ts t) q =
  if decide (q = ts) then with_keys_leaf_p false (deref t ts) else deref t q.
Proof. unfold ebmb_delete. by rewrite deref_poke. Qed.

Lemma deref_ebmb_insert ts t q :
  deref (ebmb_insert ts t) q =
  if decide (q = ts) then with_keys_leaf_p true (deref t ts) else deref t q.
Proof. unfold ebmb_insert. by rewrite deref_poke. Qed.

Lemma deref_stksess_free t ts q : deref (stksess_free t ts) q = deref t q.
Proof. done. Qed.

Lemma deref_with_exp_next_task v t q : deref (with_exp_next_task v t) q = deref t q.
Proof. done. Qed.

Lemma deref_with_exp_next v t q : deref (with_exp_next v t) q = deref t q.
Proof. done. Qed.

Lemma deref_with_current v t q : deref (with_current v t) q = deref t q.
Proof. done. Qed.

Lemma deref_with_pool v t q : deref (with_pool v t) q = deref t q.
Proof. done. Qed.

Ltac deref_simpl :=
  repeat first
    [ rewrite deref_eb32_delete | rewrite deref_eb32_insert
    | rewrite deref_ebmb_delete | rewrite deref_ebmb_insert
    | rewrite deref_stksess_free | rewrite deref_with_exp_next_task
    | rewrite deref_with_exp_next | rewrite deref_with_current
    | rewrite deref_with_pool | rewrite deref_poke ];
  repeat case_decide; subst; simpl; try done.

(** The branches of a turn of a scan, named. *)
Lemma trash_oldest_body_cases t eb b t' eb' b' v :
  trash_oldest_body t eb b = Some (t', eb', b', v) →
  ∃ ts, scan_pick t eb = Some ts ∧
    let e := deref t ts in
    let nx := eb32_next (exps t) ts in
    let t1 := eb32_delete ts t in
    (ts_expire e ≠ exps_key e ∧ ts_expire e = 0 ∧
       t' = t1 ∧ eb' = nx ∧ b' = b ∧ v = (ts, Dropped))
    ∨ (ts_expire e ≠ exps_key e ∧ ts_expire e ≠ 0 ∧
       let t3 := eb32_insert ts (poke ts (with_exps_key (ts_expire e)) t1) in
       t' = t3 ∧ eb' = scan_resume t3 nx ts ∧ b' = b ∧ v = (ts, Restamped))
    ∨ (ts_expire e = exps_key e ∧
       t' = stksess_free (ebmb_delete ts t1) ts ∧ eb' = nx ∧
       b' = b + 1 ∧ v = (ts, Trashed)).
Proof.
  unfold trash_oldest_body. destruct (scan_pick t eb) as [ts|]; [|done].
  intros H. exists ts. split; [done|]. simpl.
  rewrite !deref_eb32_delete in H. rewrite decide_True in H by done.
  simpl in H. unfold tick_isset in H.
  destruct (Z.eqb_spec (ts_expire (deref t ts)) (exps_key (deref t ts))) as [He|He];
    simpl in H.
  - right; right. by simplify_eq.
  - destruct (Z.eqb_spec (ts_expire (deref t ts)) 0) as [Hz|Hz]; simpl in H.
    + left. by simplify_eq.
    + right; left. by simplify_eq.
Qed.

Lemma cursor_ok_next t ts :
  NoDup (exps t) → cursor_ok (eb32_delete ts t) (eb32_next (exps t) ts).
Proof.
  intros Hnd q Hq. simpl. apply elem_of_unlink. split.
  - by eapply eb32_next_ne.
  - by eapply eb32_next_elem.
Qed.

Lemma cursor_ok_resume t (l : list ptr) ts eb :
  (∀ q, eb = Some q → q ∈ l) → ts ∈ exps t → (∀ q, q ∈ l → q ∈ exps t) →
  cursor_ok t (scan_resume t eb ts).
Proof.
  intros Heb Hts Hl q. unfold scan_resume. destruct eb as [e|].
  - destruct (_ >? _); intros [= <-]; auto.
  - intros [= <-]; auto.
Qed.

Lemma trash_oldest_body_measure t eb b t' eb' b' v :
  NoDup (exps t) → cursor_ok t eb →
  trash_oldest_body t eb b = Some (t', eb', b', v) →
  NoDup (exps t') ∧ cursor_ok t' eb' ∧ (oldest_measure t' < oldest_measure t)%nat.
Proof.
  intros Hnd Hc Hb.
  apply trash_oldest_body_cases in Hb as (ts & Hts & Hb). simpl in Hb.
  apply (scan_pick_elem _ _ _ Hc) in Hts.
  unfold oldest_measure at 2.
  rewrite (sum_unlink _ ts) by done.
  assert (Hw : (1 ≤ oldest_weight t ts)%nat)
    by (unfold oldest_weight; destruct (_ =? _); lia).
  assert (Hrest : ∀ t2, exps t2 = unlink ts (exps t) →
            (∀ q, q ≠ ts → ts_expire (deref t2 q) = ts_expire (deref t q)
                        ∧ exps_key (deref t2 q) = exps_key (deref t q)) →
            oldest_measure t2 = sum_list_with (oldest_weight t) (unlink ts (exps t))).
  { intros t2 He Hm. unfold oldest_measure. rewrite He.
    apply sum_list_with_agree. intros q [Hq _]%elem_of_unlink.
    unfold oldest_weight. by destruct (Hm q Hq) as [-> ->]. }
  destruct Hb as [(Hne & Hz & -> & -> & -> & ->)
                 |[(Hne & Hz & -> & -> & -> & ->)
                 |(He & -> & -> & -> & ->)]].
  - split; [by apply NoDup_unlink|]. split; [by apply cursor_ok_next|].
    rewrite Hrest; [lia|done|]. intros q Hq. by deref_simpl.
  - simpl. split.
    { rewrite eb32_place_perm. apply NoDup_cons. split;
        [apply not_elem_of_unlink | by apply NoDup_unlink]. }
    split.
    { apply cursor_ok_resume with (l := unlink ts (exps t)).
      - apply cursor_ok_next; done.
      - simpl. apply elem_of_eb32_place. by left.
      - intros q Hq. simpl. apply elem_of_eb32_place. by right. }
    unfold oldest_measure; simpl. rewrite eb32_place_perm. simpl.
    assert (Hts1 : oldest_weight
              (eb32_insert ts (poke ts (with_exps_key (ts_expire (deref t ts)))
                 (eb32_delete ts t))) ts = 1%nat).
    { unfold oldest_weight. deref_simpl. by rewrite Z.eqb_refl. }
    assert (Hts2 : oldest_weight t ts = 2%nat).
    { unfold oldest_weight. by destruct (Z.eqb_spec (ts_expire (deref t ts))
                                           (exps_key (deref t ts))). }
    unfold eb32_insert at 1. simpl.
    change (poke ts (with_exps_leaf_p true) _) with
      (eb32_insert ts (poke ts (with_exps_key (ts_expire (deref t ts)))
                 (eb32_delete ts t))).
    rewrite Hts1, Hts2.
    erewrite (sum_list_with_agree _ (oldest_weight t)); [lia|].
    intros q [Hq _]%elem_of_unlink. unfold oldest_weight. by deref_simpl.
  - split; [by apply NoDup_unlink|]. split; [by apply cursor_ok_next|].
    rewrite Hrest; [lia|done|]. intros q Hq. by deref_simpl.
Qed.

Lemma trash_oldest_loop_run fuel t eb tb b t' n vs :
  trash_oldest_loop fuel t eb tb b = Some (t', n, vs) → oldest_run tb t eb b t' n vs.
Proof.
  revert t eb b vs. induction fuel as [|fuel IH]; intros t eb b vs; simpl.
  - destruct (Z.ltb_spec b tb); [done|]. intros [= <- <- <-]. constructor; lia.
  - destruct (Z.ltb_spec b tb) as [Hlt|Hge].
    + destruct (trash_oldest_body t eb b) as [[[[t1 eb1] b1] v]|] eqn:Hb.
      * destruct (trash_oldest_loop fuel t1 eb1 tb b1) as [[[t2 n2] vs2]|] eqn:Hl;
          [|done].
        intros [= <- <- <-]. eapply oldest_run_turn; eauto.
      * intros [= <- <- <-]. by apply oldest_run_break.
    + intros [= <- <- <-]. constructor; lia.
Qed.

Lemma trash_oldest_loop_fuel fuel t eb tb b :
  NoDup (exps t) → cursor_ok t eb → (oldest_measure t < fuel)%nat →
  is_Some (trash_oldest_loop fuel t eb tb b).
Proof.
  revert t eb b. induction fuel as [|fuel IH]; intros t eb b Hnd Hc Hm; [lia|].
  simpl. destruct (b <? tb); [|done].
  destruct (trash_oldest_body t eb b) as [[[[t1 eb1] b1] v]|] eqn:Hb; [|done].
  destruct (trash_oldest_body_measure _ _ _ _ _ _ _ Hnd Hc Hb) as (Hnd1 & Hc1 & Hm1).
  destruct (IH t1 eb1 b1) as [[[t2 n2] vs2] ->]; [done|done|lia|done].
Qed.

Lemma oldest_measure_bound t : (oldest_measure t ≤ 2 * length (exps t))%nat.
Proof.
  unfold oldest_measure. induction (exps t) as [|p l IH]; simpl; [lia|].
  unfold oldest_weight at 1. destruct (_ =? _); lia.
Qed.

Lemma cursor_ok_lookup_ge t x : cursor_ok t (eb32_lookup_ge (mem t) (exps t) x).
Proof. intros p Hp. by eapply eb32_lookup_ge_elem. Qed.

(** The eviction scan returns: the fuel it is given is enough. *)
Lemma trash_oldest_scan_total t tb now :
  NoDup (exps t) → is_Some (trash_oldest_scan t tb now).
Proof.
  intros Hnd. unfold trash_oldest_scan. apply trash_oldest_loop_fuel; [done| |].
  - apply cursor_ok_lookup_ge.
  - pose proof (oldest_measure_bound t). lia.
Qed.

Lemma stktable_trash_oldest_total t tb now :
  NoDup (exps t) → is_Some (stktable_trash_oldest t tb now).
Proof.
  intros Hnd. unfold stktable_trash_oldest.
  by destruct (trash_oldest_scan_total t tb now Hnd) as [[[t' n] vs] ->].
Qed.

Lemma stktable_trash_oldest_run t tb now t' n :
  stktable_trash_oldest t tb now = Some (t', n) →
  ∃ vs, oldest_run tb t (eb32_lookup_ge (mem t) (exps t) (u32 (now - TIMER_LOOK_BACK)))
          0 t' n vs.
Proof.
  unfold stktable_trash_oldest, trash_oldest_scan.
  destruct (trash_oldest_loop _ _ _ _ _) as [[[t1 n1] vs]|] eqn:Hl; [|done].
  intros [= <- <-]. exists vs. by eapply trash_oldest_loop_run.
Qed.

(** The same for the expiration sweep. *)
Lemma trash_expired_body_cases t eb now :
  match trash_expired_body t eb now with
  | TurnBreak => eb = None ∧ exps t = []
  | TurnReturn t' =>
      ∃ ts, scan_pick t eb = Some ts ∧
        tick_is_lt now (exps_key (deref t ts)) = true ∧
        t' = with_exp_next (exps_key (deref t ts)) t
  | TurnNext t' eb' v =>
      ∃ ts, scan_pick t eb = Some ts ∧
        tick_is_lt now (exps_key (deref t ts)) = false ∧
        let e := deref t ts in
        let nx := eb32_next (exps t) ts in
        let t1 := eb32_delete ts t in
        (tick_is_expired (ts_expire e) now = false ∧ ts_expire e = 0 ∧
           t' = t1 ∧ eb' = nx ∧ v = (ts, Dropped))
        ∨ (tick_is_expired (ts_expire e) now = false ∧ ts_expire e ≠ 0 ∧
           let t3 := eb32_insert ts (poke ts (with_exps_key (ts_expire e)) t1) in
           t' = t3 ∧ eb' = scan_resume t3 nx ts ∧ v = (ts, Restamped))
        ∨ (tick_is_expired (ts_expire e) now = true ∧
           t' = stksess_free (ebmb_delete ts t1) ts ∧ eb' = nx ∧ v = (ts, Trashed))
  end.
Proof.
  unfold trash_expired_body.
  destruct (scan_pick t eb) as [ts|] eqn:Hp; [|by apply scan_pick_none].
  destruct (tick_is_lt now (exps_key (deref t ts))) eqn:Hlt; [by exists ts|].
  rewrite !deref_eb32_delete, decide_True by done. simpl.
  destruct (tick_is_expired (ts_expire (deref t ts)) now) eqn:He; simpl.
  - exists ts. do 2 (split; [done|]). simpl. right; right. by rewrite He.
  - unfold tick_isset.
    destruct (Z.eqb_spec (ts_expire (deref t ts)) 0) as [Hz|Hz]; simpl;
      exists ts; (do 2 (split; [done|])); simpl; rewrite He; [left|right; left]; done.
Qed.

(** ** Tick arithmetic *)

Lemma s32_flip x y : 0 < s32 (x - y) → s32 (y - x) < 0.
Proof.
  unfold s32. change (2 ^ 32) with 4294967296. change (2 ^ 31) with 2147483648.
  destruct (Z.ltb_spec ((x - y) mod 4294967296) 2147483648);
    destruct (Z.ltb_spec ((y - x) mod 4294967296) 2147483648);
    Z.div_mod_to_equations; lia.
Qed.

(** A date that has not expired is later than [now]. *)
Lemma tick_not_expired_lt timer now :
  tick_is_expired timer now = false → timer ≠ 0 → tick_is_lt now timer = true.
Proof.
  unfold tick_is_expired, tick_is_lt, tick_isset. intros H Hz.
  destruct (Z.eqb_spec timer 0); [done|]. simpl in H.
  destruct (Z.leb_spec (s32 (timer - now)) 0); [done|].
  apply Z.ltb_lt. by apply s32_flip.
Qed.

Lemma trash_expired_body_measure now t eb t' eb' v :
  NoDup (exps t) → cursor_ok t eb →
  trash_expired_body t eb now = TurnNext t' eb' v →
  NoDup (exps t') ∧ cursor_ok t' eb' ∧
  (expired_measure now t' < expired_measure now t)%nat.
Proof.
  intros Hnd Hc Hb.
  pose proof (trash_expired_body_cases t eb now) as Hcs. rewrite Hb in Hcs.
  destruct Hcs as (ts & Hts & Hlt & Hcs). simpl in Hcs.
  apply (scan_pick_elem _ _ _ Hc) in Hts.
  unfold expired_measure at 2.
  rewrite (sum_unlink _ ts) by done.
  assert (Hw : expired_weight now t ts = 1%nat)
    by (unfold expired_weight; by rewrite Hlt).
  assert (Hrest : ∀ t2 : stktable,
            (∀ q, q ≠ ts → exps_key (deref t2 q) = exps_key (deref t q)) →
            sum_list_with (expired_weight now t2) (unlink ts (exps t)) =
            sum_list_with (expired_weight now t) (unlink ts (exps t))).
  { intros t2 Hm. apply sum_list_with_agree. intros q [Hq _]%elem_of_unlink.
    unfold expired_weight. by rewrite (Hm q Hq). }
  destruct Hcs as [(He & Hz & -> & -> & ->)
                  |[(He & Hz & -> & -> & ->)
                  |(He & -> & -> & ->)]].
  - split; [by apply NoDup_unlink|]. split; [by apply cursor_ok_next|].
    unfold expired_measure; simpl. rewrite Hrest; [lia|].
    intros q Hq. by deref_simpl.
  - simpl. split.
    { rewrite eb32_place_perm. apply NoDup_cons. split;
        [apply not_elem_of_unlink | by apply NoDup_unlink]. }
    split.
    { apply cursor_ok_resume with (l := unlink ts (exps t)).
      - apply cursor_ok_next; done.
      - simpl. apply elem_of_eb32_place. by left.
      - intros q Hq. simpl. apply elem_of_eb32_place. by right. }
    unfold expired_measure; simpl. rewrite eb32_place_perm. simpl.
    unfold eb32_insert at 1. simpl.
    change (poke ts (with_exps_leaf_p true) _) with
      (eb32_insert ts (poke ts (with_exps_key (ts_expire (deref t ts)))
                 (eb32_delete ts t))).
    rewrite Hrest by (intros q Hq; by deref_simpl).
    assert (Hts1 : expired_weight now
              (eb32_insert ts (poke ts (with_exps_key (ts_expire (deref t ts)))
                 (eb32_delete ts t))) ts = 0%nat).
    { unfold expired_weight. deref_simpl. by rewrite tick_not_expired_lt. }
    rewrite Hts1. lia.
  - split; [by apply NoDup_unlink|]. split; [by apply cursor_ok_next|].
    unfold expired_measure; simpl. rewrite Hrest; [lia|].
    intros q Hq. by deref_simpl.
Qed.

Lemma trash_expired_loop_run fuel t eb now t' r vs :
  trash_expired_loop fuel t eb now = Some (t', r, vs) → expired_run now t eb t' r vs.
Proof.
  revert t eb vs. induction fuel as [|fuel IH]; intros t eb vs; simpl; [done|].
  destruct (trash_expired_body t eb now) as [|t1|t1 eb1 v] eqn:Hb.
  - intros [= <- <- <-]. by apply expired_run_break.
  - intros [= <- <- <-]. by apply expired_run_return.
  - destruct (trash_expired_loop fuel t1 eb1 now) as [[[t2 r2] vs2]|] eqn:Hl; [|done].
    intros [= <- <- <-]. eapply expired_run_turn; eauto.
Qed.

Lemma trash_expired_loop_fuel fuel t eb now :
  NoDup (exps t) → cursor_ok t eb → (expired_measure now t < fuel)%nat →
  is_Some (trash_expired_loop fuel t eb now).
Proof.
  revert t eb. induction fuel as [|fuel IH]; intros t eb Hnd Hc Hm; [lia|].
  simpl. destruct (trash_expired_body t eb now) as [|t1|t1 eb1 v] eqn:Hb; [done|done|].
  destruct (trash_expired_body_measure _ _ _ _ _ _ Hnd Hc Hb) as (Hnd1 & Hc1 & Hm1).
  destruct (IH t1 eb1) as [[[t2 n2] vs2] ->]; [done|done|lia|done].
Qed.

Lemma expired_measure_bound now t : (expired_measure now t ≤ length (exps t))%nat.
Proof.
  unfold expired_measure. induction (exps t) as [|p l IH]; simpl; [lia|].
  unfold expired_weight at 1. destruct (tick_is_lt _ _); lia.
Qed.

Lemma trash_expired_scan_total t now :
  NoDup (exps t) → is_Some (trash_expired_scan t now).
Proof.
  intros Hnd. unfold trash_expired_scan. apply trash_expired_loop_fuel; [done| |].
  - apply cursor_ok_lookup_ge.
  - pose proof (expired_measure_bound now t). lia.
Qed.

Lemma stktable_trash_expired_run t now t' r :
  stktable_trash_expired t now = Some (t', r) →
  ∃ vs, expired_run now t
          (eb32_lookup_ge (mem t) (exps t) (u32 (now - TIMER_LOOK_BACK))) t' r vs.
Proof.
  unfold stktable_trash_expired, trash_expired_scan.
  destruct (trash_expired_loop _ _ _ _) as [[[t1 r1] vs]|] eqn:Hl; [|done].
  intros [= <- <-]. exists vs. by eapply trash_expired_loop_run.
Qed.

(** ** Allocation and release *)

Lemma stksess_new_alloc_some t k t' ts :
  stksess_new_alloc t k = (t', Some ts) →
  pool t = ts :: pool t' ∧ keys t' = keys t ∧ exps t' = exps t ∧
  current t' = u32 (current t + 1) ∧
  sid (deref t' ts) = 0 ∧
  keys_leaf_p (deref t' ts) = false ∧ exps_leaf_p (deref t' ts) = false ∧
  keys_key (deref t' ts) = keys_key (deref (stksess_key t ts k) ts) ∧
  ∀ q, q ≠ ts → deref t' q = deref t q.
Proof.
  unfold stksess_new_alloc, pool_alloc2.
  destruct (pool t) as [|p pl] eqn:Hp; [done|].
  intros [= <- <-]. unfold stksess_init, stksess_key.
  destruct (is_string (type t)) eqn:Hty; simpl; rewrite Hty; simpl;
    repeat split; try (by deref_simpl);
    intros; by deref_simpl.
Qed.

Lemma stksess_new_room_total t now :
  NoDup (exps t) → is_Some (stksess_new_room t now).
Proof.
  intros Hnd. unfold stksess_new_room.
  destruct (current t =? size t); [|done].
  destruct (negb (nopurge t =? 0)); [done|].
  by destruct (stktable_trash_oldest_total t (Z.shiftr (size t) 8) now Hnd)
    as [[t' n] ->].
Qed.

Lemma stksess_new_total t k now : NoDup (exps t) → is_Some (stksess_new t k now).
Proof.
  intros Hnd. unfold stksess_new.
  destruct (stksess_new_room_total t now Hnd) as [[ta [|]] ->]; done.
Qed.

(** C9.  [stksess_new] returns, and returns NULL exactly when (a) the
    table is full and [nopurge] is set, (b) the table is full and
    [stktable_trash_oldest] trashed nothing, or (c) [pool_alloc2] returns
    NULL.  On NULL the table is the one the test [current == size] left:
    the allocation wrote nothing, in particular into neither tree, and
    nothing was tried a second time. *)
Theorem stksess_new_null (t : stktable) (k : stktable_key) (now : Z) :
  NoDup (exps t) →
  ∃ t' r, stksess_new t k now = Some (t', r) ∧
    (r = None ↔
       (current t = size t ∧ nopurge t ≠ 0)
     ∨ (current t = size t ∧ nopurge t = 0 ∧
        ∃ tb, stktable_trash_oldest t (Z.shiftr (size t) 8) now = Some (tb, 0))
     ∨ (∃ ta, stksess_new_room t now = Some (ta, true) ∧
              pool_alloc2 (pool ta) = None)) ∧
    (r = None →
       (∃ go, stksess_new_room t now = Some (t', go)) ∧
       (current t ≠ size t ∨ nopurge t ≠ 0 → t' = t)).
Proof.
  intros Hnd.
  destruct (stksess_new_room_total t now Hnd) as [[ta go] Hroom].
  unfold stksess_new. rewrite Hroom.
  assert (Hunchanged : current t ≠ size t ∨ nopurge t ≠ 0 → ta = t).
  { unfold stksess_new_room in Hroom. intros [Hc|Hp].
    - apply Z.eqb_neq in Hc. rewrite Hc in Hroom. by simplify_eq.
    - apply Z.eqb_neq in Hp. rewrite Hp in Hroom. simpl in Hroom.
      destruct (current t =? size t); by simplify_eq. }
  assert (Hgo : go = false ↔
            (current t = size t ∧ nopurge t ≠ 0)
          ∨ (current t = size t ∧ nopurge t = 0 ∧
             ∃ tb, stktable_trash_oldest t (Z.shiftr (size t) 8) now = Some (tb, 0))).
  { unfold stksess_new_room in Hroom.
    destruct (Z.eqb_spec (current t) (size t)) as [Hc|Hc].
    - destruct (Z.eqb_spec (nopurge t) 0) as [Hp|Hp]; simpl in Hroom.
      + destruct (stktable_trash_oldest t _ now) as [[tb n]|] eqn:Ht; [|done].
        injection Hroom as <- <-.
        destruct (Z.eqb_spec n 0) as [->|Hn]; simpl.
        * split; [|done]. intros _. right. eauto.
        * split; [done|]. intros [[_ ?]|(_ & _ & tb' & [= _ ?])]; done.
      + injection Hroom as <- <-. split; [|done]. intros _. by left.
    - injection Hroom as <- <-. split; [done|]. intros [[? _]|[? _]]; done. }
  destruct go.
  - unfold stksess_new_alloc.
    destruct (pool_alloc2 (pool ta)) as [[ts pl]|] eqn:Hp.
    + eexists _, _. split; [done|]. split; [|done]. split; [done|].
      intros [H|[H|(ta' & [= <-] & Hp')]].
      * assert (true = false) by (apply Hgo; by left). done.
      * assert (true = false) by (apply Hgo; by right). done.
      * by rewrite Hp in Hp'.
    + exists ta, None. split; [done|]. split.
      * split; [|done]. intros _. right; right. by exists ta.
      * intros _. split; [by exists true | done].
  - exists ta, None. split; [done|]. split.
    + split; [|done]. intros _.
      destruct (proj1 Hgo eq_refl) as [H|H]; [by left | by right; left].
    + intros _. split; [by exists false | done].
Qed.

Lemma stksess_new_null_witness :
  ∃ t' r, stksess_new (with_pool [] scenario_empty) alice 100 = Some (t', r) ∧
    (r = None ↔
       (current (with_pool [] scenario_empty) = size (with_pool [] scenario_empty)
        ∧ nopurge (with_pool [] scenario_empty) ≠ 0)
     ∨ (current (with_pool [] scenario_empty) = size (with_pool [] scenario_empty)
        ∧ nopurge (with_pool [] scenario_empty) = 0 ∧
        ∃ tb, stktable_trash_oldest (with_pool [] scenario_empty)
                (Z.shiftr (size (with_pool [] scenario_empty)) 8) 100 = Some (tb, 0))
     ∨ (∃ ta, stksess_new_room (with_pool [] scenario_empty) 100 = Some (ta, true) ∧
              pool_alloc2 (pool ta) = None)) ∧
    (r = None →
       (∃ go, stksess_new_room (with_pool [] scenario_empty) 100 = Some (t', go)) ∧
       (current (with_pool [] scenario_empty) ≠ size (with_pool [] scenario_empty)
        ∨ nopurge (with_pool [] scenario_empty) ≠ 0 → t' = with_pool [] scenario_empty)).
Proof.
  apply (stksess_new_null (with_pool [] scenario_empty) alice 100).
  apply NoDup_nil_2.
Defined.

(** An eviction scan trashes at most [to_batch] sessions, and counts the
    sessions it trashes. *)
Lemma oldest_run_bounded tb t eb b t' n vs :
  oldest_run tb t eb b t' n vs →
  b ≤ n ∧ n ≤ Z.max b tb ∧ n = b + Z.of_nat (length (trashed vs)).
Proof.
  induction 1 as [t eb b Hb|t eb b Hb Hbody
                 |t eb b t1 eb1 b1 v t' n vs Hb Hbody Hrun IH]; simpl; [lia|lia|].
  apply trash_oldest_body_cases in Hbody as (ts & _ & Hcs). simpl in Hcs.
  destruct Hcs as [(_ & _ & _ & _ & -> & ->)
                  |[(_ & _ & _ & _ & -> & ->)
                  |(_ & _ & _ & -> & ->)]]; simpl; lia.
Qed.

Lemma trash_oldest_scan_bounded t tb now t' n vs :
  trash_oldest_scan t tb now = Some (t', n, vs) →
  0 ≤ n ∧ n ≤ Z.max 0 tb ∧ n = Z.of_nat (length (trashed vs)).
Proof.
  unfold trash_oldest_scan. intros Hrun%trash_oldest_loop_run.
  apply oldest_run_bounded in Hrun. lia.
Qed.

(** C2.  On a full table of fewer than 256 sessions with [nopurge] unset,
    the batch [size >> 8] is 0: [stktable_trash_oldest] trashes nothing
    and [stksess_new] returns NULL, the table unchanged, whatever the
    expiration tree holds. *)
Theorem stksess_new_small_table_full (t : stktable) (k : stktable_key) (now : Z) :
  0 ≤ size t < 256 → current t = size t → nopurge t = 0 →
  stktable_trash_oldest t (Z.shiftr (size t) 8) now = Some (t, 0)
  ∧ stksess_new t k now = Some (t, None).
Proof.
  intros Hs Hc Hp.
  assert (Hb : Z.shiftr (size t) 8 = 0).
  { rewrite Z.shiftr_div_pow2 by lia. apply Z.div_small. lia. }
  assert (Ht : stktable_trash_oldest t (Z.shiftr (size t) 8) now = Some (t, 0)).
  { rewrite Hb. unfold stktable_trash_oldest, trash_oldest_scan.
    by destruct (2 * length (exps t) + 1)%nat. }
  split; [done|].
  unfold stksess_new, stksess_new_room.
  by rewrite Hc, Z.eqb_refl, Hp, Ht.
Qed.

Lemma stksess_new_small_table_full_witness :
  stktable_trash_oldest scenario_full (Z.shiftr (size scenario_full) 8) 400
    = Some (scenario_full, 0)
  ∧ stksess_new scenario_full carol 400 = Some (scenario_full, None).
Proof.
  apply (stksess_new_small_table_full scenario_full carol 400);
    [simpl; lia | reflexivity | reflexivity].
Defined.

(** A batch of one would have trashed the oldest session of that table. *)
Example scenario_full_evictable :
  ∃ t', stktable_trash_oldest scenario_full 1 400 = Some (t', 1)
        ∧ keys t' = [2%nat] ∧ exps t' = [2%nat] ∧ current t' = 1.
Proof. eexists. split; [by vm_compute|]. by vm_compute. Qed.

(** ** The invariant of reachable tables *)

Lemma unlink_perm p (l : list ptr) : NoDup l → p ∈ l → l ≡ₚ p :: unlink p l.
Proof.
  induction l as [|q l IH]; intros Hnd Hp; [by apply elem_of_nil in Hp|].
  apply NoDup_cons in Hnd as [Hq Hnd].
  destruct (decide (q = p)) as [->|Hne].
  - by rewrite unlink_cons_eq, unlink_absent.
  - rewrite unlink_cons_ne by done.
    apply elem_of_cons in Hp as [?|Hp]; [congruence|].
    rewrite (IH Hnd Hp) at 1. apply Permutation_swap.
Qed.

Lemma unlink_length p (l : list ptr) :
  NoDup l → p ∈ l → length l = S (length (unlink p l)).
Proof. intros Hnd Hp. by rewrite (unlink_perm p l Hnd Hp) at 1. Qed.

Lemma eb_find_none f l : eb_find f l = None → ∀ p, p ∈ l → f p = false.
Proof.
  induction l as [|q l IH]; simpl; intros H p Hp; [by apply elem_of_nil in Hp|].
  destruct (f q) eqn:Hq; [done|].
  apply elem_of_cons in Hp as [->|Hp]; auto.
Qed.

Lemma eb_find_some f l p : eb_find f l = Some p → p ∈ l ∧ f p = true.
Proof.
  induction l as [|q l IH]; simpl; [done|].
  destruct (f q) eqn:Hq.
  - intros [= ->]. split; [left|done].
  - intros H. destruct (IH H). split; [by right|done].
Qed.

Lemma eb_find_exists f l p : p ∈ l → f p = true → is_Some (eb_find f l).
Proof.
  induction l as [|q l IH]; simpl; intros Hp Hf; [by apply elem_of_nil in Hp|].
  destruct (f q) eqn:Hq; [done|].
  apply elem_of_cons in Hp as [->|Hp]; [congruence|auto].
Qed.

Lemma store_lookup_none t ts :
  store_lookup t ts = None → ∀ p, p ∈ keys t → stored_key t p ≠ stored_key t ts.
Proof.
  unfold store_lookup, stored_key, ebst_lookup, ebmb_lookup, deref.
  destruct (is_string (type t)); intros H p Hp Heq;
    apply (eb_find_none _ _ H) in Hp; by apply bool_decide_eq_false in Hp.
Qed.

Lemma store_lookup_some t ts e :
  store_lookup t ts = Some e → e ∈ keys t ∧ stored_key t e = stored_key t ts.
Proof.
  unfold store_lookup, stored_key, ebst_lookup, ebmb_lookup, deref.
  destruct (is_string (type t)); intros [H1 H2]%eb_find_some;
    by apply bool_decide_eq_true in H2.
Qed.

Lemma store_lookup_exists t ts p :
  p ∈ keys t → stored_key t p = stored_key t ts → is_Some (store_lookup t ts).
Proof.
  unfold store_lookup, stored_key, ebst_lookup, ebmb_lookup, deref.
  destruct (is_string (type t)); intros Hp Hk;
    apply (eb_find_exists _ _ p Hp); by apply bool_decide_eq_true.
Qed.

Lemma stored_key_frame t t' p :
  type t' = type t → key_size t' = key_size t →
  keys_key (deref t' p) = keys_key (deref t p) →
  stored_key t' p = stored_key t p.
Proof. unfold stored_key. by intros -> -> ->. Qed.

Lemma table_inv_owned_keys owned t p :
  table_inv owned t → p ∈ owned → (p ∉ keys t) ∧ (p ∉ exps t) ∧ (p ∉ pool t).
Proof.
  intros Hi Hp. pose proof (inv_slots _ _ Hi) as Hnd.
  apply NoDup_app in Hnd as (_ & Hd & _). specialize (Hd p Hp).
  rewrite elem_of_app in Hd. rewrite <- (inv_both _ _ Hi). tauto.
Qed.

(** Trashing a node of [exps] keeps the invariant. *)
Lemma table_inv_trash owned t ts :
  table_inv owned t → ts ∈ exps t →
  table_inv owned (stksess_free (ebmb_delete ts (eb32_delete ts t)) ts)
  ∧ current (stksess_free (ebmb_delete ts (eb32_delete ts t)) ts) = current t - 1.
Proof.
  intros Hi Hts.
  assert (Htk : ts ∈ keys t) by (by apply (inv_both _ _ Hi)).
  pose proof (inv_slots _ _ Hi) as Hnd.
  assert (Hndk : NoDup (keys t)).
  { apply NoDup_app in Hnd as (_ & _ & Hnd). by apply NoDup_app in Hnd as (? & _). }
  pose proof (unlink_length ts (keys t) Hndk Htk) as Hlen.
  assert (Hcur : u32 (current t - 1) = current t - 1).
  { unfold u32. apply Z.mod_small.
    pose proof (inv_current _ _ Hi). pose proof (inv_bound _ _ Hi).
    pose proof (inv_size _ _ Hi). lia. }
  split; [|done]. constructor; simpl.
  - rewrite (unlink_perm ts (keys t) Hndk Htk) in Hnd.
    unfold pool_free2. by rewrite <- Permutation_middle.
  - apply NoDup_unlink, (inv_exps _ _ Hi).
  - intros p. rewrite !elem_of_unlink, (inv_both _ _ Hi). tauto.
  - rewrite Hcur, (inv_current _ _ Hi). lia.
  - rewrite Hcur. pose proof (inv_bound _ _ Hi). lia.
  - apply (inv_size _ _ Hi).
  - intros p [Hp Hpe]%elem_of_unlink.
    destruct (inv_sync _ _ Hi p Hpe). by deref_simpl.
  - intros p q [Hp Hpk]%elem_of_unlink [Hq Hqk]%elem_of_unlink Hk.
    apply (inv_unique _ _ Hi p q Hpk Hqk).
    rewrite (stored_key_frame t _ p), (stored_key_frame t _ q) in Hk;
      [done | done | done | by deref_simpl | done | done | by deref_simpl].
Qed.

(** A change of the deadline fields alone keeps the invariant. *)
Lemma table_inv_meta owned t t' :
  keys t' = keys t → exps t' = exps t → pool t' = pool t →
  current t' = current t → size t' = size t → type t' = type t →
  key_size t' = key_size t → mem t' = mem t →
  table_inv owned t → table_inv owned t'.
Proof.
  intros Hk He Hp Hc Hs Hty Hks Hm [].
  assert (Hd : ∀ p, deref t' p = deref t p) by (intros; unfold deref; by rewrite Hm).
  assert (Hsk : ∀ p, stored_key t' p = stored_key t p)
    by (intros; unfold stored_key; by rewrite Hty, Hks, Hd).
  constructor; rewrite ?Hk, ?He, ?Hp, ?Hc, ?Hs; try done.
  - intros p. rewrite Hd. auto.
  - intros p q. rewrite !Hsk. auto.
Qed.

Lemma oldest_run_config tb t eb b t' n vs :
  oldest_run tb t eb b t' n vs → same_config t t'.
Proof.
  induction 1 as [| |t eb b t1 eb1 b1 v t' n vs Hb Hbody Hrun IH]; [done|done|].
  apply trash_oldest_body_cases in Hbody as (ts & _ & Hcs). simpl in Hcs.
  by destruct Hcs as [(_ & _ & -> & _)|[(_ & _ & -> & _)|(_ & -> & _)]].
Qed.

Lemma expired_run_config now t eb t' r vs :
  expired_run now t eb t' r vs → same_config t t'.
Proof.
  induction 1 as [t eb Hbody|t eb t' Hbody|t eb t1 eb1 v t' r vs Hbody Hrun IH].
  - done.
  - pose proof (trash_expired_body_cases t eb now) as Hcs. rewrite Hbody in Hcs.
    by destruct Hcs as (ts & _ & _ & ->).
  - pose proof (trash_expired_body_cases t eb now) as Hcs. rewrite Hbody in Hcs.
    destruct Hcs as (ts & _ & _ & Hcs). simpl in Hcs.
    by destruct Hcs as [(_ & _ & -> & _)|[(_ & _ & -> & _)|(_ & -> & _)]].
Qed.

Lemma oldest_run_inv owned tb t eb b t' n vs :
  oldest_run tb t eb b t' n vs → table_inv owned t → cursor_ok t eb →
  table_inv owned t' ∧ current t' = current t - (n - b) ∧ b ≤ n
  ∧ Forall (λ v : visit, v.2 = Trashed) vs.
Proof.
  induction 1 as [t eb b Hb|t eb b Hb Hbody
                 |t eb b t1 eb1 b1 v t' n vs Hb Hbody Hrun IH]; intros Hi Hc.
  - split_and!; [done|lia|lia|constructor].
  - split_and!; [done|lia|lia|constructor].
  - destruct (trash_oldest_body_measure _ _ _ _ _ _ _ (inv_exps _ _ Hi) Hc Hbody)
      as (_ & Hc1 & _).
    apply trash_oldest_body_cases in Hbody as (ts & Hts & Hcs). simpl in Hcs.
    apply (scan_pick_elem _ _ _ Hc) in Hts.
    destruct (inv_sync _ _ Hi ts Hts) as [Hsy Hnz].
    destruct Hcs as [(Hne & _)|[(Hne & _)|(_ & -> & -> & -> & ->)]]; [done|done|].
    destruct (table_inv_trash owned t ts Hi Hts) as [Hi1 Hcur].
    destruct (IH Hi1 Hc1) as (Hi' & Hcur' & Hle & Hvs).
    split_and!; [done|lia|lia|by constructor].
Qed.

Lemma expired_run_inv owned now t eb t' r vs :
  expired_run now t eb t' r vs → table_inv owned t → cursor_ok t eb →
  table_inv owned t' ∧ current t' ≤ current t
  ∧ Forall (λ v : visit, v.2 = Trashed) vs.
Proof.
  induction 1 as [t eb Hbody|t eb t' Hbody|t eb t1 eb1 v t' r vs Hbody Hrun IH];
    intros Hi Hc.
  - split_and!; [|done|constructor]. by apply (table_inv_meta owned t).
  - pose proof (trash_expired_body_cases t eb now) as Hcs. rewrite Hbody in Hcs.
    destruct Hcs as (ts & _ & _ & ->).
    split_and!; [|done|constructor]. by apply (table_inv_meta owned t).
  - destruct (trash_expired_body_measure _ _ _ _ _ _ (inv_exps _ _ Hi) Hc Hbody)
      as (_ & Hc1 & _).
    pose proof (trash_expired_body_cases t eb now) as Hcs. rewrite Hbody in Hcs.
    destruct Hcs as (ts & Hts & Hlt & Hcs). simpl in Hcs.
    apply (scan_pick_elem _ _ _ Hc) in Hts.
    destruct (inv_sync _ _ Hi ts Hts) as [Hsy Hnz].
    destruct Hcs as [(_ & Hz & _)|[(Hne & _)|(_ & -> & -> & ->)]]; [done| |].
    { rewrite Hsy in Hne, Hnz.
      by rewrite (tick_not_expired_lt _ _ Hne Hnz) in Hlt. }
    destruct (table_inv_trash owned t ts Hi Hts) as [Hi1 Hcur].
    destruct (IH Hi1 Hc1) as (Hi' & Hcur' & Hvs).
    split_and!; [done|lia|by constructor].
Qed.

Lemma trash_oldest_zero_batch t tb now :
  tb ≤ 0 → stktable_trash_oldest t tb now = Some (t, 0).
Proof.
  intros Hb. unfold stktable_trash_oldest, trash_oldest_scan.
  destruct (2 * length (exps t) + 1)%nat; simpl;
    by destruct (Z.ltb_spec 0 tb); [lia|].
Qed.

(** The test [current == size] of [stksess_new] leaves room for one more
    session when it lets the function go on. *)
Lemma stksess_new_room_inv owned t now ta go :
  table_inv owned t → stksess_new_room t now = Some (ta, go) →
  table_inv owned ta ∧ (go = true → current ta < size ta).
Proof.
  intros Hi. unfold stksess_new_room.
  destruct (Z.eqb_spec (current t) (size t)) as [Hc|Hc].
  - destruct (negb (nopurge t =? 0)); [by intros [= <- <-]|].
    destruct (stktable_trash_oldest t _ now) as [[t1 n]|] eqn:Ht; [|done].
    intros [= <- <-].
    apply stktable_trash_oldest_run in Ht as [vs Hrun].
    pose proof (oldest_run_config _ _ _ _ _ _ _ Hrun) as (Hsz & _).
    destruct (oldest_run_inv owned _ _ _ _ _ _ _ Hrun Hi (cursor_ok_lookup_ge _ _))
      as (Hi1 & Hcur & Hle & _).
    split; [done|]. intros Hn%negb_true_iff%Z.eqb_neq. lia.
  - intros [= <- <-]. split; [done|]. intros _.
    pose proof (inv_bound _ _ Hi). lia.
Qed.

Lemma stksess_new_alloc_inv owned t k t' r :
  table_inv owned t → current t < size t →
  stksess_new_alloc t k = (t', r) →
  table_inv (match r with Some ts => ts :: owned | None => owned end) t'.
Proof.
  intros Hi Hlt Ha. destruct r as [ts|].
  - pose proof Ha as Hts. unfold stksess_new_alloc, pool_alloc2 in Hts.
    destruct (pool t) as [|p pl] eqn:Hp; [done|]. injection Hts as Ht' <-.
    apply stksess_new_alloc_some in Ha
      as (_ & Hk & He & Hc & _ & _ & _ & _ & Hfr).
    pose proof (inv_slots _ _ Hi) as Hnd. rewrite Hp in Hnd.
    assert (Hpl : pool t' = pl) by (by rewrite <- Ht'; unfold stksess_init, stksess_key;
      destruct (is_string _)).
    assert (Hcfg : size t' = size t ∧ type t' = type t ∧ key_size t' = key_size t)
      by (by rewrite <- Ht'; unfold stksess_init, stksess_key; destruct (is_string _)).
    destruct Hcfg as (Hsz & Hty & Hks).
    assert (Hnk : p ∉ keys t).
    { intros Hin. rewrite (Permutation_app_comm owned), <- app_assoc in Hnd.
      apply NoDup_app in Hnd as (_ & Hd & _). apply (Hd p Hin).
      rewrite elem_of_app. left. left. }
    assert (Hcur : u32 (current t + 1) = current t + 1).
    { unfold u32. apply Z.mod_small. pose proof (inv_current _ _ Hi).
      pose proof (inv_size _ _ Hi). lia. }
    constructor; rewrite ?Hk, ?He, ?Hpl, ?Hc, ?Hcur, ?Hsz.
    + revert Hnd. apply NoDup_Permutation_proper.
      rewrite !app_assoc. by rewrite <- Permutation_middle.
    + apply (inv_exps _ _ Hi).
    + apply (inv_both _ _ Hi).
    + rewrite (inv_current _ _ Hi). simpl. lia.
    + lia.
    + apply (inv_size _ _ Hi).
    + intros q Hq. rewrite Hfr; [by apply (inv_sync _ _ Hi)|].
      intros ->. by apply Hnk, (inv_both _ _ Hi).
    + intros q1 q2 H1 H2.
      rewrite !(stored_key_frame t t'); [by apply (inv_unique _ _ Hi)|
        done|done| |done|done|]; rewrite Hfr; congruence.
  - unfold stksess_new_alloc in Ha.
    destruct (pool_alloc2 (pool t)) as [[ts pl]|]; by simplify_eq.
Qed.

Lemma stksess_new_inv owned t k now t' r :
  table_inv owned t → stksess_new t k now = Some (t', r) →
  table_inv (match r with Some ts => ts :: owned | None => owned end) t'.
Proof.
  intros Hi. unfold stksess_new.
  destruct (stksess_new_room t now) as [[ta go]|] eqn:Hroom; [|done].
  destruct (stksess_new_room_inv _ _ _ _ _ Hi Hroom) as [Hia Hlt].
  destruct go.
  - intros [= Ha]. apply (stksess_new_alloc_inv owned ta k); auto.
  - by intros [= <- <-].
Qed.

Lemma stksess_free_inv owned t ts :
  table_inv owned t → ts ∈ owned → table_inv (unlink ts owned) (stksess_free t ts).
Proof.
  intros Hi Hts. pose proof (inv_slots _ _ Hi) as Hnd.
  assert (Hndo : NoDup owned) by (by apply NoDup_app in Hnd as (? & _)).
  pose proof (unlink_length ts owned Hndo Hts) as Hlen.
  assert (Hcur : u32 (current t - 1) = current t - 1).
  { unfold u32. apply Z.mod_small.
    pose proof (inv_current _ _ Hi). pose proof (inv_bound _ _ Hi).
    pose proof (inv_size _ _ Hi). lia. }
  constructor; simpl; rewrite ?Hcur.
  - rewrite (unlink_perm ts owned Hndo Hts) in Hnd. unfold pool_free2.
    by rewrite app_assoc, <- Permutation_middle, <- app_assoc.
  - apply (inv_exps _ _ Hi).
  - apply (inv_both _ _ Hi).
  - rewrite (inv_current _ _ Hi). lia.
  - pose proof (inv_bound _ _ Hi). lia.
  - apply (inv_size _ _ Hi).
  - apply (inv_sync _ _ Hi).
  - apply (inv_unique _ _ Hi).
Qed.

(** ** [stktable_store] *)

Lemma tick_add_isset now timeout : tick_add now timeout ≠ 0.
Proof. unfold tick_add. by destruct (Z.eqb_spec (u32 (now + timeout)) 0). Qed.

Lemma eb32_place_agree m m' l p :
  (∀ q, exps_key (m !!! q) = exps_key (m' !!! q)) →
  eb32_place m l p = eb32_place m' l p.
Proof.
  intros H. induction l as [|q l IH]; simpl; [done|]. by rewrite IH, !H.
Qed.

Lemma exps_eb32_insert ts t :
  exps (eb32_insert ts t) = eb32_place (mem (eb32_insert ts t)) (exps t) ts.
Proof.
  unfold eb32_insert at 1. simpl. apply eb32_place_agree. intros q.
  change (exps_key (deref t q) = exps_key (deref (eb32_insert ts t) q)).
  by deref_simpl.
Qed.

(** The store of a session whose key is already in the table. *)
Lemma stktable_store_dup t ts s now e :
  store_lookup t ts = Some e →
  stktable_store t ts s now =
    (if negb (sid (deref t e) =? s) then poke e (with_sid s) t else t, 1).
Proof. unfold stktable_store. by intros ->. Qed.

Lemma deref_with_exps v t q : deref (with_exps v t) q = deref t q.
Proof. done. Qed.

Lemma deref_with_keys v t q : deref (with_keys v t) q = deref t q.
Proof. done. Qed.

(** The table [stktable_store] makes when the key is new, before it
    looks at the ttl. *)
Lemma store_insert_deref t ts s e :
  let t5 := eb32_insert ts (poke ts (with_exps_key e) (poke ts (with_expire e)
              (ebmb_insert ts (poke ts (with_sid s) t)))) in
  deref t5 ts = with_exps_leaf_p true (with_exps_key e (with_expire e
                  (with_keys_leaf_p true (with_sid s (deref t ts)))))
  ∧ ∀ q, q ≠ ts → deref t5 q = deref t q.
Proof.
  intros t5. subst t5. unfold eb32_insert, ebmb_insert. split.
  - by rewrite ?deref_poke_eq, ?deref_with_exps, ?deref_poke_eq, ?deref_with_keys,
      ?deref_poke_eq.
  - intros q Hq.
    by rewrite ?deref_poke_ne, ?deref_with_exps, ?deref_poke_ne, ?deref_with_keys,
      ?deref_poke_ne by done.
Qed.

Lemma stktable_store_new_eq t ts s now :
  store_lookup t ts = None →
  stktable_store t ts s now =
  (let e := tick_add now (MS_TO_TICKS (expire t)) in
   let t5 := eb32_insert ts (poke ts (with_exps_key e) (poke ts (with_expire e)
              (ebmb_insert ts (poke ts (with_sid s) t)))) in
   if negb (expire t =? 0) then
     with_exp_next_task (tick_first (ts_expire (deref t5 ts)) (exp_next t)) t5
   else t5, 0).
Proof. unfold stktable_store. intros ->. reflexivity. Qed.

Lemma stktable_store_new_aux t ts s e t5 t' r :
  deref t5 ts = with_exps_leaf_p true (with_exps_key e (with_expire e
                  (with_keys_leaf_p true (with_sid s (deref t ts))))) →
  (∀ q, q ≠ ts → deref t5 q = deref t q) →
  exps t5 = eb32_place (mem t5) (exps t) ts →
  keys t5 = ts :: keys t ∧ pool t5 = pool t ∧ current t5 = current t
    ∧ same_config t t5 ∧ exp_next t5 = exp_next t ∧ exp_task t5 = exp_task t →
  (if negb (expire t =? 0) then
     with_exp_next_task (tick_first (ts_expire (deref t5 ts)) (exp_next t)) t5
   else t5, 0) = (t', r) →
  r = 0 ∧ keys t' = ts :: keys t ∧
  exps t' = eb32_place (mem t') (exps t) ts ∧
  pool t' = pool t ∧ current t' = current t ∧ same_config t t' ∧
  sid (deref t' ts) = s ∧ ts_expire (deref t' ts) = e ∧ exps_key (deref t' ts) = e ∧
  keys_leaf_p (deref t' ts) = true ∧ exps_leaf_p (deref t' ts) = true ∧
  keys_key (deref t' ts) = keys_key (deref t ts) ∧
  (∀ q, q ≠ ts → deref t' q = deref t q) ∧
  exp_next t' = (if expire t =? 0 then exp_next t else tick_first e (exp_next t)) ∧
  exp_task t' = (if expire t =? 0 then exp_task t else tick_first e (exp_next t)).
Proof.
  intros Hts Hne Hx (Hk & Hp & Hc & Hcfg & Hn & Hta) Hst.
  rewrite Hts in Hst. simpl in Hst.
  destruct (Z.eqb_spec (expire t) 0) as [Hz|Hz]; simpl in Hst;
    injection Hst as <- <-;
    rewrite ?deref_with_exp_next_task, ?Hts; simpl; by split_and!.
Qed.

(** The store of a session whose key is not in the table yet. *)
Lemma stktable_store_new t ts s now t' r :
  store_lookup t ts = None → stktable_store t ts s now = (t', r) →
  let e := tick_add now (MS_TO_TICKS (expire t)) in
  r = 0 ∧ keys t' = ts :: keys t ∧
  exps t' = eb32_place (mem t') (exps t) ts ∧
  pool t' = pool t ∧ current t' = current t ∧ same_config t t' ∧
  sid (deref t' ts) = s ∧ ts_expire (deref t' ts) = e ∧ exps_key (deref t' ts) = e ∧
  keys_leaf_p (deref t' ts) = true ∧ exps_leaf_p (deref t' ts) = true ∧
  keys_key (deref t' ts) = keys_key (deref t ts) ∧
  (∀ q, q ≠ ts → deref t' q = deref t q) ∧
  exp_next t' = (if expire t =? 0 then exp_next t else tick_first e (exp_next t)) ∧
  exp_task t' = (if expire t =? 0 then exp_task t else tick_first e (exp_next t)).
Proof.
  intros Hlk. rewrite (stktable_store_new_eq _ _ _ _ Hlk). intros Hst e.
  destruct (store_insert_deref t ts s e) as [Hts Hne].
  eapply stktable_store_new_aux; [exact Hts|exact Hne| | |exact Hst].
  - exact (exps_eb32_insert ts _).
  - by repeat split.
Qed.

Lemma stktable_store_inv owned t ts s now t' r :
  table_inv owned t → ts ∈ owned → stktable_store t ts s now = (t', r) →
  table_inv (if r =? 0 then unlink ts owned else owned) t'.
Proof.
  intros Hi Hts Hst.
  destruct (store_lookup t ts) as [e|] eqn:Hlk.
  - rewrite (stktable_store_dup _ _ _ _ _ Hlk) in Hst. injection Hst as <- <-.
    simpl. destruct (negb (sid (deref t e) =? s)); [|done].
    constructor; simpl; try apply Hi.
    + intros p Hp. destruct (inv_sync _ _ Hi p Hp). by deref_simpl.
    + intros p q Hp Hq.
      rewrite !(stored_key_frame t (poke e (with_sid s) t));
        [by apply (inv_unique _ _ Hi)|done|done| |done|done|]; by deref_simpl.
  - destruct (stktable_store_new _ _ _ _ _ _ Hlk Hst)
      as (-> & Hk & He & Hpl & Hc & (Hsz & Hty & Hks & _) & _ & Hex & Hek
          & _ & _ & Hkk & Hfr & _).
    simpl.
    destruct (table_inv_owned_keys _ _ _ Hi Hts) as (Hnk & Hne & _).
    pose proof (inv_slots _ _ Hi) as Hnd.
    assert (Hndo : NoDup owned) by (by apply NoDup_app in Hnd as (? & _)).
    pose proof (unlink_length ts owned Hndo Hts) as Hlen.
    assert (Hsk : ∀ q, stored_key t' q = stored_key t q).
    { intros q. apply stored_key_frame; [done|done|].
      destruct (decide (q = ts)) as [->|Hq]; [done|by rewrite Hfr]. }
    constructor; rewrite ?Hk, ?He, ?Hpl, ?Hc, ?Hsz.
    + rewrite (unlink_perm ts owned Hndo Hts) in Hnd.
      simpl. by rewrite <- Permutation_middle.
    + rewrite eb32_place_perm. apply NoDup_cons. split; [done|apply (inv_exps _ _ Hi)].
    + intros p. rewrite elem_of_eb32_place, elem_of_cons, (inv_both _ _ Hi). tauto.
    + rewrite (inv_current _ _ Hi). simpl. lia.
    + apply (inv_bound _ _ Hi).
    + apply (inv_size _ _ Hi).
    + intros p [->|Hp]%elem_of_eb32_place.
      * rewrite Hex, Hek. split; [done|apply tick_add_isset].
      * rewrite Hfr by congruence. by apply (inv_sync _ _ Hi).
    + intros p q Hp Hq. rewrite !Hsk.
      apply elem_of_cons in Hp as [->|Hp]; apply elem_of_cons in Hq as [->|Hq];
        intros Heq; [done| | |by apply (inv_unique _ _ Hi)].
      * by destruct (store_lookup_none _ _ Hlk q Hq).
      * by destruct (store_lookup_none _ _ Hlk p Hp).
Qed.

Lemma table_inv_empty t :
  keys t = [] → exps t = [] → NoDup (pool t) → current t = 0 → 0 ≤ size t < 2 ^ 32 →
  table_inv [] t.
Proof.
  intros Hk He Hp Hc Hsz. constructor; rewrite ?Hk, ?He, ?Hc; simpl.
  - done.
  - constructor.
  - done.
  - done.
  - lia.
  - done.
  - intros p Hp'. by apply elem_of_nil in Hp'.
  - intros p q Hp'. by apply elem_of_nil in Hp'.
Qed.

Lemma stktable_init_inv t0 created t :
  zeroed t0 → 0 ≤ size t0 < 2 ^ 32 → NoDup (default [] created) →
  stktable_init t0 created = (t, 1) → table_inv [] t.
Proof.
  intros (Hk & He & Hp & Hc & _) Hsz Hnd. unfold stktable_init.
  destruct (Z.eqb_spec (size t0) 0) as [Hz|Hz]; simpl.
  - intros [= <-]. apply table_inv_empty; rewrite ?Hp; try done. constructor.
  - destruct (expire t0 =? 0); simpl; intros [= <- _];
      by apply table_inv_empty.
Qed.

Lemma process_table_expire_inv owned t now t' :
  table_inv owned t → process_table_expire t now = Some t' → table_inv owned t'.
Proof.
  intros Hi. unfold process_table_expire.
  destruct (stktable_trash_expired t now) as [[t1 r]|] eqn:Ht; [|done].
  intros [= <-]. apply stktable_trash_expired_run in Ht as [vs Hrun].
  destruct (expired_run_inv owned _ _ _ _ _ _ Hrun Hi (cursor_ok_lookup_ge _ _))
    as (Hi1 & _).
  by apply (table_inv_meta owned t1).
Qed.

Lemma reachable_inv t owned : reachable t owned → table_inv owned t.
Proof.
  induction 1 as [t0 created t Hz Hsz Hnd Hinit
                 |t owned k now t' r _ IH Hnew
                 |t owned ts s now t' r _ IH Hts Hst
                 |t owned ts _ IH Hts
                 |t owned now t' _ IH Hex].
  - by eapply stktable_init_inv.
  - by eapply stksess_new_inv.
  - by eapply stktable_store_inv.
  - by apply stksess_free_inv.
  - by eapply process_table_expire_inv.
Qed.

(** ** The scenario tables are reachable *)

Lemma scenario_empty_reachable : reachable scenario_empty [].
Proof.
  apply (reach_init (with_pool [] scenario_empty) (Some [1; 2; 3]%nat)).
  - by repeat split.
  - simpl. lia.
  - apply (bool_decide_unpack _). by vm_compute.
  - reflexivity.
Qed.

Lemma scenario_one_reachable : reachable scenario_one [].
Proof.
  pose proof scenario_empty_reachable as H.
  apply (reach_new _ _ alice 100 (stksess_new_alloc scenario_empty alice).1 (Some 1%nat))
    in H; [|reflexivity].
  apply (reach_store _ _ 1%nat 1 100 scenario_one 0) in H;
    [done|left|by vm_compute].
Qed.

Lemma scenario_dup_reachable : reachable scenario_dup [2%nat].
Proof.
  pose proof scenario_one_reachable as H.
  by apply (reach_new _ _ alice 200 scenario_dup (Some 2%nat)) in H;
    [|by vm_compute].
Qed.

Lemma scenario_full_reachable : reachable scenario_full [].
Proof.
  pose proof scenario_one_reachable as H.
  apply (reach_new _ _ bob 300 (stksess_new_alloc scenario_one bob).1 (Some 2%nat))
    in H; [|reflexivity].
  apply (reach_store _ _ 2%nat 3 300 scenario_full 0) in H;
    [done|left|by vm_compute].
Qed.

Lemma forever_one_reachable : reachable forever_one [].
Proof.
  assert (H : reachable forever_empty []).
  { apply (reach_init (with_pool [] forever_empty) (Some [1; 2; 3]%nat)).
    - by repeat split.
    - simpl. lia.
    - apply (bool_decide_unpack _). by vm_compute.
    - reflexivity. }
  apply (reach_new _ _ alice 100 (stksess_new_alloc forever_empty alice).1 (Some 1%nat))
    in H; [|reflexivity].
  apply (reach_store _ _ 1%nat 1 100 forever_one 0) in H;
    [done|left|by vm_compute].
Qed.

(** ** Occupancy, uniqueness of keys, membership of the two trees *)

(** ** The key of a session

    What [stksess_key] leaves in a session, and through it [stksess_new]. *)

Lemma cstr_app_zero l r : cstr (l ++ 0 :: r) = cstr l.
Proof.
  induction l as [|c l IH]; simpl; [done|].
  destruct (c =? 0); [done|by rewrite IH].
Qed.

Lemma cstr_no_zero l : Forall (λ c, c ≠ 0) l → cstr l = l.
Proof.
  induction 1 as [|c l Hc _ IH]; simpl; [done|].
  destruct (Z.eqb_spec c 0); [done|by rewrite IH].
Qed.

Lemma stksess_key_config t ts k :
  let t' := stksess_key t ts k in
  keys t' = keys t ∧ exps t' = exps t ∧ pool t' = pool t ∧
  current t' = current t ∧ exp_next t' = exp_next t ∧ exp_task t' = exp_task t ∧
  same_config t t' ∧ ∀ q, q ≠ ts → deref t' q = deref t q.
Proof.
  unfold stksess_key. destruct (is_string (type t)); simpl;
    split_and!; try done; intros q Hq; by rewrite deref_poke_ne.
Qed.

(** The bytes [stksess_key] leaves in the session. *)
Lemma stksess_key_bytes t ts k :
  1 ≤ key_size t < 2 ^ 64 →
  key_size t ≤ Z.of_nat (length (keys_key (deref t ts))) →
  key_readable t k →
  keys_key (deref (stksess_key t ts k) ts) =
    (if is_string (type t) then
       let n := Z.to_nat (Z.min (key_size t - 1) (key_len k)) in
       take n (key k) ++ 0 :: drop (S n) (keys_key (deref t ts))
     else take (Z.to_nat (key_size t)) (key k)
          ++ drop (Z.to_nat (key_size t)) (keys_key (deref t ts))).
Proof.
  intros Hks Hbuf Hrd. unfold stksess_key, key_readable in *.
  destruct (is_string (type t)); simpl; rewrite deref_poke_eq; simpl; [|done].
  assert (Hsz : size_t (key_size t - 1) = key_size t - 1)
    by (unfold size_t; apply Z.mod_small; lia).
  rewrite Hsz, MIN_min. unfold memcpy. apply terminate_memcpy; lia.
Qed.

Lemma stksess_key_stored_key t ts k :
  1 ≤ key_size t < 2 ^ 64 →
  key_size t ≤ Z.of_nat (length (keys_key (deref t ts))) →
  key_readable t k →
  stored_key (stksess_key t ts k) ts = normal_key t k
  ∧ length (keys_key (deref (stksess_key t ts k) ts))
    = length (keys_key (deref t ts)).
Proof.
  intros Hks Hbuf Hrd.
  pose proof (stksess_key_bytes t ts k Hks Hbuf Hrd) as Hb.
  destruct (stksess_key_config t ts k) as (_ & _ & _ & _ & _ & _ & Hcfg & _).
  destruct Hcfg as (_ & Hty & Hsz & _).
  unfold stored_key, normal_key. rewrite Hty, Hsz, Hb.
  unfold key_readable in Hrd.
  destruct (is_string (type t)) eqn:Hs; simpl.
  - split; [apply cstr_app_zero|].
    rewrite length_app, length_take. simpl. rewrite length_drop. lia.
  - split.
    + rewrite take_app_length'; [done|]. rewrite length_take. lia.
    + rewrite length_app, length_take, length_drop. lia.
Qed.

(** The scans write neither the key nor the server id of a session. *)
Lemma oldest_run_keys_key tb t eb b t' n vs :
  oldest_run tb t eb b t' n vs →
  ∀ q, keys_key (deref t' q) = keys_key (deref t q) ∧ sid (deref t' q) = sid (deref t q).
Proof.
  induction 1 as [| |t eb b t1 eb1 b1 v t' n vs Hb Hbody Hrun IH]; [done|done|].
  intros q. destruct (IH q) as [-> ->].
  apply trash_oldest_body_cases in Hbody as (ts & _ & Hcs). simpl in Hcs.
  destruct Hcs as [(_ & _ & -> & _)|[(_ & _ & -> & _)|(_ & -> & _)]]; by deref_simpl.
Qed.

(** The table and the session [stksess_new] returns, from the table its
    first block left. *)
Lemma stksess_new_some t k now t1 ts :
  stksess_new t k now = Some (t1, Some ts) →
  ∃ ta, stksess_new_room t now = Some (ta, true)
        ∧ stksess_new_alloc ta k = (t1, Some ts)
        ∧ same_config t ta
        ∧ ∀ q, keys_key (deref ta q) = keys_key (deref t q).
Proof.
  unfold stksess_new.
  destruct (stksess_new_room t now) as [[ta [|]]|] eqn:Hroom; [|done|done].
  intros Hal. exists ta. split; [done|]. split; [by injection Hal|].
  unfold stksess_new_room in Hroom.
  destruct (current t =? size t); [|by simplify_eq].
  destruct (negb (nopurge t =? 0)); [done|].
  destruct (stktable_trash_oldest t (Z.shiftr (size t) 8) now) as [[tb n]|] eqn:Ht;
    [|done].
  injection Hroom as -> _.
  apply stktable_trash_oldest_run in Ht as (vs & Hrun).
  split; [by eapply oldest_run_config|].
  intros q. by destruct (oldest_run_keys_key _ _ _ _ _ _ _ Hrun q).
Qed.

Lemma key_readable_config t t' k :
  same_config t t' → key_readable t k → key_readable t' k.
Proof. intros (_ & Hty & Hsz & _). unfold key_readable. by rewrite Hty, Hsz. Qed.

Lemma stksess_new_alloc_config t k t' r :
  stksess_new_alloc t k = (t', r) → same_config t t'.
Proof.
  unfold stksess_new_alloc. destruct (pool_alloc2 (pool t)) as [[p pl]|].
  - intros [= <- _]. unfold stksess_init.
    by destruct (stksess_key_config
      (poke p (with_sid 0) (poke p (with_exps_leaf_p false)
         (poke p (with_keys_leaf_p false)
            (with_current (u32 (current (with_pool pl t) + 1)) (with_pool pl t)))))
      p k) as (_ & _ & _ & _ & _ & _ & H & _).
  - by intros [= <- _].
Qed.

(** The session [stksess_new] returns holds the key it was given. *)
Lemma stksess_new_stored_key t k now t1 ts :
  1 ≤ key_size t < 2 ^ 64 → key_readable t k →
  stksess_new t k now = Some (t1, Some ts) →
  key_size t ≤ Z.of_nat (length (keys_key (deref t ts))) →
  same_config t t1 ∧ stored_key t1 ts = normal_key t k.
Proof.
  intros Hks Hrd Hnew Hbuf.
  apply stksess_new_some in Hnew as (ta & _ & Hal & Hcfg & Hkk).
  pose proof Hcfg as (Hsz & Hty & Hksz & Hnp & Hex).
  pose proof (stksess_new_alloc_config _ _ _ _ Hal) as Hcfg1.
  apply stksess_new_alloc_some in Hal as (_ & _ & _ & _ & _ & _ & _ & Hkey & _).
  pose proof Hcfg1 as (Hsz1 & Hty1 & Hksz1 & Hnp1 & Hex1).
  split; [unfold same_config; split_and!; congruence|].
  destruct (stksess_key_stored_key ta ts k) as [Hk _];
    [by rewrite Hksz|by rewrite Hksz, Hkk|by apply (key_readable_config t)|].
  destruct (stksess_key_config ta ts k)
    as (_ & _ & _ & _ & _ & _ & (_ & Hty2 & Hksz2 & _) & _).
  unfold stored_key in *. rewrite Hty1, Hksz1, Hkey.
  rewrite Hty2, Hksz2 in Hk. rewrite Hk. unfold normal_key. by rewrite Hty, Hksz.
Qed.




(** C4.  In every reachable table [current] is between 0 and [size]; a
    table of size 0 holds no session, none is owned by a caller, and
    [stksess_new] returns NULL on it, so that nothing can be stored. *)
Theorem occupancy_bounded (t : stktable) (owned : list ptr) :
  reachable t owned →
  0 ≤ current t ≤ size t
  ∧ (size t = 0 →
     keys t = [] ∧ owned = [] ∧
     ∀ k now, stksess_new t k now = Some (t, None)).
Proof.
  intros Hi%reachable_inv.
  pose proof (inv_current _ _ Hi) as Hc. pose proof (inv_bound _ _ Hi) as Hb.
  split; [lia|]. intros Hz.
  assert (Hk : keys t = []) by (apply length_zero_iff_nil; lia).
  assert (Ho : owned = []) by (apply length_zero_iff_nil; lia).
  split_and!; [done|done|]. intros k now.
  unfold stksess_new, stksess_new_room.
  assert (Hcz : current t = size t) by lia.
  rewrite Hcz, Z.eqb_refl, Hz.
  destruct (negb (nopurge t =? 0)); [done|].
  by rewrite trash_oldest_zero_batch.
Qed.

Lemma occupancy_bounded_witness :
  0 ≤ current scenario_full ≤ size scenario_full
  ∧ (size scenario_full = 0 →
     keys scenario_full = [] ∧ @nil ptr = [] ∧
     ∀ k now, stksess_new scenario_full k now = Some (scenario_full, None)).
Proof. exact (occupancy_bounded scenario_full [] scenario_full_reachable). Defined.

(** C3.  In every reachable table no two stored sessions have the same
    key.  The store of a session [ts] whose key is the key of a stored
    session [e] returns 1, sets the [sid] of [e] by a write made only if
    it differs, and changes nothing else: not the trees, not the pool, not
    [current], not the session [ts], which stays out of both trees. *)
Theorem store_key_unique (t : stktable) (owned : list ptr) :
  reachable t owned →
  (∀ p q, p ∈ keys t → q ∈ keys t → stored_key t p = stored_key t q → p = q)
  ∧ ∀ ts e s now,
      e ∈ keys t → stored_key t e = stored_key t ts →
      ∃ t', stktable_store t ts s now = (t', 1) ∧
        keys t' = keys t ∧ exps t' = exps t ∧ pool t' = pool t ∧
        current t' = current t ∧
        deref t' e = with_sid s (deref t e) ∧
        (sid (deref t e) = s → t' = t) ∧
        (∀ q, q ≠ e → deref t' q = deref t q) ∧
        (ts ∈ owned → (ts ∉ keys t') ∧ (ts ∉ exps t')).
Proof.
  intros Hi%reachable_inv. split; [apply (inv_unique _ _ Hi)|].
  intros ts e s now He Hk.
  destruct (store_lookup_exists t ts e He Hk) as [e' Hlk].
  destruct (store_lookup_some _ _ _ Hlk) as [He' Hk'].
  assert (e' = e) as -> by (apply (inv_unique _ _ Hi); congruence).
  rewrite (stktable_store_dup _ _ _ _ _ Hlk).
  eexists. split; [done|].
  assert (Hout : ts ∈ owned → (ts ∉ keys t) ∧ (ts ∉ exps t)).
  { intros Hts. by destruct (table_inv_owned_keys _ _ _ Hi Hts) as (? & ? & _). }
  destruct (Z.eqb_spec (sid (deref t e)) s) as [Hs|Hs]; simpl.
  - split_and!; try done. destruct (deref t e); simpl in *; by subst.
  - split_and!; try done; [by deref_simpl|intros; by deref_simpl].
Qed.

Lemma store_key_unique_witness :
  (∀ p q, p ∈ keys scenario_dup → q ∈ keys scenario_dup →
          stored_key scenario_dup p = stored_key scenario_dup q → p = q)
  ∧ ∃ t', stktable_store scenario_dup 2%nat 2 200 = (t', 1) ∧
      keys t' = keys scenario_dup ∧ exps t' = exps scenario_dup ∧
      pool t' = pool scenario_dup ∧ current t' = current scenario_dup ∧
      deref t' 1%nat = with_sid 2 (deref scenario_dup 1%nat) ∧
      (sid (deref scenario_dup 1%nat) = 2 → t' = scenario_dup) ∧
      (∀ q, q ≠ 1%nat → deref t' q = deref scenario_dup q) ∧
      (2%nat ∈ [2%nat] → (2%nat ∉ keys t') ∧ (2%nat ∉ exps t')).
Proof.
  destruct (store_key_unique scenario_dup [2%nat] scenario_dup_reachable) as [H1 H2].
  split; [exact H1|].
  apply (H2 2%nat 1%nat 2 200); [left | reflexivity].
Defined.

(** C1, as the code has it.  In every reachable table the sessions of the
    key tree are exactly the nodes of the expiration tree, whatever the
    ttl.  The store of a session whose key is new returns 0 and puts it in
    both trees with [expire] and the node key set to
    [tick_add now (MS_TO_TICKS ttl)], whatever the ttl; only [exp_next]
    depends on the ttl: it becomes the first of that date and its former
    value when the ttl is not 0 and is left alone when it is 0. *)
Theorem store_indexes_session (t : stktable) (owned : list ptr) :
  reachable t owned →
  (∀ p, p ∈ keys t ↔ p ∈ exps t)
  ∧ ∀ ts s now t' r,
      store_lookup t ts = None → stktable_store t ts s now = (t', r) →
      let e := tick_add now (MS_TO_TICKS (expire t)) in
      r = 0 ∧ ts ∈ keys t' ∧ ts ∈ exps t' ∧
      ts_expire (deref t' ts) = e ∧ exps_key (deref t' ts) = e ∧
      exp_next t' = (if expire t =? 0 then exp_next t else tick_first e (exp_next t)).
Proof.
  intros Hi%reachable_inv. split; [apply (inv_both _ _ Hi)|].
  intros ts s now t' r Hlk Hst.
  destruct (stktable_store_new _ _ _ _ _ _ Hlk Hst)
    as (-> & Hk & He & _ & _ & _ & _ & Hex & Hek & _ & _ & _ & _ & Hn & _).
  simpl. split_and!; try done.
  - rewrite Hk. left.
  - rewrite He. apply elem_of_eb32_place. by left.
Qed.

Lemma store_indexes_session_witness :
  (∀ p, p ∈ keys (stksess_new_alloc scenario_one bob).1
        ↔ p ∈ exps (stksess_new_alloc scenario_one bob).1)
  ∧ (let e := tick_add 300 (MS_TO_TICKS 1000) in
     0 = 0 ∧ 2%nat ∈ keys scenario_full ∧ 2%nat ∈ exps scenario_full ∧
     ts_expire (deref scenario_full 2%nat) = e ∧
     exps_key (deref scenario_full 2%nat) = e ∧
     exp_next scenario_full = tick_first e 1100).
Proof.
  assert (Hr : reachable (stksess_new_alloc scenario_one bob).1 [2%nat]).
  { exact (reach_new _ _ bob 300 _ (Some 2%nat) scenario_one_reachable eq_refl). }
  destruct (store_indexes_session _ _ Hr) as [H1 H2].
  split; [exact H1|].
  apply (H2 2%nat 3 300 scenario_full 0); by vm_compute.
Defined.

(** C1 as it is stated fails: in a reachable table whose ttl is 0 the
    stored session is a node of the expiration tree. *)
Lemma store_indexes_session_counterexample :
  ¬ (∀ t owned, reachable t owned →
       ∀ p, p ∈ keys t → (p ∈ exps t ↔ expire t ≠ 0)).
Proof.
  intros H.
  destruct (H forever_one [] forever_one_reachable 1%nat) as [H1 _]; [left|].
  by apply H1; [left|].
Qed.

(** ** The turns of the two scans *)

Lemma kept_visit_dropped t ts :
  ts_expire (deref t ts) = 0 →
  kept_visit t ts (eb32_delete ts t) (eb32_next (exps t) ts) Dropped.
Proof. intros Hz. unfold kept_visit. by rewrite Hz. Qed.

Lemma kept_visit_restamped t ts :
  ts_expire (deref t ts) ≠ 0 →
  let t3 := eb32_insert ts (poke ts (with_exps_key (ts_expire (deref t ts)))
                              (eb32_delete ts t)) in
  kept_visit t ts t3 (scan_resume t3 (eb32_next (exps t) ts) ts) Restamped.
Proof.
  intros Hz t3. unfold kept_visit.
  destruct (Z.eqb_spec (ts_expire (deref t ts)) TICK_ETERNITY) as [|_]; [done|].
  split_and!; try done.
  - subst t3. by deref_simpl.
  - exact (exps_eb32_insert ts _).
Qed.

(** C5, as the code has it.  A turn of [stktable_trash_oldest] keeps the
    visited node, without counting it, exactly when its key differs from
    the date of the session; a turn of [stktable_trash_expired] keeps it
    exactly when that date has not expired at [now], whatever the key,
    and trashes a session whose date has expired even if it differs from
    the key.  How a node is kept is [kept_visit]. *)
Theorem scan_keeps_moved_node :
  (∀ t eb b t' eb' b' ts v,
     trash_oldest_body t eb b = Some (t', eb', b', (ts, v)) →
     (ts_expire (deref t ts) ≠ exps_key (deref t ts) →
        b' = b ∧ kept_visit t ts t' eb' v)
     ∧ (ts_expire (deref t ts) = exps_key (deref t ts) →
        b' = b + 1 ∧ v = Trashed))
  ∧ (∀ t eb now t' eb' ts v,
     trash_expired_body t eb now = TurnNext t' eb' (ts, v) →
     (tick_is_expired (ts_expire (deref t ts)) now = false →
        kept_visit t ts t' eb' v)
     ∧ (tick_is_expired (ts_expire (deref t ts)) now = true →
        v = Trashed ∧ keys t' = unlink ts (keys t) ∧
        exps t' = unlink ts (exps t) ∧ pool t' = ts :: pool t ∧
        current t' = u32 (current t - 1))).
Proof.
  split.
  - intros t eb b t' eb' b' ts v Hb.
    apply trash_oldest_body_cases in Hb as (ts' & _ & Hcs). simpl in Hcs.
    destruct Hcs as [(Hne & Hz & -> & -> & -> & [= -> ->])
                    |[(Hne & Hz & -> & -> & -> & [= -> ->])
                    |(He & -> & -> & -> & [= -> ->])]].
    + split; [|done]. intros _. split; [done|]. by apply kept_visit_dropped.
    + split; [|done]. intros _. split; [done|]. by apply kept_visit_restamped.
    + split; [done|]. by intros _.
  - intros t eb now t' eb' ts v Hb.
    pose proof (trash_expired_body_cases t eb now) as Hcs. rewrite Hb in Hcs.
    destruct Hcs as (ts' & _ & _ & Hcs). simpl in Hcs.
    destruct Hcs as [(He & Hz & -> & -> & [= -> ->])
                    |[(He & Hz & -> & -> & [= -> ->])
                    |(He & -> & -> & [= -> ->])]].
    + split; [|congruence]. intros _. by apply kept_visit_dropped.
    + split; [|congruence]. intros _. by apply kept_visit_restamped.
    + split; [congruence|]. by intros _.
Qed.

Lemma scan_keeps_moved_node_witness :
  let t := scenario_touched in
  let t3 := eb32_insert 1%nat (poke 1%nat (with_exps_key 1200) (eb32_delete 1%nat t)) in
  let t4 := stksess_free (ebmb_delete 1%nat (eb32_delete 1%nat t)) 1%nat in
  (0 = 0 ∧ kept_visit t 1%nat t3 (Some 1%nat) Restamped)
  ∧ kept_visit t 1%nat t3 (Some 1%nat) Restamped
  ∧ (Trashed = Trashed ∧ keys t4 = unlink 1%nat (keys t) ∧
     exps t4 = unlink 1%nat (exps t) ∧ pool t4 = 1%nat :: pool t ∧
     current t4 = u32 (current t - 1)).
Proof.
  intros t t3 t4. destruct scan_keeps_moved_node as [H1 H2]. split; [|split].
  - apply (proj1 (H1 t None 0 t3 (Some 1%nat) 0 1%nat Restamped eq_refl)).
    by vm_compute.
  - apply (proj1 (H2 t None 1150 t3 (Some 1%nat) 1%nat Restamped eq_refl)).
    by vm_compute.
  - apply (proj2 (H2 t None 1300 t4 None 1%nat Trashed eq_refl)).
    by vm_compute.
Defined.

(** C5 as it is stated fails for the sweep: the node of "alice" is keyed
    1100, the date of the session was moved to 1200, and the sweep of tick
    1300 visits the node and trashes the session. *)
Lemma scan_keeps_moved_node_counterexample :
  ¬ (∀ t eb now t' eb' ts v,
       trash_expired_body t eb now = TurnNext t' eb' (ts, v) →
       exps_key (deref t ts) ≠ ts_expire (deref t ts) →
       v ≠ Trashed ∧ ts ∈ keys t').
Proof.
  intros H.
  destruct (H scenario_touched None 1300
              (stksess_free (ebmb_delete 1%nat (eb32_delete 1%nat scenario_touched)) 1%nat)
              None 1%nat Trashed eq_refl) as [Hv _]; [by vm_compute|].
  by apply Hv.
Qed.

(** ** The expiration sweep *)

Lemma expired_run_result now t eb t' r vs :
  expired_run now t eb t' r vs → NoDup (exps t) → cursor_ok t eb →
  sweep_result now t t' r vs.
Proof.
  induction 1 as [t eb Hbody|t eb t' Hbody|t eb t1 eb1 v t' r vs Hbody Hrun IH];
    intros Hnd Hc.
  - pose proof (trash_expired_body_cases t eb now) as Hcs. rewrite Hbody in Hcs.
    destruct Hcs as [_ He].
    split_and!; try done.
    + by left.
    + intros p v Hin. by apply elem_of_nil in Hin.
    + intros q. simpl. rewrite elem_of_nil. tauto.
  - pose proof (trash_expired_body_cases t eb now) as Hcs. rewrite Hbody in Hcs.
    destruct Hcs as (ts & Hts & Hlt & ->).
    apply (scan_pick_elem _ _ _ Hc) in Hts.
    split_and!; try done.
    + right. by exists ts.
    + intros p v Hin. by apply elem_of_nil in Hin.
    + intros q. simpl. rewrite elem_of_nil. tauto.
  - destruct (trash_expired_body_measure _ _ _ _ _ _ Hnd Hc Hbody) as (Hnd1 & Hc1 & _).
    destruct (IH Hnd1 Hc1) as (Hr & Hstop & Hvis & Hkeys & Hpool & Hcur & Hdate & Hsub).
    clear IH.
    pose proof (trash_expired_body_cases t eb now) as Hcs. rewrite Hbody in Hcs.
    destruct Hcs as (ts & Hts & Hlt & Hcs). simpl in Hcs.
    apply (scan_pick_elem _ _ _ Hc) in Hts.
    assert (Hfacts :
      (∀ q, ts_expire (deref t1 q) = ts_expire (deref t q))
      ∧ (∀ q, q ≠ ts → exps_key (deref t1 q) = exps_key (deref t q))
      ∧ (∀ q, q ∈ exps t1 → q ∈ exps t)
      ∧ v.1 = ts
      ∧ (v.2 = Trashed ↔ tick_is_expired (ts_expire (deref t ts)) now = true)
      ∧ (v.2 ≠ Restamped → ts ∉ exps t1)
      ∧ (ts ∈ exps t1 → tick_is_lt now (exps_key (deref t1 ts)) = true)
      ∧ (v.2 = Trashed → keys t1 = unlink ts (keys t) ∧ pool t1 = ts :: pool t
                          ∧ current t1 = u32 (current t - 1))
      ∧ (v.2 ≠ Trashed → keys t1 = keys t ∧ pool t1 = pool t ∧ current t1 = current t)).
    { destruct Hcs as [(He & Hz & -> & -> & ->)
                      |[(He & Hz & -> & -> & ->)
                      |(He & -> & -> & ->)]]; simpl.
      - split_and!; try done; try (intros; by deref_simpl).
        + intros q [_ ?]%elem_of_unlink. done.
        + by rewrite He.
        + intros _. apply not_elem_of_unlink.
        + intros []%not_elem_of_unlink.
      - split_and!; try done; try (intros; by deref_simpl).
        + intros q [->|[_ ?]%elem_of_unlink]%elem_of_eb32_place; done.
        + by rewrite He.
        + intros _. deref_simpl. by apply tick_not_expired_lt.
      - split_and!; try done; try (intros; by deref_simpl).
        + intros q [_ ?]%elem_of_unlink. done.
        + intros _. apply not_elem_of_unlink.
        + intros []%not_elem_of_unlink. }
    destruct Hfacts as (Hd1 & Hk1 & Hs1 & Hv1 & Hv2 & Hv3 & Hv4 & Hv5 & Hv6).
    destruct v as [p0 v0]. simpl in *. subst p0.
    split_and!; try done.
    + intros p v [[= -> ->]|Hin]%elem_of_cons.
      * split_and!; try done. intros Hv Hin. apply (Hv3 Hv). by apply Hsub.
      * destruct (Hvis p v Hin) as (Hp1 & Hp2 & Hp3 & Hp4).
        assert (p ≠ ts).
        { intros ->. by rewrite (Hv4 Hp1) in Hp2. }
        rewrite Hk1, Hd1 in * by done. split_and!; auto.
    + intros q. rewrite Hkeys.
      destruct v0; simpl;
        [destruct Hv6 as (-> & _); [done|tauto]
        |destruct Hv6 as (-> & _); [done|tauto]
        |destruct Hv5 as (-> & _); [done|]].
      rewrite elem_of_unlink, not_elem_of_cons. tauto.
    + rewrite Hpool.
      destruct v0; simpl;
        [destruct Hv6 as (_ & -> & _); done
        |destruct Hv6 as (_ & -> & _); done
        |destruct Hv5 as (_ & -> & _); [done|]].
      by rewrite reverse_cons, <- app_assoc.
    + rewrite Hcur.
      destruct v0; simpl;
        [destruct Hv6 as (_ & _ & ->); done
        |destruct Hv6 as (_ & _ & ->); done
        |destruct Hv5 as (_ & _ & ->); [done|]].
      symmetry. exact (Nat.iter_succ_r _ _ (λ c, u32 (c - 1)) (current t)).
    + intros q. by rewrite Hdate.
    + auto.
Qed.

(** ** The order of the scans *)

Lemma eb32_below_from m l x : l = eb32_below m l x ++ eb32_from m l x.
Proof.
  induction l as [|p l IH]; simpl; [done|].
  destruct (_ <=? _); simpl; [done|]. by rewrite <- IH.
Qed.

Lemma eb32_lookup_ge_from m l x : eb32_lookup_ge m l x = head (eb32_from m l x).
Proof.
  induction l as [|p l IH]; simpl; [done|]. by destruct (_ <=? _).
Qed.

Lemma eb32_next_app A p B : p ∉ A → eb32_next (A ++ p :: B) p = head B.
Proof.
  induction A as [|a A IH]; simpl; intros Hp.
  - by rewrite decide_True.
  - rewrite decide_False by set_solver. apply IH. set_solver.
Qed.

Lemma unlink_app_cons A p B : NoDup (A ++ p :: B) → unlink p (A ++ p :: B) = A ++ B.
Proof.
  intros Hnd. apply NoDup_app in Hnd as (_ & Hd & [Hp _]%NoDup_cons).
  unfold unlink. rewrite filter_app, filter_cons_False by tauto.
  fold (unlink p A). fold (unlink p B).
  rewrite !unlink_absent; [done|done|]. intros HA. apply (Hd p HA). left.
Qed.

(** The node a turn visits, the next cursor and the tree it leaves when
    the cursor is at the head of [B] in the tree [A ++ B]. *)
Lemma scan_pick_split t A B :
  exps t = A ++ B →
  scan_pick t (head B) = head (B ++ A).
Proof.
  intros He. destruct B as [|p B]; simpl; [|done].
  unfold eb32_first. by rewrite He, app_nil_r.
Qed.

Lemma scan_step_split t A B ts rest :
  exps t = A ++ B → NoDup (exps t) → B ++ A = ts :: rest →
  ∃ A' B', unlink ts (exps t) = A' ++ B' ∧ eb32_next (exps t) ts = head B'
           ∧ B' ++ A' = rest.
Proof.
  intros He Hnd Hsp. rewrite He in Hnd |- *. destruct B as [|p B]; simpl in Hsp.
  - rewrite app_nil_r in Hnd |- *. subst A. exists [], rest. split_and!.
    + by rewrite unlink_cons_eq, unlink_absent by (by apply NoDup_cons in Hnd as [? _]).
    + simpl. by rewrite decide_True.
    + by rewrite app_nil_r.
  - injection Hsp as -> <-. exists A, B. split_and!; [|  |done].
    + by apply unlink_app_cons.
    + apply eb32_next_app. apply NoDup_app in Hnd as (_ & Hd & _).
      intros HA. apply (Hd ts HA). left.
Qed.

Lemma exps_in_sync_trash t ts :
  exps_in_sync t →
  exps_in_sync (stksess_free (ebmb_delete ts (eb32_delete ts t)) ts).
Proof.
  intros Hs p [Hp Hin]%elem_of_unlink. destruct (Hs p Hin). by deref_simpl.
Qed.

Lemma elem_of_all_trashed p v l : (p, v) ∈ all_trashed l ↔ p ∈ l ∧ v = Trashed.
Proof.
  unfold all_trashed. rewrite list_elem_of_fmap. split.
  - intros (q & [= -> ->] & Hq). done.
  - intros [Hp ->]. by exists p.
Qed.

Lemma trash_oldest_body_none t eb b :
  trash_oldest_body t eb b = None → scan_pick t eb = None.
Proof.
  unfold trash_oldest_body. destruct (scan_pick t eb) as [ts|]; [|done].
  by repeat destruct (negb _).
Qed.

Lemma oldest_run_in_sync tb t eb b t' n vs :
  oldest_run tb t eb b t' n vs →
  ∀ A B, exps t = A ++ B → eb = head B → NoDup (exps t) → exps_in_sync t →
  let seen := take (Z.to_nat (tb - b)) (B ++ A) in
  vs = all_trashed seen
  ∧ n = b + Z.of_nat (length seen)
  ∧ (∀ q, q ∈ exps t' ↔ q ∈ exps t ∧ q ∉ seen).
Proof.
  induction 1 as [t eb b Hb|t eb b Hb Hbody
                 |t eb b t1 eb1 b1 v t' n vs Hb Hbody Hrun IH];
    intros A B He Heb Hnd Hs seen; subst seen.
  - replace (Z.to_nat (tb - b)) with 0%nat by lia. simpl.
    split_and!; [done|lia|]. intros q. rewrite elem_of_nil. tauto.
  - apply trash_oldest_body_none, scan_pick_none in Hbody as [_ Hnil].
    rewrite Hnil in He.
    symmetry in He. apply app_eq_nil in He as [-> ->]. simpl. rewrite take_nil. simpl.
    split_and!; [done|lia|]. intros q. rewrite elem_of_nil. tauto.
  - apply trash_oldest_body_cases in Hbody as (ts & Hts & Hcs). simpl in Hcs.
    subst eb. rewrite (scan_pick_split t A B He) in Hts.
    destruct (B ++ A) as [|ts' rest] eqn:Hsp; [done|]. injection Hts as ->.
    assert (Hin : ts ∈ exps t).
    { assert (Hba : ts ∈ B ++ A) by (rewrite Hsp; left).
      rewrite He. apply elem_of_app. apply elem_of_app in Hba. tauto. }
    destruct (Hs ts Hin) as [Hsy Hnz].
    destruct Hcs as [(Hne & _)|[(Hne & _)|(_ & -> & -> & -> & ->)]]; [done|done|].
    destruct (scan_step_split t A B ts rest He Hnd Hsp) as (A' & B' & Hu & Hnx & Hr).
    destruct (IH A' B') as (Hvs & Hn & Hex); [done|done|by apply NoDup_unlink| |].
    { by apply exps_in_sync_trash. }
    rewrite Hr in Hvs, Hn, Hex. simpl in Hex.
    replace (Z.to_nat (tb - b)) with (S (Z.to_nat (tb - (b + 1)))) by lia. simpl.
    split_and!; [by rewrite Hvs|lia|].
    intros q. rewrite Hex, elem_of_unlink, not_elem_of_cons. tauto.
Qed.

Lemma elapsed_prefix_agree now t t1 l :
  (∀ q, q ∈ l → exps_key (deref t1 q) = exps_key (deref t q)) →
  elapsed_prefix now t1 l = elapsed_prefix now t l
  ∧ first_later now t1 l = first_later now t l.
Proof.
  induction l as [|p l IH]; intros H; simpl; [done|].
  rewrite (H p) by left. destruct IH as [-> ->]; [|done].
  intros q Hq. apply H. by right.
Qed.

Lemma expired_run_in_sync now t eb t' r vs :
  expired_run now t eb t' r vs →
  ∀ A B, exps t = A ++ B → eb = head B → NoDup (exps t) → exps_in_sync t →
  let seen := elapsed_prefix now t (B ++ A) in
  vs = all_trashed seen
  ∧ r = first_later now t (B ++ A)
  ∧ (∀ q, q ∈ exps t' ↔ q ∈ exps t ∧ q ∉ seen).
Proof.
  induction 1 as [t eb Hbody|t eb t' Hbody|t eb t1 eb1 v t' r vs Hbody Hrun IH];
    intros A B He Heb Hnd Hs seen; subst seen.
  - pose proof (trash_expired_body_cases t eb now) as Hcs. rewrite Hbody in Hcs.
    destruct Hcs as [_ Hnil]. rewrite Hnil in He.
    symmetry in He. apply app_eq_nil in He as [-> ->]. simpl.
    split_and!; [done|done|]. intros q. rewrite Hnil, elem_of_nil. tauto.
  - pose proof (trash_expired_body_cases t eb now) as Hcs. rewrite Hbody in Hcs.
    destruct Hcs as (ts & Hts & Hlt & ->).
    subst eb. rewrite (scan_pick_split t A B He) in Hts.
    destruct (B ++ A) as [|ts' rest] eqn:Hsp; [done|]. injection Hts as ->.
    simpl. rewrite Hlt. split_and!; [done|done|].
    intros q. rewrite elem_of_nil. tauto.
  - pose proof (trash_expired_body_cases t eb now) as Hcs. rewrite Hbody in Hcs.
    destruct Hcs as (ts & Hts & Hlt & Hcs). simpl in Hcs.
    subst eb. rewrite (scan_pick_split t A B He) in Hts.
    destruct (B ++ A) as [|ts' rest] eqn:Hsp; [done|]. injection Hts as ->.
    assert (Hba : NoDup (ts :: rest)).
    { rewrite <- Hsp, Permutation_app_comm, <- He. done. }
    apply NoDup_cons in Hba as [Hnr _].
    assert (Hin : ts ∈ exps t).
    { assert (Hba : ts ∈ B ++ A) by (rewrite Hsp; left).
      rewrite He. apply elem_of_app. apply elem_of_app in Hba. tauto. }
    destruct (Hs ts Hin) as [Hsy Hnz].
    destruct Hcs as [(_ & Hz & _)|[(Hne & _)|(_ & -> & -> & ->)]]; [done| |].
    { rewrite Hsy in Hne, Hnz.
      by rewrite (tick_not_expired_lt _ _ Hne Hnz) in Hlt. }
    destruct (scan_step_split t A B ts rest He Hnd Hsp) as (A' & B' & Hu & Hnx & Hr).
    destruct (IH A' B') as (Hvs & Hn & Hex); [done|done|by apply NoDup_unlink| |].
    { by apply exps_in_sync_trash. }
    rewrite Hr in Hvs, Hn, Hex. simpl in Hex.
    destruct (elapsed_prefix_agree now t
                (stksess_free (ebmb_delete ts (eb32_delete ts t)) ts) rest)
      as [Hep Hfl].
    { intros q Hq. deref_simpl. }
    rewrite Hep in Hvs, Hex. rewrite Hfl in Hn.
    simpl. rewrite Hlt. simpl.
    split_and!; [by rewrite Hvs|done|].
    intros q. rewrite Hex, elem_of_unlink, not_elem_of_cons. tauto.
Qed.

Lemma oldest_run_first tb t eb b t' n p v vs :
  oldest_run tb t eb b t' n ((p, v) :: vs) → scan_pick t eb = Some p.
Proof.
  inversion 1 as [| |? ? ? t1 eb1 b1 v1 ? ? ? Hb Hbody Hrun]; subst.
  apply trash_oldest_body_cases in Hbody as (ts & Hts & Hcs). simpl in Hcs.
  by destruct Hcs as [(_ & _ & _ & _ & _ & [= ->])
                     |[(_ & _ & _ & _ & _ & [= ->])
                     |(_ & _ & _ & _ & [= ->])]].
Qed.

Lemma expired_run_first now t eb t' r p v vs :
  expired_run now t eb t' r ((p, v) :: vs) → scan_pick t eb = Some p.
Proof.
  inversion 1 as [| |? ? t1 eb1 v1 ? ? ? Hbody Hrun]; subst.
  pose proof (trash_expired_body_cases t eb now) as Hcs. rewrite Hbody in Hcs.
  destruct Hcs as (ts & Hts & _ & Hcs). simpl in Hcs.
  by destruct Hcs as [(_ & _ & _ & _ & [= ->])
                     |[(_ & _ & _ & _ & [= ->])
                     |(_ & _ & _ & [= ->])]].
Qed.

Lemma scan_pick_lookup_ge t now :
  scan_pick t (eb32_lookup_ge (mem t) (exps t) (u32 (now - TIMER_LOOK_BACK)))
  = head (scan_order t now).
Proof.
  rewrite eb32_lookup_ge_from. apply scan_pick_split, eb32_below_from.
Qed.

(** Where the scans start and, when no session was touched, what they
    visit.  Both scans start at the head of
    [scan_order]: the first node whose key is at least
    [now - TIMER_LOOK_BACK] modulo 2^32, or the first node of the tree if
    there is none; on an empty tree they stop at once.  When no session
    was touched since it was stored, no node is skipped: the eviction
    scan visits and trashes the first [to_batch] nodes of [scan_order],
    going on from the first node of the tree at its end, and the sweep
    visits and trashes the nodes of [scan_order] up to the first one whose
    key is later than [now], the key it returns. *)
Theorem scans_follow_scan_order (t : stktable) (now : Z) :
  (∀ to_batch t' n p v vs,
     trash_oldest_scan t to_batch now = Some (t', n, (p, v) :: vs) →
     head (scan_order t now) = Some p)
  ∧ (∀ t' r p v vs,
     trash_expired_scan t now = Some (t', r, (p, v) :: vs) →
     head (scan_order t now) = Some p)
  ∧ (exps t = [] →
     (∀ to_batch, trash_oldest_scan t to_batch now = Some (t, 0, []))
     ∧ trash_expired_scan t now
       = Some (with_exp_next TICK_ETERNITY t, TICK_ETERNITY, []))
  ∧ (NoDup (exps t) → exps_in_sync t →
     (∀ to_batch,
        let seen := take (Z.to_nat to_batch) (scan_order t now) in
        ∃ t', trash_oldest_scan t to_batch now
                = Some (t', Z.of_nat (length seen), all_trashed seen)
              ∧ ∀ q, q ∈ exps t' ↔ q ∈ exps t ∧ q ∉ seen)
     ∧ (let seen := elapsed_prefix now t (scan_order t now) in
        ∃ t', trash_expired_scan t now
                = Some (t', first_later now t (scan_order t now), all_trashed seen)
              ∧ ∀ q, q ∈ exps t' ↔ q ∈ exps t ∧ q ∉ seen)).
Proof.
  split_and!.
  - intros tb t' n p v vs Hscan. rewrite <- scan_pick_lookup_ge.
    unfold trash_oldest_scan in Hscan. apply trash_oldest_loop_run in Hscan.
    by eapply oldest_run_first.
  - intros t' r p v vs Hscan. rewrite <- scan_pick_lookup_ge.
    unfold trash_expired_scan in Hscan. apply trash_expired_loop_run in Hscan.
    by eapply expired_run_first.
  - intros He. unfold trash_oldest_scan, trash_expired_scan.
    rewrite He. simpl. unfold trash_oldest_body, trash_expired_body.
    simpl. rewrite He. simpl. split; [|done].
    intros tb. by destruct (0 <? tb).
  - intros Hnd Hs.
    pose proof (eb32_below_from (mem t) (exps t) (u32 (now - TIMER_LOOK_BACK))) as Hsp.
    split.
    + intros tb seen.
      destruct (trash_oldest_scan_total t tb now Hnd) as [[[t' n] vs] Hscan].
      exists t'. pose proof Hscan as Hrun.
      unfold trash_oldest_scan in Hrun. apply trash_oldest_loop_run in Hrun.
      destruct (oldest_run_in_sync _ _ _ _ _ _ _ Hrun _ _ Hsp
                  (eb32_lookup_ge_from _ _ _) Hnd Hs) as (Hvs & Hn & Hex).
      rewrite Z.sub_0_r in Hvs, Hn, Hex.
      split; [|done]. rewrite Hscan. subst seen. unfold scan_order.
      by rewrite Hvs, Hn.
    + intros seen.
      destruct (trash_expired_scan_total t now Hnd) as [[[t' r] vs] Hscan].
      exists t'. pose proof Hscan as Hrun.
      unfold trash_expired_scan in Hrun. apply trash_expired_loop_run in Hrun.
      destruct (expired_run_in_sync _ _ _ _ _ _ Hrun _ _ Hsp
                  (eb32_lookup_ge_from _ _ _) Hnd Hs) as (Hvs & Hn & Hex).
      split; [|done]. rewrite Hscan. subst seen. unfold scan_order.
      by rewrite Hvs, Hn.
Qed.

Lemma wrap_in_sync_ok : NoDup (exps wrap_in_sync) ∧ exps_in_sync wrap_in_sync.
Proof.
  split; [apply (bool_decide_unpack _); by vm_compute|].
  intros p Hp. simpl in Hp.
  repeat (apply elem_of_cons in Hp as [->|Hp]); [by vm_compute..|].
  by apply elem_of_nil in Hp.
Qed.

Lemma scans_follow_scan_order_witness :
  (∃ t', trash_oldest_scan wrap_in_sync 2 8
           = Some (t', 2, [(2%nat, Trashed); (3%nat, Trashed)])
         ∧ ∀ q, q ∈ exps t' ↔ q ∈ exps wrap_in_sync ∧ q ∉ [2; 3]%nat)
  ∧ (∃ t', trash_expired_scan wrap_in_sync 8
             = Some (t', TICK_ETERNITY,
                     [(2%nat, Trashed); (3%nat, Trashed); (1%nat, Trashed)])
           ∧ ∀ q, q ∈ exps t' ↔ q ∈ exps wrap_in_sync ∧ q ∉ [2; 3; 1]%nat).
Proof.
  destruct (scans_follow_scan_order wrap_in_sync 8) as (_ & _ & _ & H).
  destruct (H (proj1 wrap_in_sync_ok) (proj2 wrap_in_sync_ok)) as [H1 H2].
  split; [exact (H1 2) | exact H2].
Defined.

(** With a touched session the sweep does skip nodes.  At tick 8 the three nodes of
    [wrap_touched] have keys that are not later than [now]; the sweep
    starts at the node of slot 2, whose session was touched, puts it back
    at tick 16 and goes on from it, since 16 is the smaller key; that key
    is later than [now], so the sweep returns 16: the expired sessions of
    slot 3, keyed near the maximum, and of slot 1, keyed just past zero,
    were not visited. *)
Lemma scans_follow_scan_order_counterexample :
  ¬ (∀ t now t' r vs p,
       NoDup (exps t) → trash_expired_scan t now = Some (t', r, vs) →
       p ∈ exps t → tick_is_lt now (exps_key (deref t p)) = false →
       tick_is_expired (ts_expire (deref t p)) now = true →
       p ∈ vs.*1).
Proof.
  intros H.
  assert (Hin : 3%nat ∈ [(2%nat, Restamped)].*1).
  { apply (H wrap_touched 8
             (with_exp_next 16
                (eb32_insert 2%nat (poke 2%nat (with_exps_key 16)
                   (eb32_delete 2%nat wrap_touched))))
             16 [(2%nat, Restamped)] 3%nat).
    - apply (bool_decide_unpack _). by vm_compute.
    - by vm_compute.
    - set_solver.
    - by vm_compute.
    - by vm_compute. }
  simpl in Hin. apply elem_of_cons in Hin as [?|Hin]; [done|].
  by apply elem_of_nil in Hin.
Qed.

Example wrap_touched_sweep :
  ∃ t', trash_expired_scan wrap_touched 8 = Some (t', 16, [(2%nat, Restamped)])
        ∧ exps t' = [1; 2; 3]%nat ∧ keys t' = [3; 2; 1]%nat ∧ current t' = 3.
Proof. eexists. split; [by vm_compute|]. by vm_compute. Qed.

(** ** The expiration tree of a reachable table is in key order *)

Lemma StronglySorted_agree (f g : ptr → Z) (l : list ptr) :
  (∀ q, q ∈ l → f q = g q) →
  StronglySorted (λ p q, f p ≤ f q) l → StronglySorted (λ p q, g p ≤ g q) l.
Proof.
  induction l as [|p l IH]; intros H Hs; [constructor|].
  apply StronglySorted_cons in Hs as [Hp Hs]. apply StronglySorted_cons. split.
  - rewrite Forall_forall in *. intros q Hq.
    rewrite <- (H p), <- (H q); [by apply Hp|by right|left].
  - apply IH; [|done]. intros q Hq. apply H. by right.
Qed.

Lemma StronglySorted_unlink (R : relation ptr) p l :
  StronglySorted R l → StronglySorted R (unlink p l).
Proof.
  induction l as [|q l IH]; intros Hs; [constructor|].
  apply StronglySorted_cons in Hs as [Hq Hs].
  destruct (decide (q = p)) as [->|Hne].
  - rewrite unlink_cons_eq. auto.
  - rewrite unlink_cons_ne by done. apply StronglySorted_cons. split; [|auto].
    rewrite Forall_forall in *. intros x [_ Hx]%elem_of_unlink. auto.
Qed.

Lemma StronglySorted_eb32_place m l p :
  StronglySorted (λ a b, exps_key (m !!! a) ≤ exps_key (m !!! b)) l →
  StronglySorted (λ a b, exps_key (m !!! a) ≤ exps_key (m !!! b)) (eb32_place m l p).
Proof.
  induction l as [|q l IH]; intros Hs; simpl.
  - repeat constructor.
  - destruct (Z.ltb_spec (exps_key (m !!! p)) (exps_key (m !!! q))) as [Hlt|Hge].
    + apply StronglySorted_cons. split; [|done].
      apply StronglySorted_cons in Hs as [Hq _].
      rewrite Forall_forall in *. intros x [->|Hx]%elem_of_cons; [lia|].
      specialize (Hq x Hx). simpl in Hq. lia.
    + apply StronglySorted_cons in Hs as [Hq Hs].
      apply StronglySorted_cons. split; [|auto].
      rewrite Forall_forall in *.
      intros x [->|Hx]%elem_of_eb32_place; [lia|auto].
Qed.

Lemma exps_sorted_frame t t' :
  exps t' = exps t →
  (∀ q, q ∈ exps t → exps_key (deref t' q) = exps_key (deref t q)) →
  exps_sorted t → exps_sorted t'.
Proof.
  intros He Hk [Hs Hr]. split; rewrite He.
  - revert Hs. apply StronglySorted_agree. intros q Hq. by rewrite Hk.
  - intros q Hq. rewrite Hk by done. auto.
Qed.

Lemma exps_sorted_trash t ts :
  exps_sorted t → exps_sorted (stksess_free (ebmb_delete ts (eb32_delete ts t)) ts).
Proof.
  intros [Hs Hr]. split; simpl.
  - apply (StronglySorted_unlink _ ts) in Hs. revert Hs.
    apply StronglySorted_agree. intros q [Hq _]%elem_of_unlink. by deref_simpl.
  - intros q [Hq Hin]%elem_of_unlink. specialize (Hr q Hin). by deref_simpl.
Qed.

Lemma oldest_run_sorted owned tb t eb b t' n vs :
  oldest_run tb t eb b t' n vs → table_inv owned t → cursor_ok t eb →
  exps_sorted t → exps_sorted t'.
Proof.
  induction 1 as [t eb b Hb|t eb b Hb Hbody
                 |t eb b t1 eb1 b1 v t' n vs Hb Hbody Hrun IH]; intros Hi Hc Hso;
    [done|done|].
  destruct (trash_oldest_body_measure _ _ _ _ _ _ _ (inv_exps _ _ Hi) Hc Hbody)
    as (_ & Hc1 & _).
  apply trash_oldest_body_cases in Hbody as (ts & Hts & Hcs). simpl in Hcs.
  apply (scan_pick_elem _ _ _ Hc) in Hts.
  destruct (inv_sync _ _ Hi ts Hts) as [Hsy Hnz].
  destruct Hcs as [(Hne & _)|[(Hne & _)|(_ & -> & -> & -> & ->)]]; [done|done|].
  destruct (table_inv_trash owned t ts Hi Hts) as [Hi1 _].
  apply IH; [done|done|by apply exps_sorted_trash].
Qed.

Lemma expired_run_sorted owned now t eb t' r vs :
  expired_run now t eb t' r vs → table_inv owned t → cursor_ok t eb →
  exps_sorted t → exps_sorted t'.
Proof.
  induction 1 as [t eb Hbody|t eb t' Hbody|t eb t1 eb1 v t' r vs Hbody Hrun IH];
    intros Hi Hc Hso.
  - done.
  - pose proof (trash_expired_body_cases t eb now) as Hcs. rewrite Hbody in Hcs.
    by destruct Hcs as (ts & _ & _ & ->).
  - destruct (trash_expired_body_measure _ _ _ _ _ _ (inv_exps _ _ Hi) Hc Hbody)
      as (_ & Hc1 & _).
    pose proof (trash_expired_body_cases t eb now) as Hcs. rewrite Hbody in Hcs.
    destruct Hcs as (ts & Hts & Hlt & Hcs). simpl in Hcs.
    apply (scan_pick_elem _ _ _ Hc) in Hts.
    destruct (inv_sync _ _ Hi ts Hts) as [Hsy Hnz].
    destruct Hcs as [(_ & Hz & _)|[(Hne & _)|(_ & -> & -> & ->)]]; [done| |].
    { rewrite Hsy in Hne, Hnz.
      by rewrite (tick_not_expired_lt _ _ Hne Hnz) in Hlt. }
    destruct (table_inv_trash owned t ts Hi Hts) as [Hi1 _].
    apply IH; [done|done|by apply exps_sorted_trash].
Qed.

Lemma tick_add_range now timeout : 0 ≤ tick_add now timeout < 2 ^ 32.
Proof.
  unfold tick_add, u32.
  pose proof (Z.mod_pos_bound (now + timeout) (2 ^ 32) eq_refl).
  destruct (_ =? 0); lia.
Qed.

Lemma stksess_init_exps_key t ts k q :
  exps_key (deref (stksess_init t ts k) q) = exps_key (deref t q).
Proof.
  unfold stksess_init, stksess_key.
  set (t1 := poke ts (with_sid 0) _).
  destruct (is_string (type t1)); subst t1; cbn [negb]; cbv zeta; by deref_simpl.
Qed.

Lemma stksess_new_sorted owned t k now t' r :
  table_inv owned t → exps_sorted t → stksess_new t k now = Some (t', r) →
  exps_sorted t'.
Proof.
  intros Hi Hso. unfold stksess_new.
  destruct (stksess_new_room t now) as [[ta go]|] eqn:Hroom; [|done].
  assert (Hsa : exps_sorted ta).
  { unfold stksess_new_room in Hroom.
    destruct (current t =? size t); [|by simplify_eq].
    destruct (negb (nopurge t =? 0)); [by simplify_eq|].
    destruct (stktable_trash_oldest t _ now) as [[t1 n]|] eqn:Ht; [|done].
    injection Hroom as <- <-.
    apply stktable_trash_oldest_run in Ht as [vs Hrun].
    by apply (oldest_run_sorted owned _ _ _ _ _ _ _ Hrun Hi (cursor_ok_lookup_ge _ _)). }
  destruct go; [|by intros [= <- <-]].
  intros [= Ha]. unfold stksess_new_alloc in Ha.
  destruct (pool_alloc2 (pool ta)) as [[ts pl]|]; [|by simplify_eq].
  injection Ha as <- <-. revert Hsa. apply exps_sorted_frame.
  - unfold stksess_init, stksess_key. by destruct (is_string _).
  - intros q _. by rewrite stksess_init_exps_key.
Qed.

Lemma stktable_store_sorted owned t ts s now t' r :
  table_inv owned t → ts ∈ owned → exps_sorted t →
  stktable_store t ts s now = (t', r) → exps_sorted t'.
Proof.
  intros Hi Hts Hso Hst.
  destruct (store_lookup t ts) as [e|] eqn:Hlk.
  - rewrite (stktable_store_dup _ _ _ _ _ Hlk) in Hst. injection Hst as <- <-.
    destruct (negb (sid (deref t e) =? s)); [|done].
    revert Hso. apply exps_sorted_frame; [done|]. intros q _. by deref_simpl.
  - destruct (stktable_store_new _ _ _ _ _ _ Hlk Hst)
      as (_ & _ & He & _ & _ & _ & _ & _ & Hek & _ & _ & _ & Hfr & _).
    destruct (table_inv_owned_keys _ _ _ Hi Hts) as (_ & Hne & _).
    destruct Hso as [Hs Hr]. split; rewrite He.
    + apply StronglySorted_eb32_place. revert Hs.
      apply StronglySorted_agree. intros q Hq.
      change (exps_key (deref t q) = exps_key (deref t' q)).
      rewrite Hfr; [done|congruence].
    + intros q [->|Hq]%elem_of_eb32_place.
      * rewrite Hek. apply tick_add_range.
      * rewrite Hfr by congruence. auto.
Qed.

Lemma process_table_expire_sorted owned t now t' :
  table_inv owned t → exps_sorted t → process_table_expire t now = Some t' →
  exps_sorted t'.
Proof.
  intros Hi Hso. unfold process_table_expire.
  destruct (stktable_trash_expired t now) as [[t1 r]|] eqn:Ht; [|done].
  intros [= <-]. apply stktable_trash_expired_run in Ht as [vs Hrun].
  by apply (expired_run_sorted owned _ _ _ _ _ _ Hrun Hi (cursor_ok_lookup_ge _ _)).
Qed.

Lemma reachable_sorted t owned : reachable t owned → exps_sorted t.
Proof.
  induction 1 as [t0 created t Hz Hsz Hnd Hinit
                 |t owned k now t' r Hre IH Hnew
                 |t owned ts s now t' r Hre IH Hts Hst
                 |t owned ts Hre IH Hts
                 |t owned now t' Hre IH Hex].
  - destruct Hz as (_ & He & _).
    assert (Het : exps t = []).
    { unfold stktable_init in Hinit.
      destruct (negb (size t0 =? 0)); simpl in Hinit;
        [destruct (negb (expire t0 =? 0))|]; inversion Hinit; by subst. }
    split; rewrite Het; [constructor|]. intros p Hp. by apply elem_of_nil in Hp.
  - apply (stksess_new_sorted owned t k now t' r); auto using reachable_inv.
  - apply (stktable_store_sorted owned t ts s now t' r); auto using reachable_inv.
  - done.
  - apply (process_table_expire_sorted owned t now t'); auto using reachable_inv.
Qed.

(** ** The sweep of a reachable table trashes every expired session *)

Lemma tick_is_lt_scanned_before now k1 k2 :
  0 ≤ k1 < 2 ^ 32 → 0 ≤ k2 < 2 ^ 32 → k1 ≠ u32 (now - TIMER_LOOK_BACK) →
  scanned_before (u32 (now - TIMER_LOOK_BACK)) k1 k2 →
  tick_is_lt now k2 = false → tick_is_lt now k1 = false.
Proof.
  unfold scanned_before, tick_is_lt, s32, u32, TIMER_LOOK_BACK.
  change (2 ^ 32) with 4294967296. change (2 ^ 31) with 2147483648.
  intros H1 H2 Hne Hb Hlt. apply Z.ltb_ge in Hlt. apply Z.ltb_ge.
  destruct (Z.ltb_spec ((now - k1) mod 4294967296) 2147483648);
    destruct (Z.ltb_spec ((now - k2) mod 4294967296) 2147483648);
    Z.div_mod_to_equations; lia.
Qed.

Lemma tick_expired_not_lt now k :
  0 ≤ k < 2 ^ 32 → k ≠ u32 (now - TIMER_LOOK_BACK) →
  tick_is_expired k now = true → tick_is_lt now k = false.
Proof.
  unfold tick_is_expired, tick_is_lt, tick_isset, s32, u32, TIMER_LOOK_BACK.
  change (2 ^ 32) with 4294967296. change (2 ^ 31) with 2147483648.
  intros H1 Hne He. destruct (negb (k =? 0)); [|done]. simpl in He.
  apply Z.ltb_ge.
  destruct (Z.ltb_spec ((k - now) mod 4294967296) 2147483648);
    destruct (Z.ltb_spec ((now - k) mod 4294967296) 2147483648);
    destruct (Z.leb_spec ((k - now) mod 4294967296) 0);
    destruct (Z.leb_spec ((k - now) mod 4294967296 - 4294967296) 0);
    try done; Z.div_mod_to_equations; lia.
Qed.

Lemma eb32_below_lt m l x p : p ∈ eb32_below m l x → exps_key (m !!! p) < x.
Proof.
  induction l as [|q l IH]; simpl; [by rewrite elem_of_nil|].
  destruct (Z.leb_spec x (exps_key (m !!! q))); [by rewrite elem_of_nil|].
  intros [->|Hp]%elem_of_cons; auto.
Qed.

Lemma eb32_from_ge m l x p :
  StronglySorted (λ a b, exps_key (m !!! a) ≤ exps_key (m !!! b)) l →
  p ∈ eb32_from m l x → x ≤ exps_key (m !!! p).
Proof.
  induction l as [|q l IH]; simpl; [by rewrite elem_of_nil|].
  intros [Hq Hs]%StronglySorted_cons.
  destruct (Z.leb_spec x (exps_key (m !!! q))); [|auto].
  intros [->|Hp]%elem_of_cons; [done|].
  rewrite Forall_forall in Hq. specialize (Hq p Hp). simpl in Hq. lia.
Qed.

Lemma StronglySorted_impl_elem {A} (R R' : relation A) (l : list A) :
  (∀ a b, a ∈ l → b ∈ l → R a b → R' a b) →
  StronglySorted R l → StronglySorted R' l.
Proof.
  induction l as [|x l IH]; intros H Hs; [constructor|].
  apply StronglySorted_cons in Hs as [Hx Hs]. apply StronglySorted_cons. split.
  - rewrite Forall_forall in *. intros y Hy. apply H; [left|by right|auto].
  - apply IH; [|done]. intros a b Ha Hb. apply H; by right.
Qed.

(** In a tree in key order the scan goes through the keys in the order
    [scanned_before]. *)
Lemma scan_order_sorted t now :
  exps_sorted t →
  StronglySorted (λ p q, scanned_before (u32 (now - TIMER_LOOK_BACK))
                           (exps_key (deref t p)) (exps_key (deref t q)))
    (scan_order t now).
Proof.
  intros [Hs _]. unfold scan_order. set (x := u32 (now - TIMER_LOOK_BACK)).
  pose proof (eb32_below_from (mem t) (exps t) x) as Hsp.
  assert (Hge : ∀ p, p ∈ eb32_from (mem t) (exps t) x → x ≤ exps_key (deref t p))
    by (intros p; by apply eb32_from_ge).
  assert (Hlt : ∀ p, p ∈ eb32_below (mem t) (exps t) x → exps_key (deref t p) < x)
    by (intros p; by apply eb32_below_lt).
  rewrite Hsp in Hs. apply StronglySorted_app in Hs as (_ & Hsb & Hsf).
  apply StronglySorted_app_2.
  - intros p q Hp Hq. right; right. auto.
  - revert Hsf. apply StronglySorted_impl_elem. intros p q Hp Hq Hle. left.
    split; [auto|done].
  - revert Hsb. apply StronglySorted_impl_elem. intros p q Hp Hq Hle. right; left.
    split; [done|auto].
Qed.

Lemma elapsed_prefix_complete now t (R : relation ptr) l :
  StronglySorted R l →
  (∀ p q, p ∈ l → q ∈ l → R p q →
     tick_is_lt now (exps_key (deref t q)) = false →
     tick_is_lt now (exps_key (deref t p)) = false) →
  ∀ q, q ∈ l → tick_is_lt now (exps_key (deref t q)) = false →
       q ∈ elapsed_prefix now t l.
Proof.
  induction l as [|p l IH]; intros Hs Hmono q Hq Hlt; [by apply elem_of_nil in Hq|].
  apply StronglySorted_cons in Hs as [Hp Hs]. rewrite Forall_forall in Hp.
  simpl.
  assert (Hpe : tick_is_lt now (exps_key (deref t p)) = false).
  { apply elem_of_cons in Hq as [->|Hq]; [done|].
    apply (Hmono p q); [left|by right|auto|done]. }
  rewrite Hpe. apply elem_of_cons in Hq as [->|Hq]; [left|right].
  apply IH; [done| |done|done].
  intros a b Ha Hb. apply Hmono; by right.
Qed.

Lemma elem_of_scan_order t now p : p ∈ scan_order t now ↔ p ∈ exps t.
Proof.
  unfold scan_order.
  rewrite (eb32_below_from (mem t) (exps t) (u32 (now - TIMER_LOOK_BACK))) at 3.
  rewrite !elem_of_app. tauto.
Qed.

Lemma elem_of_trashed p vs : p ∈ trashed vs ↔ (p, Trashed) ∈ vs.
Proof.
  induction vs as [|[q []] vs IH]; simpl.
  - by rewrite !elem_of_nil.
  - rewrite elem_of_cons, IH. split; [by right|]. by intros [?|?].
  - rewrite elem_of_cons, IH. split; [by right|]. by intros [?|?].
  - rewrite !elem_of_cons, IH. split.
    + intros [->|?]; auto.
    + intros [[= ->]|?]; auto.
Qed.

(** The visits of the sweep of a table whose sessions were not touched. *)
Lemma trash_expired_scan_in_sync t now t' r vs :
  NoDup (exps t) → exps_in_sync t →
  trash_expired_scan t now = Some (t', r, vs) →
  vs = all_trashed (elapsed_prefix now t (scan_order t now))
  ∧ r = first_later now t (scan_order t now)
  ∧ ∀ q, q ∈ exps t' ↔ q ∈ exps t ∧ q ∉ elapsed_prefix now t (scan_order t now).
Proof.
  intros Hnd Hs Hscan. unfold trash_expired_scan in Hscan.
  apply trash_expired_loop_run in Hscan.
  apply (expired_run_in_sync _ _ _ _ _ _ Hscan _ _
           (eb32_below_from _ _ _) (eb32_lookup_ge_from _ _ _) Hnd Hs).
Qed.

(** The sweep of a reachable table visits and trashes every session whose
    date has expired, unless a key is exactly [now - TIMER_LOOK_BACK]. *)
Lemma trash_expired_scan_reachable t owned now t' r vs :
  reachable t owned →
  (∀ p, p ∈ exps t → exps_key (deref t p) ≠ u32 (now - TIMER_LOOK_BACK)) →
  trash_expired_scan t now = Some (t', r, vs) →
  ∀ p, p ∈ keys t → tick_is_expired (ts_expire (deref t p)) now = true →
       (p, Trashed) ∈ vs.
Proof.
  intros Hre Hfar Hscan p Hp He.
  pose proof (reachable_inv _ _ Hre) as Hi.
  pose proof (reachable_sorted _ _ Hre) as Hso.
  destruct (trash_expired_scan_in_sync t now t' r vs (inv_exps _ _ Hi)
              (inv_sync _ _ Hi) Hscan) as (-> & _ & _).
  apply (inv_both _ _ Hi) in Hp.
  apply elem_of_all_trashed. split; [|done].
  apply (elapsed_prefix_complete now t _ _ (scan_order_sorted t now Hso)).
  - intros a b Ha%elem_of_scan_order Hb%elem_of_scan_order.
    apply tick_is_lt_scanned_before; [apply Hso| apply Hso|]; auto.
  - by apply elem_of_scan_order.
  - destruct (inv_sync _ _ Hi p Hp) as [Hsy _]. rewrite Hsy in He.
    apply tick_expired_not_lt; [by apply Hso|auto|done].
Qed.


(** On the full table of the scenario the sweep of tick 1200 trashes
    "alice" and returns the date of "bob"; the sweep of tick 1301 trashes
    both and returns [TICK_ETERNITY]. *)
Example scenario_sweep_1200 :
  ∃ t', trash_expired_scan scenario_full 1200 = Some (t', 1300, [(1%nat, Trashed)])
        ∧ keys t' = [2%nat] ∧ exps t' = [2%nat] ∧ current t' = 1
        ∧ pool t' = [1; 3]%nat ∧ exp_next t' = 1300.
Proof. eexists. split; [by vm_compute|]. by vm_compute. Qed.

Example scenario_sweep_1301 :
  ∃ t', trash_expired_scan scenario_full 1301
          = Some (t', TICK_ETERNITY, [(1%nat, Trashed); (2%nat, Trashed)])
        ∧ keys t' = [] ∧ exps t' = [] ∧ current t' = 0
        ∧ pool t' = [2; 1; 3]%nat ∧ exp_next t' = TICK_ETERNITY.
Proof. eexists. split; [by vm_compute|]. by vm_compute. Qed.

(** ** Eviction on larger tables *)

Lemma oldest_run_pool tb t eb b t' n vs :
  oldest_run tb t eb b t' n vs → pool t' = reverse (trashed vs) ++ pool t.
Proof.
  induction 1 as [t eb b Hb|t eb b Hb Hbody
                 |t eb b t1 eb1 b1 v t' n vs Hb Hbody Hrun IH]; [done|done|].
  rewrite IH.
  apply trash_oldest_body_cases in Hbody as (ts & _ & Hcs). simpl in Hcs.
  destruct Hcs as [(_ & _ & -> & _ & _ & ->)
                  |[(_ & _ & -> & _ & _ & ->)
                  |(_ & -> & _ & _ & ->)]]; simpl; [done|done|].
  by rewrite reverse_cons, <- app_assoc.
Qed.

Lemma trashed_all_trashed l : trashed (all_trashed l) = l.
Proof. induction l as [|p l IH]; simpl; [done|by rewrite IH]. Qed.

(** X13.  On a reachable full table of at least 256 sessions, [nopurge]
    unset, with a stored session, the eviction [stksess_new] starts
    trashes at least one session and at most [size >> 8], and
    [stksess_new] returns a session. *)
Lemma stksess_new_large_table_full t owned k now :
  reachable t owned → current t = size t → nopurge t = 0 →
  256 ≤ size t → exps t ≠ [] →
  ∃ ta n t' ts,
    stktable_trash_oldest t (Z.shiftr (size t) 8) now = Some (ta, n) ∧
    1 ≤ n ≤ Z.shiftr (size t) 8 ∧
    stksess_new t k now = Some (t', Some ts).
Proof.
  intros Hre Hc Hp Hsz Hne. pose proof (reachable_inv _ _ Hre) as Hi.
  set (tb := Z.shiftr (size t) 8).
  assert (Htb : 1 ≤ tb).
  { subst tb. rewrite Z.shiftr_div_pow2 by lia.
    change (2 ^ 8) with 256. apply Z.div_le_lower_bound; lia. }
  destruct (trash_oldest_scan_total t tb now (inv_exps _ _ Hi)) as [[[ta n] vs] Hscan].
  pose proof Hscan as Hrun. unfold trash_oldest_scan in Hrun.
  apply trash_oldest_loop_run in Hrun.
  destruct (oldest_run_in_sync _ _ _ _ _ _ _ Hrun _ _
              (eb32_below_from _ _ _) (eb32_lookup_ge_from _ _ _)
              (inv_exps _ _ Hi) (inv_sync _ _ Hi)) as (Hvs & Hn & _).
  pose proof (oldest_run_pool _ _ _ _ _ _ _ Hrun) as Hpool.
  rewrite Z.sub_0_r in Hvs, Hn. fold (scan_order t now) in Hvs, Hn.
  destruct (scan_order t now) as [|p0 rest] eqn:Hso.
  { destruct (exps t) as [|q l] eqn:He; [done|].
    assert (Hq : q ∈ scan_order t now) by (apply elem_of_scan_order; rewrite He; left).
    rewrite Hso in Hq. by apply elem_of_nil in Hq. }
  destruct (Z.to_nat tb) as [|k'] eqn:Hk; [lia|]. simpl in Hvs, Hn.
  rewrite Hvs in Hpool. simpl in Hpool.
  rewrite trashed_all_trashed, reverse_cons, <- app_assoc in Hpool.
  assert (Hlen : Z.of_nat (length (take k' rest)) ≤ Z.of_nat k')
    by (rewrite length_take; lia).
  exists ta, n. unfold stktable_trash_oldest, stksess_new, stksess_new_room.
  rewrite Hscan, Hc, Z.eqb_refl, Hp. simpl. fold tb.
  unfold stktable_trash_oldest. rewrite Hscan.
  destruct (Z.eqb_spec n 0) as [|_]; [lia|]. simpl.
  unfold stksess_new_alloc, pool_alloc2.
  destruct (pool ta) as [|ts pl] eqn:Hpl.
  { symmetry in Hpool. apply app_eq_nil in Hpool as [_ Hpool]. done. }
  eexists _, ts. split_and!; [done|lia|lia|done].
Qed.

(** * Further properties of the file *)

(** ** Stored keys *)


(** X1.  The key the lookups read in a session after [stksess_key] is a
    function of the raw key alone: the bytes the slot held before, stale
    or not, do not show in it.  The key buffer keeps its size, the rest of
    the table is left alone, and a second [stksess_key] on the session
    replaces the key by the new one. *)
Theorem stksess_key_overwrites (t : stktable) (ts : ptr) (k k2 : stktable_key) :
  1 ≤ key_size t < 2 ^ 64 →
  key_size t ≤ Z.of_nat (length (keys_key (deref t ts))) →
  key_readable t k → key_readable t k2 →
  let t1 := stksess_key t ts k in
  stored_key t1 ts = normal_key t k
  ∧ length (keys_key (deref t1 ts)) = length (keys_key (deref t ts))
  ∧ (∀ q, q ≠ ts → deref t1 q = deref t q)
  ∧ keys t1 = keys t ∧ exps t1 = exps t ∧ pool t1 = pool t ∧ current t1 = current t
  ∧ stored_key (stksess_key t1 ts k2) ts = normal_key t k2
  ∧ (normal_key t k = normal_key t k2 →
     stored_key (stksess_key t ts k2) ts = stored_key t1 ts).
Proof.
  intros Hks Hbuf Hrd Hrd2 t1.
  destruct (stksess_key_stored_key t ts k Hks Hbuf Hrd) as [Hk1 Hl1].
  destruct (stksess_key_config t ts k)
    as (Hkeys & Hexps & Hpool & Hcur & _ & _ & (_ & Hty & Hsz & _) & Hfr).
  fold t1 in Hk1, Hl1, Hkeys, Hexps, Hpool, Hcur, Hty, Hsz, Hfr.
  split_and!; try done.
  - destruct (stksess_key_stored_key t1 ts k2) as [Hk2 _];
      try (unfold key_readable; rewrite ?Hty, ?Hsz, ?Hl1; done).
    rewrite Hk2. unfold normal_key. by rewrite Hty, Hsz.
  - intros Heq. rewrite Hk1, Heq.
    by destruct (stksess_key_stored_key t ts k2 Hks Hbuf Hrd2) as [-> _].
Qed.

Lemma stksess_key_overwrites_witness :
  stored_key (stksess_key scenario_empty 1%nat alexandra) 1%nat
    = [97; 108; 101; 120; 97; 110; 100; 114]
  ∧ stored_key (stksess_key (stksess_key scenario_empty 1%nat alexandra) 1%nat bob) 1%nat
    = [98; 111; 98].
Proof.
  destruct (stksess_key_overwrites scenario_empty 1%nat alexandra bob
              ltac:(simpl; lia) ltac:(by vm_compute)
              ltac:(unfold key_readable; simpl; lia)
              ltac:(unfold key_readable; simpl; lia))
    as (H1 & _ & _ & _ & _ & _ & _ & H2 & _).
  split; [exact H1 | exact H2].
Defined.

(** ** Lookups *)

Lemma eb_find_ext (f g : ptr → bool) l :
  (∀ p, p ∈ l → f p = g p) → eb_find f l = eb_find g l.
Proof.
  induction l as [|p l IH]; intros H; simpl; [done|].
  rewrite (H p) by left. rewrite IH; [done|].
  intros q Hq. apply H. by right.
Qed.

Lemma eb_find_none_2 (f : ptr → bool) l :
  (∀ p, p ∈ l → f p = false) → eb_find f l = None.
Proof.
  intros H. destruct (eb_find f l) as [p|] eqn:Hf; [|done].
  apply eb_find_some in Hf as [Hp Hfp]. rewrite (H p Hp) in Hfp. done.
Qed.

(** Both lookups of the file search the key tree for a stored key. *)
Lemma stktable_lookup_find t k :
  stktable_lookup t k
  = eb_find (λ p, bool_decide (stored_key t p = lookup_key t k)) (keys t).
Proof.
  unfold stktable_lookup, stored_key, lookup_key, ebst_lookup_len, ebmb_lookup, deref.
  by destruct (is_string (type t)).
Qed.

Lemma store_lookup_find t ts :
  store_lookup t ts
  = eb_find (λ p, bool_decide (stored_key t p = stored_key t ts)) (keys t).
Proof.
  unfold store_lookup, stored_key, ebst_lookup, ebmb_lookup, deref.
  by destruct (is_string (type t)).
Qed.

Lemma stktable_lookup_some t k p :
  stktable_lookup t k = Some p → p ∈ keys t ∧ stored_key t p = lookup_key t k.
Proof.
  rewrite stktable_lookup_find. intros [Hp Hk]%eb_find_some.
  by apply bool_decide_eq_true in Hk.
Qed.

Lemma stktable_lookup_none t k :
  stktable_lookup t k = None ↔ ∀ p, p ∈ keys t → stored_key t p ≠ lookup_key t k.
Proof.
  rewrite stktable_lookup_find. split.
  - intros H p Hp. apply (eb_find_none _ _ H) in Hp.
    by apply bool_decide_eq_false in Hp.
  - intros H. apply eb_find_none_2. intros p Hp.
    apply bool_decide_eq_false. by apply H.
Qed.

(** The lookup of a table whose sessions have pairwise different keys
    returns the session with the key, wherever it is in the tree. *)
Lemma stktable_lookup_unique t k p :
  (∀ a b, a ∈ keys t → b ∈ keys t → stored_key t a = stored_key t b → a = b) →
  p ∈ keys t → stored_key t p = lookup_key t k →
  stktable_lookup t k = Some p.
Proof.
  intros Hu Hp Hk.
  destruct (stktable_lookup t k) as [q|] eqn:Hl.
  - apply stktable_lookup_some in Hl as [Hq Hkq].
    f_equal. apply Hu; [done|done|congruence].
  - rewrite stktable_lookup_none in Hl. by destruct (Hl p Hp).
Qed.

Lemma key_fits_readable t k : key_fits t k → key_readable t k.
Proof.
  unfold key_fits, key_readable. destruct (is_string (type t)); [lia|done].
Qed.

Lemma lookup_key_normal t k :
  key_fits t k → lookup_key t k = normal_key t k.
Proof.
  unfold key_fits, lookup_key, normal_key.
  destruct (is_string (type t)); [|done].
  intros (Hl & _ & Hz). rewrite Z.min_r by lia. by rewrite cstr_no_zero.
Qed.

Lemma lookup_key_config t t' k :
  same_config t t' → lookup_key t' k = lookup_key t k.
Proof. intros (_ & Hty & Hsz & _). unfold lookup_key. by rewrite Hty, Hsz. Qed.

Lemma stored_key_poke_sid e s t p :
  stored_key (poke e (with_sid s) t) p = stored_key t p.
Proof. apply stored_key_frame; [done|done|]. by deref_simpl. Qed.


Lemma expired_run_keys_key now t eb t' r vs :
  expired_run now t eb t' r vs →
  ∀ q, keys_key (deref t' q) = keys_key (deref t q) ∧ sid (deref t' q) = sid (deref t q).
Proof.
  induction 1 as [t eb Hbody|t eb t' Hbody|t eb t1 eb1 v t' r vs Hbody Hrun IH];
    intros q.
  - done.
  - pose proof (trash_expired_body_cases t eb now) as Hcs. rewrite Hbody in Hcs.
    by destruct Hcs as (ts & _ & _ & ->).
  - destruct (IH q) as [-> ->].
    pose proof (trash_expired_body_cases t eb now) as Hcs. rewrite Hbody in Hcs.
    destruct Hcs as (ts & _ & _ & Hcs). simpl in Hcs.
    destruct Hcs as [(_ & _ & -> & _)|[(_ & _ & -> & _)|(_ & -> & _)]]; by deref_simpl.
Qed.


(** X2.  A key that fits the table, given to [stksess_new] and stored with
    [stktable_store], is found by [stktable_lookup]: the lookup returns a
    session that holds the key and the server id of the store.  It is the
    new session if the store returned 0; if it returned 1 it is the
    session the lookup found before the store. *)
Theorem store_then_lookup (t : stktable) (k : stktable_key) (now now' s : Z)
    (t1 t2 : stktable) (ts : ptr) (r : Z) :
  1 ≤ key_size t < 2 ^ 64 → key_fits t k →
  stksess_new t k now = Some (t1, Some ts) →
  key_size t ≤ Z.of_nat (length (keys_key (deref t ts))) →
  stktable_store t1 ts s now' = (t2, r) →
  ∃ p, stktable_lookup t2 k = Some p
       ∧ sid (deref t2 p) = s
       ∧ stored_key t2 p = normal_key t k
       ∧ ((r = 0 ∧ p = ts ∧ stktable_lookup t1 k = None)
          ∨ (r = 1 ∧ stktable_lookup t1 k = Some p)).
Proof.
  intros Hks Hfit Hnew Hbuf Hst.
  destruct (stksess_new_stored_key t k now t1 ts Hks (key_fits_readable _ _ Hfit)
              Hnew Hbuf) as [Hcfg Hk1].
  assert (Hnk : lookup_key t1 k = normal_key t k).
  { rewrite (lookup_key_config t t1) by done. by apply lookup_key_normal. }
  assert (Hsame : store_lookup t1 ts = stktable_lookup t1 k).
  { rewrite store_lookup_find, stktable_lookup_find. by rewrite Hk1, Hnk. }
  destruct (store_lookup t1 ts) as [e|] eqn:Hlk.
  - rewrite (stktable_store_dup _ _ _ _ _ Hlk) in Hst. injection Hst as <- <-.
    exists e.
    assert (Hl2 : stktable_lookup
                    (if negb (sid (deref t1 e) =? s) then poke e (with_sid s) t1 else t1) k
                  = Some e).
    { rewrite Hsame.
      destruct (negb (sid (deref t1 e) =? s)); [|done].
      rewrite !stktable_lookup_find. apply eb_find_ext. intros p _.
      by rewrite stored_key_poke_sid. }
    symmetry in Hsame. apply stktable_lookup_some in Hsame as Hs'.
    destruct Hs' as [He Hke].
    split_and!; [done| | |by right].
    + destruct (Z.eqb_spec (sid (deref t1 e)) s); simpl; [done|by deref_simpl].
    + rewrite <- Hnk, <- Hke.
      destruct (negb (sid (deref t1 e) =? s)); [apply stored_key_poke_sid|done].
  - destruct (stktable_store_new _ _ _ _ _ _ Hlk Hst)
      as (-> & Hkeys & _ & _ & _ & Hcfg2 & Hsid & _ & _ & _ & _ & Hkk & _).
    exists ts.
    assert (Hsk : stored_key t2 ts = lookup_key t2 k).
    { rewrite (lookup_key_config t1 t2) by done. rewrite Hnk, <- Hk1.
      destruct Hcfg2 as (_ & Hty & Hsz & _). by apply stored_key_frame. }
    split_and!; [|done| |left; by rewrite <- Hsame].
    + rewrite stktable_lookup_find, Hkeys. simpl.
      by rewrite bool_decide_eq_true_2.
    + by rewrite Hsk, (lookup_key_config t1 t2).
Qed.

Lemma store_then_lookup_witness :
  ∃ p, stktable_lookup scenario_full bob = Some p
       ∧ sid (deref scenario_full p) = 3
       ∧ stored_key scenario_full p = normal_key scenario_one bob
       ∧ ((0 = 0 ∧ p = 2%nat
           ∧ stktable_lookup (stksess_new_alloc scenario_one bob).1 bob = None)
          ∨ (0 = 1
             ∧ stktable_lookup (stksess_new_alloc scenario_one bob).1 bob = Some p)).
Proof.
  apply (store_then_lookup scenario_one bob 300 300 3
           (stksess_new_alloc scenario_one bob).1 scenario_full 2%nat 0).
  - simpl. lia.
  - unfold key_fits. simpl. split_and!; [lia|lia|lia|].
    apply (bool_decide_unpack _). by vm_compute.
  - reflexivity.
  - by vm_compute.
  - by vm_compute.
Defined.

(** X3.  A string key longer than [key_size - 1] bytes is stored as its
    first [key_size - 1] bytes, and [stktable_lookup] compares whole
    strings: after the store, the lookup of the same raw key with its full
    length does not return the stored session, the lookup with the length
    [key_size - 1] does. *)
Theorem lookup_misses_truncated_key (t : stktable) (k : stktable_key)
    (now now' s : Z) (t1 t2 : stktable) (ts : ptr) :
  is_string (type t) = true →
  1 ≤ key_size t < 2 ^ 64 →
  key_size t - 1 < key_len k ≤ Z.of_nat (length (key k)) →
  Forall (λ c, c ≠ 0) (take (Z.to_nat (key_len k)) (key k)) →
  stksess_new t k now = Some (t1, Some ts) →
  key_size t ≤ Z.of_nat (length (keys_key (deref t ts))) →
  stktable_store t1 ts s now' = (t2, 0) →
  stktable_lookup t2 k ≠ Some ts
  ∧ stktable_lookup t2 {| key := key k; key_len := key_size t - 1 |} = Some ts.
Proof.
  intros Hs Hks Hlong Hz Hnew Hbuf Hst.
  assert (Hrd : key_readable t k) by (unfold key_readable; rewrite Hs; lia).
  destruct (stksess_new_stored_key t k now t1 ts Hks Hrd Hnew Hbuf) as [Hcfg Hk1].
  assert (Hlk : store_lookup t1 ts = None).
  { destruct (store_lookup t1 ts) as [e|] eqn:Hlk; [|done].
    rewrite (stktable_store_dup _ _ _ _ _ Hlk) in Hst. done. }
  destruct (stktable_store_new _ _ _ _ _ _ Hlk Hst)
    as (_ & Hkeys & _ & _ & _ & Hcfg2 & _ & _ & _ & _ & _ & Hkk & _).
  assert (Hk2 : stored_key t2 ts = take (Z.to_nat (key_size t - 1)) (key k)).
  { destruct Hcfg2 as (_ & Hty & Hsz & _).
    rewrite (stored_key_frame t1 t2) by done. rewrite Hk1.
    unfold normal_key. rewrite Hs, Z.min_l by lia.
    apply cstr_no_zero.
    replace (take (Z.to_nat (key_size t - 1)) (key k))
      with (take (Z.to_nat (key_size t - 1)) (take (Z.to_nat (key_len k)) (key k))).
    - by apply Forall_take.
    - rewrite take_take. f_equal. lia. }
  assert (Hty2 : is_string (type t2) = true ∧ key_size t2 = key_size t).
  { destruct Hcfg as (_ & Hty & Hsz & _). destruct Hcfg2 as (_ & Hty' & Hsz' & _).
    by rewrite Hty', Hty, Hsz', Hsz. }
  destruct Hty2 as [Hty2 Hsz2].
  split.
  - intros [_ Hf]%stktable_lookup_some.
    rewrite Hk2 in Hf. unfold lookup_key in Hf. rewrite Hty2 in Hf.
    apply (f_equal length) in Hf. rewrite !length_take in Hf. lia.
  - rewrite stktable_lookup_find, Hkeys. simpl.
    rewrite bool_decide_eq_true_2; [done|].
    rewrite Hk2. unfold lookup_key. by rewrite Hty2.
Qed.

Lemma lookup_misses_truncated_key_witness :
  stktable_lookup (stktable_store (stksess_new_alloc scenario_one alexandra).1
                     2%nat 3 300).1 alexandra ≠ Some 2%nat
  ∧ stktable_lookup (stktable_store (stksess_new_alloc scenario_one alexandra).1
                       2%nat 3 300).1
      {| key := key alexandra; key_len := key_size scenario_one - 1 |} = Some 2%nat.
Proof.
  apply (lookup_misses_truncated_key scenario_one alexandra 300 300 3
           (stksess_new_alloc scenario_one alexandra).1 _ 2%nat).
  - reflexivity.
  - simpl. lia.
  - simpl. lia.
  - apply (bool_decide_unpack _). by vm_compute.
  - reflexivity.
  - by vm_compute.
  - by vm_compute.
Defined.

(** X4.  [stktable_store] leaves the lookups of the other keys as they
    were: a key that is not the key of the session given to the store is
    found after the store exactly as before it, the same session or
    none. *)
Theorem store_keeps_other_lookups (t : stktable) (ts : ptr) (s now : Z)
    (t' : stktable) (r : Z) (k : stktable_key) :
  stktable_store t ts s now = (t', r) →
  lookup_key t k ≠ stored_key t ts →
  stktable_lookup t' k = stktable_lookup t k.
Proof.
  intros Hst Hne.
  destruct (store_lookup t ts) as [e|] eqn:Hlk.
  - rewrite (stktable_store_dup _ _ _ _ _ Hlk) in Hst. injection Hst as <- <-.
    destruct (negb (sid (deref t e) =? s)); [|done].
    rewrite !stktable_lookup_find. apply eb_find_ext. intros p _.
    by rewrite stored_key_poke_sid.
  - destruct (stktable_store_new _ _ _ _ _ _ Hlk Hst)
      as (_ & Hkeys & _ & _ & _ & Hcfg & _ & _ & _ & _ & _ & Hkk & Hfr & _).
    pose proof Hcfg as (_ & Hty & Hsz & _).
    rewrite !stktable_lookup_find, Hkeys. simpl.
    rewrite (lookup_key_config t t') by done.
    rewrite (stored_key_frame t t') by done.
    rewrite bool_decide_eq_false_2 by done.
    apply eb_find_ext. intros p Hp.
    rewrite (stored_key_frame t t'); [done|done|done|].
    rewrite Hfr; [done|]. intros ->.
    apply (store_lookup_none _ _ Hlk) in Hp. done.
Qed.

Lemma store_keeps_other_lookups_witness :
  stktable_lookup scenario_full alice
  = stktable_lookup (stksess_new_alloc scenario_one bob).1 alice
  ∧ stktable_lookup scenario_full alice = Some 1%nat.
Proof.
  split; [|reflexivity].
  apply (store_keeps_other_lookups (stksess_new_alloc scenario_one bob).1
           2%nat 3 300 scenario_full 0 alice).
  - by vm_compute.
  - by vm_compute.
Defined.

(** ** The cycle of a caller whose key is already stored *)

Lemma stksess_new_alloc_meta t k t' ts :
  stksess_new_alloc t k = (t', Some ts) →
  exp_next t' = exp_next t ∧ exp_task t' = exp_task t.
Proof.
  unfold stksess_new_alloc. destruct (pool_alloc2 (pool t)) as [[p pl]|]; [|done].
  intros [= <- _]. unfold stksess_init.
  destruct (stksess_key_config
    (poke p (with_sid 0) (poke p (with_exps_leaf_p false)
       (poke p (with_keys_leaf_p false)
          (with_current (u32 (current (with_pool pl t) + 1)) (with_pool pl t)))))
    p k) as (_ & _ & _ & _ & Hn & Hta & _).
  split; [exact Hn|exact Hta].
Qed.

(** X5.  A caller that gets a session from a table that is not full,
    finds at the store that the key is already there (the store returns
    1) and frees its session, leaves the table as it was: the same trees,
    the same pool with the slot back at its head, the same [current];
    of the stored session only the server id was set, every other field
    is as it was, and the bytes of the slot that went through the
    caller's hands were written. *)
Theorem duplicate_cycle_restores (t : stktable) (k : stktable_key) (now now' s : Z)
    (t1 t2 : stktable) (ts : ptr) :
  current t ≠ size t → 0 ≤ current t < 2 ^ 32 →
  stksess_new t k now = Some (t1, Some ts) →
  stktable_store t1 ts s now' = (t2, 1) →
  let t3 := stksess_free t2 ts in
  keys t3 = keys t ∧ exps t3 = exps t ∧ pool t3 = pool t ∧ current t3 = current t
  ∧ exp_next t3 = exp_next t ∧ exp_task t3 = exp_task t ∧ same_config t t3
  ∧ ∃ e, e ∈ keys t ∧ sid (deref t3 e) = s
         ∧ (e ≠ ts → deref t3 e = with_sid s (deref t e))
         ∧ ∀ q, q ≠ ts → q ≠ e → deref t3 q = deref t q.
Proof.
  intros Hc Hrange Hnew Hst t3.
  unfold stksess_new, stksess_new_room in Hnew.
  destruct (Z.eqb_spec (current t) (size t)) as [|_]; [done|].
  injection Hnew as Hal.
  pose proof (stksess_new_alloc_config _ _ _ _ Hal) as Hcfg.
  pose proof (stksess_new_alloc_meta _ _ _ _ Hal) as [Hn Hta].
  apply stksess_new_alloc_some in Hal
    as (Hpool & Hkeys & Hexps & Hcur & _ & _ & _ & _ & Hfr).
  destruct (store_lookup t1 ts) as [e|] eqn:Hlk.
  2: { by destruct (stktable_store_new _ _ _ _ _ _ Hlk Hst) as (? & _). }
  rewrite (stktable_store_dup _ _ _ _ _ Hlk) in Hst. injection Hst as Ht2.
  apply store_lookup_some in Hlk as [He _].
  assert (Hu : u32 (u32 (current t + 1) - 1) = current t).
  { unfold u32. change (2 ^ 32) with 4294967296 in *.
    Z.div_mod_to_equations. lia. }
  subst t3. rewrite <- Ht2.
  destruct (Z.eqb_spec (sid (deref t1 e)) s) as [Hs|Hs]; simpl;
    unfold pool_free2; rewrite ?Hcur, ?Hu, <- ?Hpool, ?Hkeys, ?Hexps, ?Hn, ?Hta;
    (split_and!; [done|done|done|done|done|done|done|]);
    exists e; (split; [by rewrite <- Hkeys|]).
  - split_and!; [by rewrite deref_stksess_free| |].
    + intros Hets. rewrite deref_stksess_free, <- (Hfr e Hets).
      destruct (deref t1 e); simpl in *; by subst.
    + intros q Hq _. rewrite deref_stksess_free. by apply Hfr.
  - split_and!; [by deref_simpl| |].
    + intros Hets. rewrite deref_stksess_free, deref_poke_eq. by rewrite (Hfr e Hets).
    + intros q Hq Hqe. rewrite deref_stksess_free, deref_poke_ne by done. by apply Hfr.
Qed.

Lemma duplicate_cycle_restores_witness :
  let t3 := stksess_free (stktable_store scenario_dup 2%nat 2 200).1 2%nat in
  keys t3 = keys scenario_one ∧ exps t3 = exps scenario_one
  ∧ pool t3 = pool scenario_one ∧ current t3 = current scenario_one
  ∧ exp_next t3 = exp_next scenario_one ∧ exp_task t3 = exp_task scenario_one
  ∧ same_config scenario_one t3
  ∧ ∃ e, e ∈ keys scenario_one ∧ sid (deref t3 e) = 2
         ∧ (e ≠ 2%nat → deref t3 e = with_sid 2 (deref scenario_one e))
         ∧ ∀ q, q ≠ 2%nat → q ≠ e → deref t3 q = deref scenario_one q.
Proof.
  apply (duplicate_cycle_restores scenario_one alice 200 200 2 scenario_dup
           (stktable_store scenario_dup 2%nat 2 200).1 2%nat).
  - by vm_compute.
  - simpl. lia.
  - by vm_compute.
  - by vm_compute.
Defined.

(** ** Lookups after a sweep *)

Lemma stktable_trash_expired_scan t now t' r :
  stktable_trash_expired t now = Some (t', r) →
  ∃ vs, trash_expired_scan t now = Some (t', r, vs).
Proof.
  unfold stktable_trash_expired.
  destruct (trash_expired_scan t now) as [[[t1 r1] vs]|]; [|done].
  intros [= <- <-]. by exists vs.
Qed.

Lemma stktable_trash_expired_total t now :
  NoDup (exps t) → ∃ t' r, stktable_trash_expired t now = Some (t', r).
Proof.
  intros Hnd. destruct (trash_expired_scan_total t now Hnd) as [[[t' r] vs] Hscan].
  exists t', r. unfold stktable_trash_expired. by rewrite Hscan.
Qed.

(** The lookups in the table a sweep of a reachable table left. *)
Lemma sweep_lookup_after (t : stktable) (owned : list ptr) (now : Z)
    (t' : stktable) (r : Z) (k : stktable_key) :
  reachable t owned →
  stktable_trash_expired t now = Some (t', r) →
  match stktable_lookup t k with
  | None => stktable_lookup t' k = None
  | Some p =>
      if tick_is_expired (ts_expire (deref t p)) now then
        (∀ q, q ∈ exps t → exps_key (deref t q) ≠ u32 (now - TIMER_LOOK_BACK)) →
        stktable_lookup t' k = None ∧ p ∈ pool t'
      else
        stktable_lookup t' k = Some p ∧ sid (deref t' p) = sid (deref t p)
        ∧ ts_expire (deref t' p) = ts_expire (deref t p)
  end.
Proof.
  intros Hre Hsw. pose proof (reachable_inv _ _ Hre) as Hi.
  destruct (stktable_trash_expired_scan _ _ _ _ Hsw) as [vs Hscan].
  pose proof Hscan as Hrun. unfold trash_expired_scan in Hrun.
  apply trash_expired_loop_run in Hrun.
  pose proof (expired_run_result _ _ _ _ _ _ Hrun (inv_exps _ _ Hi)
                (cursor_ok_lookup_ge _ _))
    as (_ & _ & Hvis & Hkeys & Hpool & _ & Hdate & _).
  pose proof (expired_run_config _ _ _ _ _ _ Hrun) as Hcfg.
  pose proof (expired_run_keys_key _ _ _ _ _ _ Hrun) as Hkk.
  destruct (expired_run_inv owned _ _ _ _ _ _ Hrun Hi (cursor_ok_lookup_ge _ _))
    as (Hi' & _).
  assert (Hsk : ∀ q, stored_key t' q = stored_key t q).
  { intros q. destruct Hcfg as (_ & Hty & Hsz & _).
    apply stored_key_frame; [done|done|apply Hkk]. }
  assert (Hlk : lookup_key t' k = lookup_key t k) by by apply lookup_key_config.
  assert (Hgone : ∀ p, stktable_lookup t k = Some p → p ∉ keys t' →
                       stktable_lookup t' k = None).
  { intros p [Hp Hpk]%stktable_lookup_some Hout.
    apply stktable_lookup_none. intros q Hq Hqk.
    assert (q = p) as ->; [|done].
    apply Hkeys in Hq as [Hq _].
    apply (inv_unique _ _ Hi); [done|done|]. rewrite <- Hsk, Hqk, Hlk. done. }
  destruct (stktable_lookup t k) as [p|] eqn:Hl.
  - pose proof Hl as [Hp Hpk]%stktable_lookup_some.
    destruct (tick_is_expired (ts_expire (deref t p)) now) eqn:He.
    + intros Hfar.
      pose proof (trash_expired_scan_reachable _ _ _ _ _ _ Hre Hfar Hscan p Hp He) as Hv.
      split.
      * apply (Hgone p eq_refl). rewrite Hkeys, elem_of_trashed. tauto.
      * rewrite Hpool, elem_of_app, elem_of_reverse, elem_of_trashed. by left.
    + split_and!; [|apply Hkk|apply Hdate].
      apply stktable_lookup_unique; [apply (inv_unique _ _ Hi')| |by rewrite Hsk, Hlk].
      apply Hkeys. split; [done|].
      rewrite elem_of_trashed. intros Hv.
      destruct (Hvis _ _ Hv) as (_ & _ & Ht & _).
      destruct Ht as [Ht _]. specialize (Ht eq_refl). congruence.
  - apply stktable_lookup_none. intros q Hq Hqk.
    rewrite stktable_lookup_none in Hl.
    apply Hkeys in Hq as [Hq _]. apply (Hl q Hq). by rewrite <- Hsk, Hqk.
Qed.

(** X6.  The sweep of a reachable table returns, and what it does to the
    lookups is this: a key that was not found is not found; a key whose
    session has not expired is found as before, the same session with the
    same key and server id; a key whose session has expired is no longer
    found, unless the tree has a key that is exactly
    [now - TIMER_LOOK_BACK]. *)
Theorem sweep_then_lookup (t : stktable) (owned : list ptr) (now : Z)
    (k : stktable_key) :
  reachable t owned →
  ∃ t' r,
    stktable_trash_expired t now = Some (t', r)
    ∧ match stktable_lookup t k with
      | None => stktable_lookup t' k = None
      | Some p =>
          if tick_is_expired (ts_expire (deref t p)) now then
            (∀ q, q ∈ exps t → exps_key (deref t q) ≠ u32 (now - TIMER_LOOK_BACK)) →
            stktable_lookup t' k = None ∧ p ∈ pool t'
          else
            stktable_lookup t' k = Some p ∧ sid (deref t' p) = sid (deref t p)
            ∧ ts_expire (deref t' p) = ts_expire (deref t p)
      end.
Proof.
  intros Hre.
  destruct (stktable_trash_expired_total t now (inv_exps _ _ (reachable_inv _ _ Hre)))
    as (t' & r & Hsw).
  exists t', r. split; [done|]. by apply (sweep_lookup_after t owned now t' r).
Qed.

Lemma sweep_then_lookup_witness :
  stktable_trash_expired scenario_full 1200 = Some (scenario_swept, 1300)
  ∧ (stktable_lookup scenario_swept alice = None ∧ 1%nat ∈ pool scenario_swept)
  ∧ (stktable_lookup scenario_swept bob = Some 2%nat
     ∧ sid (deref scenario_swept 2%nat) = sid (deref scenario_full 2%nat)
     ∧ ts_expire (deref scenario_swept 2%nat) = ts_expire (deref scenario_full 2%nat)).
Proof.
  assert (Hsw : stktable_trash_expired scenario_full 1200 = Some (scenario_swept, 1300))
    by by vm_compute.
  assert (Hfar : ∀ q, q ∈ exps scenario_full →
            exps_key (deref scenario_full q) ≠ u32 (1200 - TIMER_LOOK_BACK)).
  { apply (proj1 (Forall_forall _ _)). apply (bool_decide_unpack _). by vm_compute. }
  assert (Ha : stktable_lookup scenario_full alice = Some 1%nat) by by vm_compute.
  assert (Hb : stktable_lookup scenario_full bob = Some 2%nat) by by vm_compute.
  assert (Hea : tick_is_expired (ts_expire (deref scenario_full 1%nat)) 1200 = true)
    by by vm_compute.
  assert (Heb : tick_is_expired (ts_expire (deref scenario_full 2%nat)) 1200 = false)
    by by vm_compute.
  split; [exact Hsw|]. split.
  - destruct (sweep_then_lookup scenario_full [] 1200 alice scenario_full_reachable)
      as (t' & r & Hsw' & H).
    rewrite Hsw in Hsw'. injection Hsw' as <- <-.
    rewrite Ha, Hea in H. exact (H Hfar).
  - destruct (sweep_then_lookup scenario_full [] 1200 bob scenario_full_reachable)
      as (t' & r & Hsw' & H).
    rewrite Hsw in Hsw'. injection Hsw' as <- <-.
    rewrite Hb, Heb in H. exact H.
Defined.

(** ** The date a sweep returns *)

Lemma tick_lt_not_expired now k :
  0 ≤ k < 2 ^ 32 → k ≠ u32 (now - TIMER_LOOK_BACK) →
  tick_is_lt now k = true → tick_is_expired k now = false.
Proof.
  unfold tick_is_expired, tick_is_lt, tick_isset, s32, u32, TIMER_LOOK_BACK.
  change (2 ^ 32) with 4294967296. change (2 ^ 31) with 2147483648.
  intros H1 Hne Hlt. destruct (negb (k =? 0)); [|done]. simpl.
  apply Z.ltb_lt in Hlt.
  destruct (Z.ltb_spec ((k - now) mod 4294967296) 2147483648);
    destruct (Z.ltb_spec ((now - k) mod 4294967296) 2147483648);
    destruct (Z.leb_spec ((k - now) mod 4294967296) 0);
    destruct (Z.leb_spec ((k - now) mod 4294967296 - 4294967296) 0);
    try done; Z.div_mod_to_equations; lia.
Qed.

(** Of two keys later than [now], the one the scan meets first is not
    the later one. *)
Lemma tick_later_scanned_before now k1 k2 :
  0 ≤ k1 < 2 ^ 32 → 0 ≤ k2 < 2 ^ 32 →
  k1 ≠ u32 (now - TIMER_LOOK_BACK) → k2 ≠ u32 (now - TIMER_LOOK_BACK) →
  tick_is_lt now k1 = true → tick_is_lt now k2 = true →
  scanned_before (u32 (now - TIMER_LOOK_BACK)) k1 k2 →
  tick_is_lt k2 k1 = false.
Proof.
  unfold scanned_before, tick_is_lt, s32, u32, TIMER_LOOK_BACK.
  change (2 ^ 32) with 4294967296. change (2 ^ 31) with 2147483648.
  intros H1 H2 Hn1 Hn2 Hl1 Hl2 Hb.
  apply Z.ltb_lt in Hl1. apply Z.ltb_lt in Hl2. apply Z.ltb_ge.
  destruct (Z.ltb_spec ((now - k1) mod 4294967296) 2147483648);
    destruct (Z.ltb_spec ((now - k2) mod 4294967296) 2147483648);
    destruct (Z.ltb_spec ((k2 - k1) mod 4294967296) 2147483648);
    try lia; Z.div_mod_to_equations; lia.
Qed.

Lemma first_later_sorted now t (R : relation ptr) l p :
  StronglySorted R l → p ∈ l → p ∉ elapsed_prefix now t l →
  ∃ f, f ∈ l ∧ first_later now t l = exps_key (deref t f)
       ∧ tick_is_lt now (exps_key (deref t f)) = true ∧ (f = p ∨ R f p).
Proof.
  induction l as [|a l IH]; intros Hs Hp Hout; [by apply elem_of_nil in Hp|].
  apply StronglySorted_cons in Hs as [Ha Hs]. rewrite Forall_forall in Ha.
  simpl in *.
  destruct (tick_is_lt now (exps_key (deref t a))) eqn:Hlt.
  - exists a. split_and!; [left|done|done|].
    apply elem_of_cons in Hp as [->|Hp]; [by left|right; auto].
  - apply not_elem_of_cons in Hout as [Hne Hout].
    apply elem_of_cons in Hp as [->|Hp]; [done|].
    destruct (IH Hs Hp Hout) as (f & Hf & Hfl & Hft & HR).
    exists f. split_and!; [by right|done|done|done].
Qed.


(** What the sweep of a reachable table leaves in the expiration tree,
    unless the tree has a key that is exactly [now - TIMER_LOOK_BACK]:
    nodes keyed later than [now], none of them before the returned date. *)
Lemma sweep_leaves_later t owned now t' r vs :
  reachable t owned →
  (∀ q, q ∈ exps t → exps_key (deref t q) ≠ u32 (now - TIMER_LOOK_BACK)) →
  trash_expired_scan t now = Some (t', r, vs) →
  table_inv owned t'
  ∧ (∀ p, p ∈ exps t' →
       p ∈ exps t ∧ exps_key (deref t' p) = exps_key (deref t p)
       ∧ exps_key (deref t' p) ≠ u32 (now - TIMER_LOOK_BACK)
       ∧ tick_is_lt now (exps_key (deref t' p)) = true
       ∧ tick_is_lt (exps_key (deref t' p)) r = false)
  ∧ ((r = TICK_ETERNITY ∧ exps t' = [])
     ∨ (∃ p, p ∈ exps t' ∧ exps_key (deref t' p) = r ∧ tick_is_lt now r = true)).
Proof.
  intros Hre Hfar Hscan.
  pose proof (reachable_inv _ _ Hre) as Hi.
  pose proof (reachable_sorted _ _ Hre) as Hso.
  destruct (trash_expired_scan_in_sync t now t' r vs (inv_exps _ _ Hi)
              (inv_sync _ _ Hi) Hscan) as (Hvs & Hr & Hex).
  pose proof Hscan as Hrun. unfold trash_expired_scan in Hrun.
  apply trash_expired_loop_run in Hrun.
  pose proof (expired_run_result _ _ _ _ _ _ Hrun (inv_exps _ _ Hi)
                (cursor_ok_lookup_ge _ _))
    as (_ & Hstop & _ & _ & _ & _ & Hdate & _).
  destruct (expired_run_inv owned _ _ _ _ _ _ Hrun Hi (cursor_ok_lookup_ge _ _))
    as (Hi' & _).
  pose proof (scan_order_sorted t now Hso) as Hss.
  split_and!; [done| |done].
  intros p Hp. pose proof Hp as Hp'. apply Hex in Hp as [Hp Hout].
  assert (Hk : exps_key (deref t' p) = exps_key (deref t p)).
  { destruct (inv_sync _ _ Hi' p Hp') as [<- _].
    destruct (inv_sync _ _ Hi p Hp) as [<- _]. apply Hdate. }
  rewrite Hk.
  assert (Hlt : tick_is_lt now (exps_key (deref t p)) = true).
  { destruct (tick_is_lt now (exps_key (deref t p))) eqn:Hlt; [done|].
    destruct Hout.
    apply (elapsed_prefix_complete now t _ _ Hss); [|by apply elem_of_scan_order|done].
    intros a b Ha%elem_of_scan_order Hb%elem_of_scan_order.
    apply tick_is_lt_scanned_before; [apply Hso|apply Hso|]; auto. }
  split_and!; [done|done|auto|done|].
  destruct (first_later_sorted now t _ _ p Hss) as (f & Hf & Hfl & Hft & HR);
    [by apply elem_of_scan_order|done|].
  rewrite Hr, Hfl. apply elem_of_scan_order in Hf.
  destruct HR as [->|HR].
  - unfold tick_is_lt, s32. by rewrite Z.sub_diag.
  - apply (tick_later_scanned_before now); try done;
      [by apply Hso|by apply Hso|auto|auto].
Qed.

(** The date a sweep of a reachable table returned. *)
Lemma sweep_earliest_after (t : stktable) (owned : list ptr) (now : Z)
    (t' : stktable) (r : Z) :
  reachable t owned →
  (∀ q, q ∈ exps t → exps_key (deref t q) ≠ u32 (now - TIMER_LOOK_BACK)) →
  stktable_trash_expired t now = Some (t', r) →
  (∀ p, p ∈ keys t' →
     tick_is_expired (ts_expire (deref t' p)) now = false
     ∧ tick_is_lt (ts_expire (deref t' p)) r = false)
  ∧ (r = TICK_ETERNITY ↔ keys t' = [])
  ∧ (r ≠ TICK_ETERNITY →
     tick_is_lt now r = true ∧ ∃ p, p ∈ keys t' ∧ ts_expire (deref t' p) = r)
  ∧ ∃ t'', process_table_expire t now = Some t''
           ∧ exp_task t'' = r ∧ exp_next t'' = r ∧ keys t'' = keys t'.
Proof.
  intros Hre Hfar Hsw.
  pose proof (reachable_sorted _ _ Hre) as Hso.
  destruct (stktable_trash_expired_scan _ _ _ _ Hsw) as [vs Hscan].
  destruct (sweep_leaves_later _ _ _ _ _ _ Hre Hfar Hscan) as (Hi' & Hleft & Hstop).
  split_and!.
  - intros p Hp%(inv_both _ _ Hi').
    destruct (Hleft p Hp) as (Hpe & Hk & Hnf & Hlt & Hr).
    destruct (inv_sync _ _ Hi' p Hp) as [-> _]. split; [|done].
    apply tick_lt_not_expired; [|done|done]. rewrite Hk. by apply Hso.
  - split.
    + intros Hz. destruct Hstop as [[_ He]|(p & Hp & Hpk & _)].
      * destruct (keys t') as [|q l] eqn:Hkq; [done|].
        assert (Hq : q ∈ keys t') by (rewrite Hkq; left).
        apply (inv_both _ _ Hi') in Hq. rewrite He in Hq. by apply elem_of_nil in Hq.
      * destruct (inv_sync _ _ Hi' p Hp) as [Hs Hnz]. rewrite Hs, Hpk in Hnz. done.
    + intros Hk. destruct Hstop as [[Hz _]|(p & Hp & _)]; [done|].
      apply (inv_both _ _ Hi') in Hp. rewrite Hk in Hp. by apply elem_of_nil in Hp.
  - intros Hnz. destruct Hstop as [[Hz _]|(p & Hp & Hpk & Hlt)]; [done|].
    split; [done|]. exists p. split; [by apply (inv_both _ _ Hi')|].
    by destruct (inv_sync _ _ Hi' p Hp) as [-> _].
  - exists (with_exp_next_task r t'). unfold process_table_expire. by rewrite Hsw.
Qed.

(** X7.  The sweep of a reachable table returns, and the date it returns
    is the earliest date left: unless the tree has a key that is exactly
    [now - TIMER_LOOK_BACK], no session left in the table has expired and
    none expires before the returned date, which is the date of one of
    them; the sweep returns [TICK_ETERNITY] exactly when it leaves the
    table empty.  [process_table_expire] makes it the date of the task. *)
Theorem sweep_returns_earliest (t : stktable) (owned : list ptr) (now : Z) :
  reachable t owned →
  (∀ q, q ∈ exps t → exps_key (deref t q) ≠ u32 (now - TIMER_LOOK_BACK)) →
  ∃ t' r,
    stktable_trash_expired t now = Some (t', r)
    ∧ (∀ p, p ∈ keys t' →
         tick_is_expired (ts_expire (deref t' p)) now = false
         ∧ tick_is_lt (ts_expire (deref t' p)) r = false)
    ∧ (r = TICK_ETERNITY ↔ keys t' = [])
    ∧ (r ≠ TICK_ETERNITY →
       tick_is_lt now r = true ∧ ∃ p, p ∈ keys t' ∧ ts_expire (deref t' p) = r)
    ∧ ∃ t'', process_table_expire t now = Some t''
             ∧ exp_task t'' = r ∧ exp_next t'' = r ∧ keys t'' = keys t'.
Proof.
  intros Hre Hfar.
  destruct (stktable_trash_expired_total t now (inv_exps _ _ (reachable_inv _ _ Hre)))
    as (t' & r & Hsw).
  exists t', r. split; [done|]. by apply (sweep_earliest_after t owned now t' r).
Qed.

Lemma sweep_returns_earliest_witness :
  stktable_trash_expired scenario_full 1200 = Some (scenario_swept, 1300)
  ∧ (∀ p, p ∈ keys scenario_swept →
       tick_is_expired (ts_expire (deref scenario_swept p)) 1200 = false
       ∧ tick_is_lt (ts_expire (deref scenario_swept p)) 1300 = false)
  ∧ (1300 = TICK_ETERNITY ↔ keys scenario_swept = [])
  ∧ (1300 ≠ TICK_ETERNITY →
     tick_is_lt 1200 1300 = true
     ∧ ∃ p, p ∈ keys scenario_swept ∧ ts_expire (deref scenario_swept p) = 1300)
  ∧ ∃ t'', process_table_expire scenario_full 1200 = Some t''
           ∧ exp_task t'' = 1300 ∧ exp_next t'' = 1300 ∧ keys t'' = keys scenario_swept.
Proof.
  assert (Hsw : stktable_trash_expired scenario_full 1200 = Some (scenario_swept, 1300))
    by by vm_compute.
  destruct (sweep_returns_earliest scenario_full [] 1200 scenario_full_reachable)
    as (t' & r & Hsw' & H).
  { apply (proj1 (Forall_forall _ _)). apply (bool_decide_unpack _). by vm_compute. }
  rewrite Hsw in Hsw'. injection Hsw' as <- <-.
  split; [exact Hsw|exact H].
Defined.

(** ** What an eviction takes *)

Lemma scan_order_length t now : length (scan_order t now) = length (exps t).
Proof.
  unfold scan_order.
  rewrite (eb32_below_from (mem t) (exps t) (u32 (now - TIMER_LOOK_BACK))) at 3.
  rewrite !length_app. lia.
Qed.

Lemma table_inv_trees_length owned t :
  table_inv owned t → length (keys t) = length (exps t).
Proof.
  intros Hi. apply Permutation_length, NoDup_Permutation.
  - pose proof (inv_slots _ _ Hi) as Hnd.
    apply NoDup_app in Hnd as (_ & _ & Hnd). by apply NoDup_app in Hnd as (Hnd & _).
  - apply (inv_exps _ _ Hi).
  - apply (inv_both _ _ Hi).
Qed.

(** What an eviction of a reachable table did. *)
Lemma eviction_oldest_after (t : stktable) (owned : list ptr) (to_batch now : Z)
    (t' : stktable) (n : Z) :
  reachable t owned →
  stktable_trash_oldest t to_batch now = Some (t', n) →
  let x := u32 (now - TIMER_LOOK_BACK) in
  let seen := take (Z.to_nat to_batch) (scan_order t now) in
  n = Z.min (Z.max 0 to_batch) (Z.of_nat (length (keys t)))
  ∧ current t' = current t - n
  ∧ pool t' = reverse seen ++ pool t
  ∧ (∀ q, q ∈ keys t' ↔ q ∈ keys t ∧ q ∉ seen)
  ∧ (∀ p q, p ∈ seen → q ∈ keys t' →
       scanned_before x (ts_expire (deref t p)) (ts_expire (deref t q)))
  ∧ (∀ q, q ∈ keys t' →
       sid (deref t' q) = sid (deref t q) ∧ stored_key t' q = stored_key t q)
  ∧ (∀ k, match stktable_lookup t k with
          | None => stktable_lookup t' k = None
          | Some p =>
              (p ∈ seen → stktable_lookup t' k = None)
              ∧ (p ∉ seen → stktable_lookup t' k = Some p)
          end).
Proof.
  intros Hre Hev x seen.
  pose proof (reachable_inv _ _ Hre) as Hi.
  pose proof (reachable_sorted _ _ Hre) as Hso.
  apply stktable_trash_oldest_run in Hev as [vs Hrun].
  destruct (oldest_run_in_sync _ _ _ _ _ _ _ Hrun _ _
              (eb32_below_from _ _ _) (eb32_lookup_ge_from _ _ _)
              (inv_exps _ _ Hi) (inv_sync _ _ Hi)) as (Hvs & Hn & Hex).
  rewrite Z.sub_0_r in Hvs, Hn, Hex. fold (scan_order t now) in Hvs, Hn, Hex.
  fold seen in Hvs, Hn, Hex.
  destruct (oldest_run_inv owned _ _ _ _ _ _ _ Hrun Hi (cursor_ok_lookup_ge _ _))
    as (Hi' & Hcur & _).
  pose proof (oldest_run_pool _ _ _ _ _ _ _ Hrun) as Hpool.
  rewrite Hvs, trashed_all_trashed in Hpool.
  pose proof (oldest_run_config _ _ _ _ _ _ _ Hrun) as Hcfg.
  pose proof Hcfg as (_ & Hty & Hsz & _).
  pose proof (oldest_run_keys_key _ _ _ _ _ _ _ Hrun) as Hkk.
  assert (Hkeys : ∀ q, q ∈ keys t' ↔ q ∈ keys t ∧ q ∉ seen).
  { intros q. rewrite (inv_both _ _ Hi'), (inv_both _ _ Hi). apply Hex. }
  assert (Hsk : ∀ q, stored_key t' q = stored_key t q).
  { intros q. destruct (Hkk q) as [Hk _]. by apply stored_key_frame. }
  split_and!; [|lia|done|done| | |].
  - rewrite Hn. subst seen.
    rewrite length_take, scan_order_length, (table_inv_trees_length _ _ Hi). lia.
  - intros p q Hp Hq. apply Hkeys in Hq as [Hq Hout].
    apply (inv_both _ _ Hi) in Hq.
    destruct (inv_sync _ _ Hi q Hq) as [-> _].
    assert (Hpe : p ∈ exps t).
    { apply (elem_of_scan_order t now).
      rewrite <- (take_drop (Z.to_nat to_batch) (scan_order t now)).
      apply elem_of_app. by left. }
    destruct (inv_sync _ _ Hi p Hpe) as [-> _].
    pose proof (scan_order_sorted t now Hso) as Hss.
    rewrite <- (take_drop (Z.to_nat to_batch) (scan_order t now)) in Hss.
    apply StronglySorted_app in Hss as (Hcross & _ & _).
    apply Hcross; [done|].
    apply (elem_of_scan_order t now) in Hq.
    rewrite <- (take_drop (Z.to_nat to_batch) (scan_order t now)) in Hq.
    apply elem_of_app in Hq as [Hq|Hq]; [done|done].
  - intros q _. destruct (Hkk q) as [Hk Hs]. split; [done|apply Hsk].
  - intros k.
    assert (Hlk : lookup_key t' k = lookup_key t k) by by apply lookup_key_config.
    destruct (stktable_lookup t k) as [p|] eqn:Hl.
    + pose proof Hl as [Hp Hpk]%stktable_lookup_some. split.
      * intros Hps. apply stktable_lookup_none. intros q Hq Hqk.
        apply Hkeys in Hq as [Hq Hout].
        assert (q = p) as ->; [|done].
        apply (inv_unique _ _ Hi); [done|done|]. by rewrite <- Hsk, Hqk, Hlk.
      * intros Hps. apply stktable_lookup_unique; [apply (inv_unique _ _ Hi')| |].
        -- by apply Hkeys.
        -- by rewrite Hsk, Hlk.
    + apply stktable_lookup_none. intros q Hq Hqk.
      rewrite stktable_lookup_none in Hl.
      apply Hkeys in Hq as [Hq _]. apply (Hl q Hq). by rewrite <- Hsk, Hqk.
Qed.

(** X8.  The eviction of a reachable table returns, having trashed the
    oldest sessions: [to_batch] of them, all of them if the table stores
    fewer, in the order of the scan, so that no session it leaves comes
    before a session it trashed in that order.  The trashed sessions leave
    the key tree, go back to the pool and are counted out of [current]; no
    other session is touched: a key is found after the eviction if and
    only if it was found before and its session was not trashed, and then
    it is the same session. *)
Theorem eviction_takes_oldest (t : stktable) (owned : list ptr) (to_batch now : Z) :
  reachable t owned →
  ∃ t' n,
    stktable_trash_oldest t to_batch now = Some (t', n)
    ∧ let x := u32 (now - TIMER_LOOK_BACK) in
      let seen := take (Z.to_nat to_batch) (scan_order t now) in
      n = Z.min (Z.max 0 to_batch) (Z.of_nat (length (keys t)))
      ∧ current t' = current t - n
      ∧ pool t' = reverse seen ++ pool t
      ∧ (∀ q, q ∈ keys t' ↔ q ∈ keys t ∧ q ∉ seen)
      ∧ (∀ p q, p ∈ seen → q ∈ keys t' →
           scanned_before x (ts_expire (deref t p)) (ts_expire (deref t q)))
      ∧ (∀ q, q ∈ keys t' →
           sid (deref t' q) = sid (deref t q) ∧ stored_key t' q = stored_key t q)
      ∧ (∀ k, match stktable_lookup t k with
              | None => stktable_lookup t' k = None
              | Some p =>
                  (p ∈ seen → stktable_lookup t' k = None)
                  ∧ (p ∉ seen → stktable_lookup t' k = Some p)
              end).
Proof.
  intros Hre.
  destruct (stktable_trash_oldest_total t to_batch now
              (inv_exps _ _ (reachable_inv _ _ Hre))) as [[t' n] Hev].
  exists t', n. split; [done|].
  by apply (eviction_oldest_after t owned to_batch now t' n).
Qed.

Lemma eviction_takes_oldest_witness :
  ∃ t', stktable_trash_oldest scenario_full 1 400 = Some (t', 1)
  ∧ let x := u32 (400 - TIMER_LOOK_BACK) in
    let seen := take (Z.to_nat 1) (scan_order scenario_full 400) in
    1 = Z.min (Z.max 0 1) (Z.of_nat (length (keys scenario_full)))
    ∧ current t' = current scenario_full - 1
    ∧ pool t' = reverse seen ++ pool scenario_full
    ∧ (∀ q, q ∈ keys t' ↔ q ∈ keys scenario_full ∧ q ∉ seen)
    ∧ (∀ p q, p ∈ seen → q ∈ keys t' →
         scanned_before x (ts_expire (deref scenario_full p))
           (ts_expire (deref scenario_full q)))
    ∧ (∀ q, q ∈ keys t' →
         sid (deref t' q) = sid (deref scenario_full q)
         ∧ stored_key t' q = stored_key scenario_full q)
    ∧ (∀ k, match stktable_lookup scenario_full k with
            | None => stktable_lookup t' k = None
            | Some p =>
                (p ∈ seen → stktable_lookup t' k = None)
                ∧ (p ∉ seen → stktable_lookup t' k = Some p)
            end).
Proof.
  destruct (eviction_takes_oldest scenario_full [] 1 400 scenario_full_reachable)
    as (t' & n & Hev & H).
  assert (Hn : n = 1).
  { destruct H as (-> & _). by vm_compute. }
  subst n. exists t'. split; [exact Hev|exact H].
Defined.

(** ** The task of the sweep *)

Lemma oldest_run_meta tb t eb b t' n vs :
  oldest_run tb t eb b t' n vs →
  exp_next t' = exp_next t ∧ exp_task t' = exp_task t ∧ ∀ q, q ∈ keys t' → q ∈ keys t.
Proof.
  induction 1 as [| |t eb b t1 eb1 b1 v t' n vs Hb Hbody Hrun IH]; [done|done|].
  destruct IH as (-> & -> & Hsub).
  apply trash_oldest_body_cases in Hbody as (ts & _ & Hcs). simpl in Hcs.
  destruct Hcs as [(_ & _ & -> & _)|[(_ & _ & -> & _)|(_ & -> & _)]];
    (split_and!; [done|done|]); intros q Hq%Hsub; simpl in Hq; try done.
  by apply elem_of_unlink in Hq as [_ Hq].
Qed.

Lemma stksess_new_meta t k now t' r :
  stksess_new t k now = Some (t', r) →
  exp_next t' = exp_next t ∧ exp_task t' = exp_task t ∧ same_config t t'
  ∧ ∀ q, q ∈ keys t' → q ∈ keys t.
Proof.
  unfold stksess_new.
  destruct (stksess_new_room t now) as [[ta go]|] eqn:Hroom; [|done].
  assert (Ha : exp_next ta = exp_next t ∧ exp_task ta = exp_task t ∧ same_config t ta
               ∧ ∀ q, q ∈ keys ta → q ∈ keys t).
  { unfold stksess_new_room in Hroom.
    destruct (current t =? size t); [|by simplify_eq].
    destruct (negb (nopurge t =? 0)); [by simplify_eq|].
    destruct (stktable_trash_oldest t _ now) as [[t1 n]|] eqn:Ht; [|done].
    injection Hroom as <- <-.
    apply stktable_trash_oldest_run in Ht as [vs Hrun].
    destruct (oldest_run_meta _ _ _ _ _ _ _ Hrun) as (? & ? & ?).
    split_and!; try done. by eapply oldest_run_config. }
  destruct Ha as (Hn & Hta & Hcfg & Hsub).
  destruct go; [|by intros [= <- <-]].
  intros [= Hal].
  pose proof (stksess_new_alloc_config _ _ _ _ Hal) as Hcfg1.
  destruct r as [ts|].
  - destruct (stksess_new_alloc_meta _ _ _ _ Hal) as [-> ->].
    apply stksess_new_alloc_some in Hal as (_ & -> & _).
    split_and!; try done.
    destruct Hcfg as (? & ? & ? & ? & ?). destruct Hcfg1 as (? & ? & ? & ? & ?).
    unfold same_config. split_and!; congruence.
  - unfold stksess_new_alloc in Hal.
    destruct (pool_alloc2 (pool ta)) as [[p pl]|]; [done|].
    by injection Hal as <-.
Qed.

Lemma tick_first_isset e x : e ≠ 0 → tick_first e x ≠ 0.
Proof.
  unfold tick_first, tick_isset. intros He.
  destruct (Z.eqb_spec e 0); [done|]. simpl.
  destruct (Z.eqb_spec x 0); simpl; [done|].
  by destruct (s32 (e - x) <=? 0).
Qed.

(** X9.  In every reachable table with a ttl, the date of the expiration
    task is [exp_next], and it is set whenever the table stores a session:
    a stored session always has a sweep to come. *)
Theorem stored_session_has_sweep (t : stktable) (owned : list ptr) :
  reachable t owned → expire t ≠ 0 →
  exp_task t = exp_next t ∧ (keys t ≠ [] → exp_next t ≠ TICK_ETERNITY).
Proof.
  induction 1 as [t0 created t Hz Hsz Hnd Hinit
                 |t owned k now t' r Hre IH Hnew
                 |t owned ts s now t' r Hre IH Hts Hst
                 |t owned ts Hre IH Hts
                 |t owned now t' Hre IH Hex]; intros Httl.
  - destruct Hz as (Hk & He & Hp & Hc & Hn & Hta). unfold stktable_init in Hinit.
    destruct (size t0 =? 0); simpl in Hinit.
    + injection Hinit as <-. by rewrite Hn, Hta, Hk.
    + destruct (expire t0 =? 0); simpl in Hinit; injection Hinit as <- _; simpl;
        by rewrite ?Hta.
  - destruct (stksess_new_meta _ _ _ _ _ Hnew) as (Hn & Hta & Hcfg & Hsub).
    destruct Hcfg as (_ & _ & _ & _ & Hexp). rewrite Hexp in Httl.
    destruct (IH Httl) as [IH1 IH2]. rewrite Hn, Hta. split; [done|].
    intros Hk. apply IH2. intros Hk0.
    destruct (keys t') as [|q l]; [done|].
    specialize (Hsub q ltac:(left)). rewrite Hk0 in Hsub. by apply elem_of_nil in Hsub.
  - destruct (store_lookup t ts) as [e|] eqn:Hlk.
    + rewrite (stktable_store_dup _ _ _ _ _ Hlk) in Hst. injection Hst as <- <-.
      by destruct (negb (sid (deref t e) =? s)); apply IH.
    + destruct (stktable_store_new _ _ _ _ _ _ Hlk Hst)
        as (_ & _ & _ & _ & _ & Hcfg & _ & _ & _ & _ & _ & _ & _ & Hn & Hta).
      destruct Hcfg as (_ & _ & _ & _ & Hexp). rewrite Hexp in Httl.
      rewrite Hn, Hta.
      destruct (Z.eqb_spec (expire t) 0); [done|].
      split; [done|]. intros _. apply tick_first_isset, tick_add_isset.
  - by apply IH.
  - pose proof (reachable_inv _ _ Hre) as Hi.
    unfold process_table_expire in Hex.
    destruct (stktable_trash_expired t now) as [[t1 r]|] eqn:Ht; [|done].
    injection Hex as <-. simpl. split; [done|].
    apply stktable_trash_expired_run in Ht as [vs Hrun].
    destruct (expired_run_inv owned _ _ _ _ _ _ Hrun Hi (cursor_ok_lookup_ge _ _))
      as (Hi1 & _).
    pose proof (expired_run_result _ _ _ _ _ _ Hrun (inv_exps _ _ Hi)
                  (cursor_ok_lookup_ge _ _)) as (_ & Hstop & _).
    intros Hk. destruct Hstop as [[_ He]|(p & Hp & <- & _)].
    + destruct (keys t1) as [|q l] eqn:Hkq; [done|].
      assert (Hq : q ∈ keys t1) by (rewrite Hkq; left).
      apply (inv_both _ _ Hi1) in Hq. rewrite He in Hq. by apply elem_of_nil in Hq.
    + by destruct (inv_sync _ _ Hi1 p Hp) as [<- ?].
Qed.

Lemma stored_session_has_sweep_witness :
  exp_task scenario_full = exp_next scenario_full
  ∧ (keys scenario_full ≠ [] → exp_next scenario_full ≠ TICK_ETERNITY).
Proof.
  apply (stored_session_has_sweep scenario_full [] scenario_full_reachable).
  by vm_compute.
Defined.

(** ** A second sweep *)

Lemma tick_is_lt_antisym k1 k2 :
  0 ≤ k1 < 2 ^ 32 → 0 ≤ k2 < 2 ^ 32 →
  tick_is_lt k1 k2 = false → tick_is_lt k2 k1 = false → k1 = k2.
Proof.
  unfold tick_is_lt, s32. change (2 ^ 32) with 4294967296.
  change (2 ^ 31) with 2147483648.
  intros H1 H2 Ha Hb. apply Z.ltb_ge in Ha. apply Z.ltb_ge in Hb.
  destruct (Z.ltb_spec ((k1 - k2) mod 4294967296) 2147483648);
    destruct (Z.ltb_spec ((k2 - k1) mod 4294967296) 2147483648);
    Z.div_mod_to_equations; lia.
Qed.

(** The sweep of a table whose first node in scan order is later than
    [now], and the sweep of an empty table. *)
Lemma trash_expired_scan_idle t now p :
  head (scan_order t now) = Some p →
  tick_is_lt now (exps_key (deref t p)) = true →
  trash_expired_scan t now
  = Some (with_exp_next (exps_key (deref t p)) t, exps_key (deref t p), []).
Proof.
  intros Hh Hlt. unfold trash_expired_scan. cbn [trash_expired_loop].
  unfold trash_expired_body. by rewrite scan_pick_lookup_ge, Hh, Hlt.
Qed.

Lemma trash_expired_scan_empty t now :
  exps t = [] →
  trash_expired_scan t now = Some (with_exp_next TICK_ETERNITY t, TICK_ETERNITY, []).
Proof.
  intros He. unfold trash_expired_scan. cbn [trash_expired_loop].
  unfold trash_expired_body. rewrite scan_pick_lookup_ge.
  unfold scan_order. by rewrite He.
Qed.

(** X10.  A sweep that follows a sweep at the same tick finds nothing to
    do: [process_table_expire] on the table it has just left, reachable
    and without a key that is exactly [now - TIMER_LOOK_BACK], leaves the
    same table, with the same date for the task. *)
Theorem second_sweep_is_idle (t : stktable) (owned : list ptr) (now : Z)
    (t1 : stktable) :
  reachable t owned →
  (∀ q, q ∈ exps t → exps_key (deref t q) ≠ u32 (now - TIMER_LOOK_BACK)) →
  process_table_expire t now = Some t1 →
  process_table_expire t1 now = Some t1.
Proof.
  intros Hre Hfar Hex.
  pose proof (reach_expire _ _ _ _ Hre Hex) as Hre1.
  pose proof (reachable_sorted _ _ Hre1) as Hso1.
  unfold process_table_expire in Hex.
  destruct (stktable_trash_expired t now) as [[t' r]|] eqn:Hsw; [|done].
  injection Hex as <-.
  destruct (stktable_trash_expired_scan _ _ _ _ Hsw) as [vs Hscan].
  destruct (sweep_leaves_later _ _ _ _ _ _ Hre Hfar Hscan) as (Hi' & Hleft & Hstop).
  set (t1 := with_exp_next_task r t') in *.
  unfold process_table_expire, stktable_trash_expired.
  destruct (scan_order t1 now) as [|p rest] eqn:Hord.
  - assert (He : exps t1 = []).
    { destruct (exps t1) as [|q l] eqn:He; [done|].
      assert (Hq : q ∈ scan_order t1 now) by (apply elem_of_scan_order; rewrite He; left).
      rewrite Hord in Hq. by apply elem_of_nil in Hq. }
    rewrite (trash_expired_scan_empty t1 now He).
    destruct Hstop as [[-> _]|(p & Hp & _)]; [done|].
    change (exps t') with (exps t1) in Hp. rewrite He in Hp.
    by apply elem_of_nil in Hp.
  - assert (Hp : p ∈ exps t').
    { apply (elem_of_scan_order t1 now). rewrite Hord. left. }
    destruct (Hleft p Hp) as (_ & _ & Hnf & Hlt & Hr).
    rewrite (trash_expired_scan_idle t1 now p); [|by rewrite Hord|done].
    change (deref t1 p) with (deref t' p).
    destruct Hstop as [[_ He]|(f & Hf & Hfk & Hfl)].
    { rewrite He in Hp. by apply elem_of_nil in Hp. }
    destruct (Hleft f Hf) as (_ & _ & Hff & _ & _).
    assert (Hkp : exps_key (deref t' p) = r); [|by rewrite Hkp].
    apply tick_is_lt_antisym; [by apply Hso1|rewrite <- Hfk; by apply Hso1|done|].
    pose proof (scan_order_sorted t1 now Hso1) as Hss. rewrite Hord in Hss.
    apply StronglySorted_cons in Hss as [Hall _]. rewrite Forall_forall in Hall.
    assert (Hfe : f ∈ exps t1) by done.
    apply (elem_of_scan_order t1 now) in Hf. rewrite Hord in Hf.
    apply elem_of_cons in Hf as [->|Hf].
    { rewrite <- Hfk. unfold tick_is_lt, s32. by rewrite Z.sub_diag. }
    specialize (Hall f Hf). change (deref t1 ?q) with (deref t' q) in Hall.
    rewrite <- Hfk.
    apply (tick_later_scanned_before now); try done;
      [by apply Hso1|by apply Hso1|by rewrite Hfk].
Qed.

Lemma second_sweep_is_idle_witness :
  process_table_expire (with_exp_next_task 1300 scenario_swept) 1200
  = Some (with_exp_next_task 1300 scenario_swept).
Proof.
  apply (second_sweep_is_idle scenario_full [] 1200 _ scenario_full_reachable).
  - apply (proj1 (Forall_forall _ _)). apply (bool_decide_unpack _). by vm_compute.
  - by vm_compute.
Defined.

(** ** The cost of the scans *)

Lemma oldest_run_visits tb t eb b t' n vs :
  oldest_run tb t eb b t' n vs → NoDup (exps t) → cursor_ok t eb →
  (length vs ≤ oldest_measure t)%nat.
Proof.
  induction 1 as [| |t eb b t1 eb1 b1 v t' n vs Hb Hbody Hrun IH]; intros Hnd Hc;
    simpl; [lia|lia|].
  destruct (trash_oldest_body_measure _ _ _ _ _ _ _ Hnd Hc Hbody) as (Hnd1 & Hc1 & Hm).
  specialize (IH Hnd1 Hc1). lia.
Qed.

Lemma expired_run_visits now t eb t' r vs :
  expired_run now t eb t' r vs → NoDup (exps t) → cursor_ok t eb →
  (length vs ≤ expired_measure now t)%nat.
Proof.
  induction 1 as [t eb Hbody|t eb t' Hbody|t eb t1 eb1 v t' r vs Hbody Hrun IH];
    intros Hnd Hc; simpl; [lia|lia|].
  destruct (trash_expired_body_measure _ _ _ _ _ _ Hnd Hc Hbody) as (Hnd1 & Hc1 & Hm).
  specialize (IH Hnd1 Hc1). lia.
Qed.

Lemma oldest_measure_in_sync t : exps_in_sync t → oldest_measure t = length (exps t).
Proof.
  unfold oldest_measure, exps_in_sync. generalize (exps t) as l.
  induction l as [|p l IH]; intros Hs; simpl; [done|].
  rewrite IH by (intros q Hq; apply Hs; by right).
  unfold oldest_weight. destruct (Hs p) as [-> _]; [left|].
  by rewrite Z.eqb_refl.
Qed.

(** X11.  Both scans return after a number of visits bounded by the size
    of the expiration tree, whatever the dates and keys of its nodes: the
    eviction visits a node once, twice if its key is not the date of its
    session, and the sweep visits a node at most once, and only if its key
    is not later than [now]. *)
Theorem scans_visits_bounded (t : stktable) (to_batch now : Z) :
  NoDup (exps t) →
  (∃ t' n vs, trash_oldest_scan t to_batch now = Some (t', n, vs)
     ∧ (length vs ≤ oldest_measure t)%nat
     ∧ (oldest_measure t ≤ 2 * length (exps t))%nat
     ∧ (exps_in_sync t → (length vs ≤ length (exps t))%nat))
  ∧ (∃ t' r vs, trash_expired_scan t now = Some (t', r, vs)
     ∧ (length vs ≤ expired_measure now t)%nat
     ∧ (expired_measure now t ≤ length (exps t))%nat).
Proof.
  intros Hnd. split.
  - destruct (trash_oldest_scan_total t to_batch now Hnd) as [[[t' n] vs] Hscan].
    exists t', n, vs. split; [done|].
    pose proof Hscan as Hrun. unfold trash_oldest_scan in Hrun.
    apply trash_oldest_loop_run in Hrun.
    pose proof (oldest_run_visits _ _ _ _ _ _ _ Hrun Hnd (cursor_ok_lookup_ge _ _)) as Hv.
    split_and!; [done|apply oldest_measure_bound|].
    intros Hs. by rewrite <- (oldest_measure_in_sync t Hs).
  - destruct (trash_expired_scan_total t now Hnd) as [[[t' r] vs] Hscan].
    exists t', r, vs. split; [done|].
    pose proof Hscan as Hrun. unfold trash_expired_scan in Hrun.
    apply trash_expired_loop_run in Hrun.
    split; [|apply expired_measure_bound].
    apply (expired_run_visits _ _ _ _ _ _ Hrun Hnd (cursor_ok_lookup_ge _ _)).
Qed.

Lemma scans_visits_bounded_witness :
  (∃ t' n vs, trash_oldest_scan wrap_touched 3 10 = Some (t', n, vs)
     ∧ (length vs ≤ oldest_measure wrap_touched)%nat
     ∧ (oldest_measure wrap_touched ≤ 2 * length (exps wrap_touched))%nat
     ∧ (exps_in_sync wrap_touched → (length vs ≤ length (exps wrap_touched))%nat))
  ∧ (∃ t' r vs, trash_expired_scan wrap_touched 10 = Some (t', r, vs)
     ∧ (length vs ≤ expired_measure 10 wrap_touched)%nat
     ∧ (expired_measure 10 wrap_touched ≤ length (exps wrap_touched))%nat).
Proof.
  apply (scans_visits_bounded wrap_touched 3 10).
  apply (bool_decide_unpack _). by vm_compute.
Defined.

(** ** A table after [stktable_init] *)

(** X12.  [stktable_init] reports 0 exactly when the table has a size and
    [create_pool] failed.  A table of size 0 is left as it is.  A table
    with a size comes out with both trees empty, whatever they held, and
    [exp_next] at [TICK_ETERNITY]; [current] is not reset.  On it every
    lookup misses, the sweep returns [TICK_ETERNITY] and the eviction
    trashes nothing, both leaving the table as it is; and if [current] is
    0 and the pool has a slot, [stksess_new] returns that slot. *)
Theorem stktable_init_fresh (t : stktable) (created : option (list ptr))
    (t' : stktable) (r : Z) :
  stktable_init t created = (t', r) →
  (r = 0 ↔ size t ≠ 0 ∧ created = None)
  ∧ (r = 0 ∨ r = 1)
  ∧ (size t = 0 → t' = t)
  ∧ (size t ≠ 0 →
     keys t' = [] ∧ exps t' = [] ∧ pool t' = default [] created
     ∧ exp_next t' = TICK_ETERNITY ∧ current t' = current t ∧ same_config t t'
     ∧ exp_task t' = (if expire t =? 0 then exp_task t else TICK_ETERNITY)
     ∧ (∀ k, stktable_lookup t' k = None)
     ∧ (∀ now, stktable_trash_expired t' now = Some (t', TICK_ETERNITY))
     ∧ (∀ to_batch now, stktable_trash_oldest t' to_batch now = Some (t', 0))
     ∧ (∀ k now p pl, current t = 0 → created = Some (p :: pl) →
          ∃ t'', stksess_new t' k now = Some (t'', Some p)
                 ∧ current t'' = 1 ∧ pool t'' = pl)).
Proof.
  unfold stktable_init.
  destruct (Z.eqb_spec (size t) 0) as [Hz|Hz]; simpl.
  - intros [= <- <-]. split_and!; [|by right|done|done].
    split; [done|]. by intros [? _].
  - destruct (expire t =? 0) eqn:Hexp; simpl; intros [= <- <-];
      (split_and!; [|by destruct created; [right|left]|done|intros _]);
      try (destruct created; split; try done; by intros [_ ?]);
      (split_and!; try done).
    all: try (intros k; apply stktable_lookup_none; intros p Hp;
              by apply elem_of_nil in Hp).
    all: try (intros tb now; unfold stktable_trash_oldest, trash_oldest_scan;
              simpl; unfold trash_oldest_body; by destruct (0 <? tb)).
    all: intros k now p pl Hc ->; eexists;
      unfold stksess_new, stksess_new_room;
      assert (Hcs : (current t =? size t) = false) by (apply Z.eqb_neq; lia);
      simpl; rewrite Hcs; simpl;
      (split; [reflexivity|]); unfold stksess_init, stksess_key;
      simpl; destruct (is_string (type t)); simpl; rewrite Hc; by split.
Qed.

Lemma stktable_init_fresh_witness :
  (1 = 0 ↔ size scenario_one ≠ 0 ∧ Some [1; 2; 3]%nat = @None (list ptr))
  ∧ (1 = 0 ∨ 1 = 1)
  ∧ (size scenario_one = 0 → (stktable_init scenario_one (Some [1; 2; 3]%nat)).1
                             = scenario_one)
  ∧ (size scenario_one ≠ 0 →
     let t' := (stktable_init scenario_one (Some [1; 2; 3]%nat)).1 in
     keys t' = [] ∧ exps t' = [] ∧ pool t' = default [] (Some [1; 2; 3]%nat)
     ∧ exp_next t' = TICK_ETERNITY ∧ current t' = current scenario_one
     ∧ same_config scenario_one t'
     ∧ exp_task t' = (if expire scenario_one =? 0 then exp_task scenario_one
                      else TICK_ETERNITY)
     ∧ (∀ k, stktable_lookup t' k = None)
     ∧ (∀ now, stktable_trash_expired t' now = Some (t', TICK_ETERNITY))
     ∧ (∀ to_batch now, stktable_trash_oldest t' to_batch now = Some (t', 0))
     ∧ (∀ k now p pl, current scenario_one = 0 →
          Some [1; 2; 3]%nat = Some (p :: pl) →
          ∃ t'', stksess_new t' k now = Some (t'', Some p)
                 ∧ current t'' = 1 ∧ pool t'' = pl)).
Proof.
  exact (stktable_init_fresh scenario_one (Some [1; 2; 3]%nat) _ 1 eq_refl).
Defined.


(** ** Eviction on a full table of 256 sessions *)

Lemma one_more_reachable k now (s : stktable * list ptr) :
  reachable s.1 s.2 → reachable (one_more k now s).1 (one_more k now s).2.
Proof.
  intros H. unfold one_more.
  destruct (stksess_new s.1 k now) as [[t' [ts|]]|] eqn:Hn; simpl; [| |done].
  - exact (reach_new _ _ _ _ _ _ H Hn).
  - exact (reach_new _ _ _ _ _ _ H Hn).
Qed.

Lemma iter_one_more_reachable n k now (s : stktable * list ptr) :
  reachable s.1 s.2 →
  reachable (Nat.iter n (one_more k now) s).1 (Nat.iter n (one_more k now) s).2.
Proof.
  intros H. induction n as [|n IH]; simpl; [done|]. by apply one_more_reachable.
Qed.

Lemma large_one_reachable : reachable large_one [].
Proof.
  assert (H : reachable large_empty []).
  { apply (reach_init (with_pool [] large_empty) (Some (seq 1 300))).
    - by repeat split.
    - simpl. lia.
    - apply NoDup_seq.
    - by vm_compute. }
  apply (reach_new _ _ {| key := [7; 0; 0; 0]; key_len := 4 |} 100
           (stksess_new_alloc large_empty {| key := [7; 0; 0; 0]; key_len := 4 |}).1
           (Some 1%nat)) in H; [|by vm_compute].
  apply (reach_store _ _ 1%nat 1 100 large_one 0) in H;
    [done|left|by vm_compute].
Qed.

Lemma large_full_reachable : reachable large_full.1 large_full.2.
Proof. apply iter_one_more_reachable, large_one_reachable. Qed.

Lemma stksess_new_large_table_full_witness :
  ∃ ta n t' ts,
    stktable_trash_oldest large_full.1 (Z.shiftr (size large_full.1) 8) 300
      = Some (ta, n)
    ∧ 1 ≤ n ≤ Z.shiftr (size large_full.1) 8
    ∧ stksess_new large_full.1 {| key := [8; 0; 0; 0]; key_len := 4 |} 300
      = Some (t', Some ts).
Proof.
  apply (stksess_new_large_table_full large_full.1 large_full.2
           {| key := [8; 0; 0; 0]; key_len := 4 |} 300 large_full_reachable);
    by vm_compute.
Defined.

(** ** The parser of the table type *)

Lemma stktable_parse_type_eq atol args myidx ks0 :
  stktable_parse_type atol args myidx ks0 =
  if String.eqb (arg args myidx) "ip" then
    {| p_ret := 0; p_myidx := myidx + 1; p_type := 0; p_key_size := 4 |}
  else if String.eqb (arg args myidx) "integer" then
    {| p_ret := 0; p_myidx := myidx + 1; p_type := 1; p_key_size := 4 |}
  else if String.eqb (arg args myidx) "string" then
    if String.eqb "len" (arg args (myidx + 1)) then
      if size_t (atol (arg args (myidx + 1 + 1))) =? 0 then
        {| p_ret := 1; p_myidx := myidx + 1 + 1; p_type := 2;
           p_key_size := size_t (atol (arg args (myidx + 1 + 1))) |}
      else
        {| p_ret := 0; p_myidx := myidx + 1 + 1 + 1; p_type := 2;
           p_key_size := size_t (size_t (atol (arg args (myidx + 1 + 1))) + 1) |}
    else {| p_ret := 0; p_myidx := myidx + 1; p_type := 2; p_key_size := 32 |}
  else {| p_ret := 1; p_myidx := myidx; p_type := 3; p_key_size := ks0 |}.
Proof.
  unfold stktable_parse_type, stktable_types. cbn [parse_type_from kw flags default_size].
  destruct (String.eqb (arg args myidx) "ip"); [done|].
  destruct (String.eqb (arg args myidx) "integer"); [done|].
  by destruct (String.eqb (arg args myidx) "string").
Qed.

(** X14.  [stktable_parse_type] returns 0 or 1.  It returns 0 exactly on
    the keywords "ip", "integer" and "string", the last one followed or
    not by "len" and a length that [atol] does not read as 0.  It then
    leaves in [type] the entry of that keyword, in [myidx] the index of
    the word after what it read, and in [key_size] the default size of the
    entry unless a length was given.  On an unknown keyword it writes
    nothing but [type], left at [STKTABLE_TYPES]; on "string len 0" it
    has moved [myidx] by two and set [key_size] to 0. *)
Theorem stktable_parse_type_accepts (atol : string → Z) (args : list string)
    (myidx ks0 : Z) :
  let p := stktable_parse_type atol args myidx ks0 in
  let a0 := arg args myidx in
  let a1 := arg args (myidx + 1) in
  let v := size_t (atol (arg args (myidx + 2))) in
  (p_ret p = 0 ∨ p_ret p = 1)
  ∧ (p_ret p = 0 ↔
     a0 = "ip" ∨ a0 = "integer" ∨ (a0 = "string" ∧ (a1 = "len" → v ≠ 0)))
  ∧ (p_ret p = 0 →
     ∃ d, stktable_types !! Z.to_nat (p_type p) = Some d ∧ kw d = a0
          ∧ is_Some (type_of_index (p_type p))
          ∧ ((p_key_size p = default_size d ∧ p_myidx p = myidx + 1
              ∧ ¬ (a0 = "string" ∧ a1 = "len"))
             ∨ (a0 = "string" ∧ a1 = "len" ∧ p_myidx p = myidx + 3)))
  ∧ (a0 ≠ "ip" → a0 ≠ "integer" → a0 ≠ "string" →
     p = {| p_ret := 1; p_myidx := myidx; p_type := STKTABLE_TYPES;
            p_key_size := ks0 |})
  ∧ (a0 = "string" → a1 = "len" → v = 0 →
     p = {| p_ret := 1; p_myidx := myidx + 2; p_type := 2; p_key_size := 0 |}).
Proof.
  intros p a0 a1 v. subst p. rewrite stktable_parse_type_eq.
  replace (myidx + 1 + 1 + 1) with (myidx + 3) by lia.
  replace (myidx + 1 + 1) with (myidx + 2) by lia.
  fold a0 a1 v. clearbody a0 a1 v.
  destruct (String.eqb_spec a0 "ip") as [H0|H0].
  { simpl. split_and!; try done; try (by left); try (by rewrite H0).
    - split; [by left|done].
    - intros _. eexists. split_and!; [done|by rewrite H0|done|].
      left. split_and!; [done|done|]. intros [? _]. by rewrite H0 in *. }
  destruct (String.eqb_spec a0 "integer") as [H1|H1].
  { simpl. split_and!; try done; try (by left); try (by rewrite H1).
    - split; [by right; left|done].
    - intros _. eexists. split_and!; [done|by rewrite H1|done|].
      left. split_and!; [done|done|]. intros [? _]. by rewrite H1 in *. }
  destruct (String.eqb_spec a0 "string") as [H2|H2].
  2: { simpl. split_and!; try done; [by right|].
       split; [done|]. by intros [?|[?|[? _]]]. }
  destruct (String.eqb_spec "len" a1) as [H3|H3].
  - destruct (Z.eqb_spec v 0) as [Hv|Hv]; simpl.
    + split_and!; try done; [by right| |by rewrite Hv].
      split; [done|]. intros [?|[?|[_ Hl]]]; [done|done|]. by destruct Hl.
    + split_and!; try done; [by left| |].
      * split; [|done]. intros _. right; right. done.
      * intros _. eexists. split_and!; [done|by rewrite H2|done|].
        right. done.
  - simpl. split_and!; try done; [by left| |].
    + split; [|done]. intros _. right; right. split; [done|]. by intros ->.
    + intros _. eexists. split_and!; [done|by rewrite H2|done|].
      left. split_and!; [done|done|]. intros [_ ->]. done.
Qed.

(** X15.  The words "string len N", N read by [atol] as a number from 1
    to 2^64 - 2, give a table type whose key size is N + 1, one byte more
    for the terminator: a session of a table of that type and key size
    stores the first N bytes of a key, and a key of at most N bytes, none
    of them zero, is stored whole, as [stktable_lookup] searches for it.
    A length read as -1 is accepted too and gives the key size 0. *)
Theorem string_len_stores_keys (atol : string → Z) (args : list string)
    (myidx ks0 : Z) (t : stktable) (ts : ptr) (k : stktable_key) :
  let p := stktable_parse_type atol args myidx ks0 in
  let v := atol (arg args (myidx + 2)) in
  arg args myidx = "string" → arg args (myidx + 1) = "len" →
  (size_t v = 2 ^ 64 - 1 → p_ret p = 0 ∧ p_key_size p = 0)
  ∧ (0 < v < 2 ^ 64 - 1 →
     p_ret p = 0 ∧ p_key_size p = v + 1 ∧ p_myidx p = myidx + 3
     ∧ type_of_index (p_type p) = Some STKTABLE_TYPE_STRING
     ∧ (type_of_index (p_type p) = Some (type t) → key_size t = p_key_size p →
        key_size t ≤ Z.of_nat (length (keys_key (deref t ts))) →
        0 ≤ key_len k ≤ Z.of_nat (length (key k)) →
        stored_key (stksess_key t ts k) ts
        = cstr (take (Z.to_nat (Z.min v (key_len k))) (key k))
        ∧ (key_len k ≤ v →
           Forall (λ c, c ≠ 0) (take (Z.to_nat (key_len k)) (key k)) →
           stored_key (stksess_key t ts k) ts = lookup_key t k))).
Proof.
  intros p v Ha0 Ha1. subst p. rewrite stktable_parse_type_eq.
  replace (myidx + 1 + 1 + 1) with (myidx + 3) by lia.
  replace (myidx + 1 + 1) with (myidx + 2) by lia.
  fold v. rewrite Ha0, Ha1. simpl. split.
  - intros Hv. rewrite Hv. simpl. split; [done|]. reflexivity.
  - intros Hv.
    assert (Hsz : size_t v = v) by (unfold size_t; apply Z.mod_small; lia).
    assert (Hsz1 : size_t (v + 1) = v + 1) by (unfold size_t; apply Z.mod_small; lia).
    rewrite Hsz. destruct (Z.eqb_spec v 0) as [|_]; [lia|]. simpl.
    rewrite Hsz1. split_and!; try done.
    intros [= Hty] Hks Hbuf Hlen.
    assert (Hstr : is_string (type t) = true) by by rewrite <- Hty.
    destruct (stksess_key_stored_key t ts k) as [Hk _];
      [lia|done|by unfold key_readable; rewrite Hstr|].
    rewrite Hk. unfold normal_key, lookup_key. rewrite Hstr, Hks.
    replace (v + 1 - 1) with v by lia. split; [done|].
    intros Hle Hz. rewrite Z.min_r by lia. by apply cstr_no_zero.
Qed.

Lemma string_len_stores_keys_witness :
  stktable_parse_type (digits 0) ["string"; "len"; "8"] 0 0
  = {| p_ret := 0; p_myidx := 3; p_type := 2; p_key_size := 9 |}
  ∧ stored_key (stksess_key scenario_empty 1%nat alexandra) 1%nat
    = [97; 108; 101; 120; 97; 110; 100; 114]
  ∧ stored_key (stksess_key scenario_empty 1%nat alice) 1%nat
    = lookup_key scenario_empty alice.
Proof.
  split; [reflexivity|].
  destruct (string_len_stores_keys (digits 0) ["string"; "len"; "8"] 0 0
              scenario_empty 1%nat alexandra eq_refl eq_refl) as [_ H1].
  destruct (string_len_stores_keys (digits 0) ["string"; "len"; "8"] 0 0
              scenario_empty 1%nat alice eq_refl eq_refl) as [_ H2].
  destruct (H1 ltac:(by vm_compute)) as (_ & _ & _ & _ & H1').
  destruct (H2 ltac:(by vm_compute)) as (_ & _ & _ & _ & H2').
  destruct (H1' eq_refl eq_refl ltac:(by vm_compute) ltac:(simpl; lia)) as [Ha _].
  destruct (H2' eq_refl eq_refl ltac:(by vm_compute) ltac:(simpl; lia)) as [_ Hb].
  split; [exact Ha|].
  apply Hb; [by vm_compute|]. apply (bool_decide_unpack _). by vm_compute.
Defined.


(** ** Slots and counters *)

(** X16.  The accounts of every reachable table are exact: [current] is
    the number of stored sessions plus the number of sessions in the hands
    of callers; a slot is in one place only, in the hands of a caller, in
    the key tree or in the pool, and there once; and the two trees hold
    the same sessions, as many in one as in the other. *)
Theorem reachable_accounting (t : stktable) (owned : list ptr) :
  reachable t owned →
  current t = Z.of_nat (length (keys t)) + Z.of_nat (length owned)
  ∧ NoDup (owned ++ keys t ++ pool t)
  ∧ (∀ p, p ∈ pool t → (p ∉ keys t) ∧ (p ∉ exps t) ∧ (p ∉ owned))
  ∧ exps t ≡ₚ keys t.
Proof.
  intros Hi%reachable_inv.
  pose proof (inv_slots _ _ Hi) as Hnd.
  split_and!; [rewrite (inv_current _ _ Hi); lia|done| |].
  - intros p Hp.
    apply NoDup_app in Hnd as (_ & Hok & Hnd).
    apply NoDup_app in Hnd as (_ & Hkp & _).
    split_and!.
    + intros Hk. by apply (Hkp p).
    + intros Hk%(inv_both _ _ Hi). by apply (Hkp p).
    + intros Ho. apply (Hok p Ho). apply elem_of_app. by right.
  - apply NoDup_Permutation; [apply (inv_exps _ _ Hi)| |].
    + apply NoDup_app in Hnd as (_ & _ & Hnd). by apply NoDup_app in Hnd as (? & _).
    + intros p. symmetry. apply (inv_both _ _ Hi).
Qed.

Lemma reachable_accounting_witness :
  current scenario_dup
    = Z.of_nat (length (keys scenario_dup)) + Z.of_nat (length [2%nat])
  ∧ NoDup ([2%nat] ++ keys scenario_dup ++ pool scenario_dup)
  ∧ (∀ p, p ∈ pool scenario_dup →
       (p ∉ keys scenario_dup) ∧ (p ∉ exps scenario_dup) ∧ (p ∉ [2%nat]))
  ∧ exps scenario_dup ≡ₚ keys scenario_dup.
Proof. exact (reachable_accounting scenario_dup [2%nat] scenario_dup_reachable). Defined.

(** ** The life of a stored session *)

Lemma tick_add_not_expired now ttl d :
  0 < ttl < 2 ^ 31 - 1 → 0 ≤ d < ttl →
  tick_is_expired (tick_add now ttl) (now + d) = false.
Proof.
  unfold tick_is_expired, tick_add, tick_isset, s32, u32.
  change (2 ^ 32) with 4294967296. change (2 ^ 31) with 2147483648.
  intros Ht Hd.
  destruct (Z.eqb_spec ((now + ttl) mod 4294967296) 0) as [Hz|Hz]; simpl.
  - destruct (Z.ltb_spec ((1 - (now + d)) mod 4294967296) 2147483648);
      destruct (Z.leb_spec ((1 - (now + d)) mod 4294967296) 0);
      destruct (Z.leb_spec ((1 - (now + d)) mod 4294967296 - 4294967296) 0);
      try done; Z.div_mod_to_equations; lia.
  - destruct (Z.eqb_spec ((now + ttl) mod 4294967296) 0); [done|]. simpl.
    destruct (Z.ltb_spec (((now + ttl) mod 4294967296 - (now + d)) mod 4294967296)
                2147483648);
      destruct (Z.leb_spec (((now + ttl) mod 4294967296 - (now + d)) mod 4294967296) 0);
      destruct (Z.leb_spec (((now + ttl) mod 4294967296 - (now + d)) mod 4294967296
                            - 4294967296) 0);
      try done; Z.div_mod_to_equations; lia.
Qed.

Lemma tick_add_expired now ttl d :
  0 < ttl → ttl < d < 2 ^ 31 →
  tick_is_expired (tick_add now ttl) (now + d) = true.
Proof.
  unfold tick_is_expired, tick_add, tick_isset, s32, u32.
  change (2 ^ 32) with 4294967296. change (2 ^ 31) with 2147483648.
  intros Ht Hd.
  destruct (Z.eqb_spec ((now + ttl) mod 4294967296) 0) as [Hz|Hz]; simpl.
  - destruct (Z.ltb_spec ((1 - (now + d)) mod 4294967296) 2147483648);
      destruct (Z.leb_spec ((1 - (now + d)) mod 4294967296) 0);
      destruct (Z.leb_spec ((1 - (now + d)) mod 4294967296 - 4294967296) 0);
      try done; Z.div_mod_to_equations; lia.
  - destruct (Z.eqb_spec ((now + ttl) mod 4294967296) 0); [done|]. simpl.
    destruct (Z.ltb_spec (((now + ttl) mod 4294967296 - (now + d)) mod 4294967296)
                2147483648);
      destruct (Z.leb_spec (((now + ttl) mod 4294967296 - (now + d)) mod 4294967296) 0);
      destruct (Z.leb_spec (((now + ttl) mod 4294967296 - (now + d)) mod 4294967296
                            - 4294967296) 0);
      try done; Z.div_mod_to_equations; lia.
Qed.

(** The session stored at tick [now], after a sweep at tick [now + d]. *)
Lemma session_ttl_after (t : stktable) (owned : list ptr) (ts : ptr)
    (s now d : Z) (t2 t3 : stktable) (r : Z) :
  reachable t owned → ts ∈ owned →
  0 < expire t < 2 ^ 31 - 1 →
  stktable_store t ts s now = (t2, 0) →
  stktable_trash_expired t2 (now + d) = Some (t3, r) →
  (0 ≤ d < expire t →
     ts ∈ keys t3 ∧ sid (deref t3 ts) = s
     ∧ stored_key t3 ts = stored_key t ts ∧ r ≠ TICK_ETERNITY)
  ∧ (expire t < d < 2 ^ 31 →
     (∀ q, q ∈ exps t2 →
        exps_key (deref t2 q) ≠ u32 (now + d - TIMER_LOOK_BACK)) →
     (ts ∉ keys t3) ∧ ts ∈ pool t3).
Proof.
  intros Hre Hts Httl Hst Hsw.
  assert (Hlk : store_lookup t ts = None).
  { destruct (store_lookup t ts) as [e|] eqn:Hlk; [|done].
    rewrite (stktable_store_dup _ _ _ _ _ Hlk) in Hst. done. }
  destruct (stktable_store_new _ _ _ _ _ _ Hlk Hst)
    as (_ & Hkeys & _ & _ & _ & Hcfg & Hsid & Hdate & _ & _ & _ & Hkk & _).
  pose proof (reach_store _ _ _ _ _ _ _ Hre Hts Hst) as Hre2. simpl in Hre2.
  pose proof (reachable_inv _ _ Hre2) as Hi2.
  assert (Hin : ts ∈ keys t2) by (rewrite Hkeys; left).
  destruct (stktable_trash_expired_scan _ _ _ _ Hsw) as [vs Hscan].
  pose proof Hscan as Hrun. unfold trash_expired_scan in Hrun.
  apply trash_expired_loop_run in Hrun.
  pose proof (expired_run_result _ _ _ _ _ _ Hrun (inv_exps _ _ Hi2)
                (cursor_ok_lookup_ge _ _))
    as (_ & Hstop & Hvis & Hk3 & Hpool & _).
  pose proof (expired_run_config _ _ _ _ _ _ Hrun) as (_ & Hty3 & Hsz3 & _).
  pose proof (expired_run_keys_key _ _ _ _ _ _ Hrun ts) as [Hkk3 Hsid3].
  destruct (expired_run_inv (unlink ts owned) _ _ _ _ _ _ Hrun Hi2
              (cursor_ok_lookup_ge _ _)) as (Hi3 & _).
  unfold MS_TO_TICKS in Hdate. split.
  - intros Hd.
    assert (He : tick_is_expired (ts_expire (deref t2 ts)) (now + d) = false)
      by (rewrite Hdate; by apply tick_add_not_expired).
    assert (Hk : ts ∈ keys t3).
    { apply Hk3. split; [done|]. rewrite elem_of_trashed. intros Hv.
      destruct (Hvis _ _ Hv) as (_ & _ & [Ht _] & _). specialize (Ht eq_refl).
      congruence. }
    split_and!; [done|congruence| |].
    + destruct Hcfg as (_ & Hty & Hsz & _).
      rewrite (stored_key_frame t2 t3), (stored_key_frame t t2); done.
    + intros Hz. unfold TICK_ETERNITY in Hz.
      destruct Hstop as [[_ He3]|(q & Hq & Hqk & _)].
      * apply (inv_both _ _ Hi3) in Hk. rewrite He3 in Hk. by apply elem_of_nil in Hk.
      * destruct (inv_sync _ _ Hi3 q Hq) as [Hs Hnz]. congruence.
  - intros Hd Hfar.
    assert (He : tick_is_expired (ts_expire (deref t2 ts)) (now + d) = true)
      by (rewrite Hdate; apply tick_add_expired; lia).
    pose proof (trash_expired_scan_reachable _ _ _ _ _ _ Hre2 Hfar Hscan ts Hin He) as Hv.
    split.
    + rewrite Hk3, elem_of_trashed. tauto.
    + rewrite Hpool, elem_of_app, elem_of_reverse, elem_of_trashed. by left.
Qed.

(** X17.  A session lives the ttl of its table.  Stored at tick [now]
    under a new key in a reachable table whose ttl is below 2^31 - 1 ms,
    it is kept by the sweep made less than ttl ms later, in the table
    under its key with its server id, and it is trashed by the sweep made
    more than ttl and less than 2^31 ms later: out of the key tree and
    back in the pool, unless the tree has a key that is exactly
    [now' - TIMER_LOOK_BACK].  The sweep returns in both cases. *)
Theorem session_lives_its_ttl (t : stktable) (owned : list ptr) (ts : ptr)
    (s now d : Z) (t2 : stktable) :
  reachable t owned → ts ∈ owned →
  0 < expire t < 2 ^ 31 - 1 →
  stktable_store t ts s now = (t2, 0) →
  ∃ t3 r,
    stktable_trash_expired t2 (now + d) = Some (t3, r)
    ∧ (0 ≤ d < expire t →
       ts ∈ keys t3 ∧ sid (deref t3 ts) = s
       ∧ stored_key t3 ts = stored_key t ts ∧ r ≠ TICK_ETERNITY)
    ∧ (expire t < d < 2 ^ 31 →
       (∀ q, q ∈ exps t2 →
          exps_key (deref t2 q) ≠ u32 (now + d - TIMER_LOOK_BACK)) →
       (ts ∉ keys t3) ∧ ts ∈ pool t3).
Proof.
  intros Hre Hts Httl Hst.
  pose proof (reach_store _ _ _ _ _ _ _ Hre Hts Hst) as Hre2.
  destruct (stktable_trash_expired_total t2 (now + d)
              (inv_exps _ _ (reachable_inv _ _ Hre2))) as (t3 & r & Hsw).
  exists t3, r. split; [done|].
  by apply (session_ttl_after t owned ts s now d t2 t3 r).
Qed.

Lemma session_lives_its_ttl_witness :
  (stktable_trash_expired scenario_full (300 + 100)
   = Some (with_exp_next 1100 scenario_full, 1100)
   ∧ 2%nat ∈ keys (with_exp_next 1100 scenario_full)
   ∧ sid (deref (with_exp_next 1100 scenario_full) 2%nat) = 3
   ∧ stored_key (with_exp_next 1100 scenario_full) 2%nat
     = stored_key (stksess_new_alloc scenario_one bob).1 2%nat
   ∧ 1100 ≠ TICK_ETERNITY)
  ∧ ∃ t3 r, stktable_trash_expired scenario_full (300 + 1100) = Some (t3, r)
            ∧ (2%nat ∉ keys t3) ∧ 2%nat ∈ pool t3.
Proof.
  assert (Hre : reachable (stksess_new_alloc scenario_one bob).1 [2%nat]).
  { exact (reach_new _ _ bob 300 _ (Some 2%nat) scenario_one_reachable eq_refl). }
  assert (Hst : stktable_store (stksess_new_alloc scenario_one bob).1 2%nat 3 300
                = (scenario_full, 0)) by by vm_compute.
  assert (Httl : 0 < expire (stksess_new_alloc scenario_one bob).1 < 2 ^ 31 - 1)
    by by vm_compute.
  split.
  - assert (Hsw : stktable_trash_expired scenario_full (300 + 100)
                  = Some (with_exp_next 1100 scenario_full, 1100)) by by vm_compute.
    destruct (session_lives_its_ttl _ [2%nat] 2%nat 3 300 100 scenario_full
                Hre ltac:(left) Httl Hst) as (t3 & r & Hsw' & H & _).
    rewrite Hsw in Hsw'. injection Hsw' as <- <-.
    split; [exact Hsw|]. apply H. by vm_compute.
  - destruct (session_lives_its_ttl _ [2%nat] 2%nat 3 300 1100 scenario_full
                Hre ltac:(left) Httl Hst) as (t3 & r & Hsw' & _ & H).
    exists t3, r. split; [exact Hsw'|]. apply H; [by vm_compute|].
    apply (proj1 (Forall_forall _ _)). apply (bool_decide_unpack _). by vm_compute.
Defined.


(** ** What a lookup returns *)

(** X18.  In a reachable table [stktable_lookup] returns a stored session
    or NULL, never a slot that was freed or that a caller still holds: the
    session it returns is in both trees, is the only stored session with
    the key looked up, and has a date; it returns NULL exactly when no
    stored session has the key. *)
Theorem lookup_returns_stored (t : stktable) (owned : list ptr) (k : stktable_key) :
  reachable t owned →
  match stktable_lookup t k with
  | Some p =>
      p ∈ keys t ∧ p ∈ exps t ∧ (p ∉ pool t) ∧ (p ∉ owned)
      ∧ stored_key t p = lookup_key t k
      ∧ (∀ q, q ∈ keys t → stored_key t q = lookup_key t k → q = p)
      ∧ ts_expire (deref t p) ≠ TICK_ETERNITY
  | None => ∀ q, q ∈ keys t → stored_key t q ≠ lookup_key t k
  end.
Proof.
  intros Hi%reachable_inv.
  destruct (stktable_lookup t k) as [p|] eqn:Hl.
  - apply stktable_lookup_some in Hl as [Hp Hk].
    pose proof (inv_slots _ _ Hi) as Hnd.
    apply NoDup_app in Hnd as (_ & Hok & Hnd).
    apply NoDup_app in Hnd as (_ & Hkp & _).
    pose proof Hp as Hpe%(inv_both _ _ Hi).
    split_and!; try done.
    + by apply Hkp.
    + intros Ho. apply (Hok p Ho). apply elem_of_app. by left.
    + intros q Hq Hqk. apply (inv_unique _ _ Hi); [done|done|congruence].
    + by destruct (inv_sync _ _ Hi p Hpe).
  - by apply stktable_lookup_none.
Qed.

Lemma lookup_returns_stored_witness :
  1%nat ∈ keys scenario_dup ∧ 1%nat ∈ exps scenario_dup
  ∧ (1%nat ∉ pool scenario_dup) ∧ (1%nat ∉ [2%nat])
  ∧ stored_key scenario_dup 1%nat = lookup_key scenario_dup alice
  ∧ (∀ q, q ∈ keys scenario_dup →
       stored_key scenario_dup q = lookup_key scenario_dup alice → q = 1%nat)
  ∧ ts_expire (deref scenario_dup 1%nat) ≠ TICK_ETERNITY.
Proof.
  exact (lookup_returns_stored scenario_dup [2%nat] alice scenario_dup_reachable).
Defined.

Lemma stktable_parse_type_accepts_witness :
  stktable_parse_type (digits 0) ["stick-table"; "type"; "string"; "len"; "0"] 2 7
  = {| p_ret := 1; p_myidx := 4; p_type := 2; p_key_size := 0 |}
  ∧ stktable_parse_type (digits 0) ["stick-table"; "type"; "ipv6"] 2 7
    = {| p_ret := 1; p_myidx := 2; p_type := STKTABLE_TYPES; p_key_size := 7 |}.
Proof.
  destruct (stktable_parse_type_accepts (digits 0)
              ["stick-table"; "type"; "string"; "len"; "0"] 2 7)
    as (_ & _ & _ & _ & H1).
  destruct (stktable_parse_type_accepts (digits 0)
              ["stick-table"; "type"; "ipv6"] 2 7)
    as (_ & _ & _ & H2 & _).
  split; [by apply H1|by apply H2].
Defined.

(** ** The resume test after a re-stamp *)

Lemma trash_expired_body_restamp t eb now ts :
  scan_pick t eb = Some ts →
  tick_is_lt now (exps_key (deref t ts)) = false →
  tick_is_expired (ts_expire (deref t ts)) now = false →
  ts_expire (deref t ts) ≠ 0 →
  let t3 := eb32_insert ts (poke ts (with_exps_key (ts_expire (deref t ts)))
                              (eb32_delete ts t)) in
  trash_expired_body t eb now
  = TurnNext t3 (scan_resume t3 (eb32_next (exps t) ts) ts) (ts, Restamped).
Proof.
  intros Hp Hlt He Hz. unfold trash_expired_body. rewrite Hp, Hlt.
  rewrite !deref_eb32_delete, decide_True by done. simpl. rewrite He. simpl.
  unfold tick_isset. by destruct (Z.eqb_spec (ts_expire (deref t ts)) 0).
Qed.

Lemma trash_expired_body_return t eb now ts :
  scan_pick t eb = Some ts →
  tick_is_lt now (exps_key (deref t ts)) = true →
  trash_expired_body t eb now = TurnReturn (with_exp_next (exps_key (deref t ts)) t).
Proof. intros Hp Hlt. unfold trash_expired_body. by rewrite Hp, Hlt. Qed.

Lemma trash_oldest_body_restamp t eb b ts :
  scan_pick t eb = Some ts →
  ts_expire (deref t ts) ≠ exps_key (deref t ts) →
  ts_expire (deref t ts) ≠ 0 →
  let t3 := eb32_insert ts (poke ts (with_exps_key (ts_expire (deref t ts)))
                              (eb32_delete ts t)) in
  trash_oldest_body t eb b
  = Some (t3, scan_resume t3 (eb32_next (exps t) ts) ts, b, (ts, Restamped)).
Proof.
  intros Hp Hne Hz. unfold trash_oldest_body. rewrite Hp.
  rewrite !deref_eb32_delete, decide_True by done. simpl.
  destruct (Z.eqb_spec (ts_expire (deref t ts)) (exps_key (deref t ts))); [done|].
  simpl. unfold tick_isset. by destruct (Z.eqb_spec (ts_expire (deref t ts)) 0).
Qed.

Lemma trash_oldest_body_trash t eb b ts :
  scan_pick t eb = Some ts →
  ts_expire (deref t ts) = exps_key (deref t ts) →
  trash_oldest_body t eb b
  = Some (stksess_free (ebmb_delete ts (eb32_delete ts t)) ts,
          eb32_next (exps t) ts, b + 1, (ts, Trashed)).
Proof.
  intros Hp He. unfold trash_oldest_body. rewrite Hp.
  rewrite !deref_eb32_delete, decide_True by done. simpl.
  by destruct (Z.eqb_spec (ts_expire (deref t ts)) (exps_key (deref t ts))).
Qed.

(** The table after the node [ts] was put back at its date, where the
    next node [e] has a larger key: the scan resumes from [ts]. *)
Lemma restamp_resumes_at_node t ts e :
  NoDup (exps t) → eb32_next (exps t) ts = Some e →
  exps_key (deref t e) > ts_expire (deref t ts) →
  let t3 := eb32_insert ts (poke ts (with_exps_key (ts_expire (deref t ts)))
                              (eb32_delete ts t)) in
  scan_resume t3 (Some e) ts = Some ts
  ∧ exps_key (deref t3 ts) = ts_expire (deref t ts)
  ∧ ts_expire (deref t3 ts) = ts_expire (deref t ts)
  ∧ keys t3 = keys t ∧ pool t3 = pool t ∧ current t3 = current t
  ∧ (∀ q, q ∈ exps t3 ↔ q = ts ∨ (q ∈ exps t ∧ q ≠ ts))
  ∧ (∀ q, ts_expire (deref t3 q) = ts_expire (deref t q)).
Proof.
  intros Hnd Hnx Hgt t3.
  pose proof (eb32_next_ne _ _ _ Hnd Hnx) as Hne.
  assert (Hk : exps_key (deref t3 ts) = ts_expire (deref t ts)) by (subst t3; by deref_simpl).
  assert (Hke : exps_key (deref t3 e) = exps_key (deref t e)) by (subst t3; by deref_simpl).
  split_and!; try done.
  - unfold scan_resume. rewrite Hk, Hke.
    destruct (Z.gtb_spec (exps_key (deref t e)) (ts_expire (deref t ts))); [done|lia].
  - subst t3. by deref_simpl.
  - intros q. subst t3. rewrite exps_eb32_insert, elem_of_eb32_place. simpl.
    rewrite elem_of_unlink. tauto.
  - intros q. subst t3. by deref_simpl.
Qed.

Lemma two_nodes_length (l : list ptr) a b :
  a ∈ l → b ∈ l → a ≠ b → ∃ m, length l = S (S m).
Proof.
  destruct l as [|x [|y l]]; intros Ha Hb Hne.
  - by apply elem_of_nil in Ha.
  - apply elem_of_cons in Ha as [->|Ha]; [|by apply elem_of_nil in Ha].
    apply elem_of_cons in Hb as [->|Hb]; [done|by apply elem_of_nil in Hb].
  - by exists (length l).
Qed.

(** C6.  The scans do not visit every node when a re-stamped date lies
    past the wrap of the tick clock.  After a re-stamp both scans go on
    from the re-stamped node when the key of the next node is the larger
    one as an unsigned number, the test [eb->key > ts->exps.key], where
    every other test of a date goes by the sign of a 32-bit difference.
    So when the first node [ts] of a scan has a key that has elapsed and a
    session whose date was moved to a later tick that is the smaller
    number, and a node [e] follows it in the tree: the sweep puts [ts]
    back at its date, goes on from [ts], finds its key later than [now]
    and returns that date at once, having visited no other node, whatever
    their dates; and the eviction of one session trashes [ts], the
    session that was just given the later date, and keeps [e]. *)
Theorem restamp_resume_misses_nodes (t : stktable) (now : Z) (ts e : ptr) :
  NoDup (exps t) →
  head (scan_order t now) = Some ts →
  eb32_next (exps t) ts = Some e →
  ts_expire (deref t ts) ≠ exps_key (deref t ts) →
  ts_expire (deref t ts) ≠ TICK_ETERNITY →
  tick_is_lt now (exps_key (deref t ts)) = false →
  tick_is_expired (ts_expire (deref t ts)) now = false →
  exps_key (deref t e) > ts_expire (deref t ts) →
  (∃ t', trash_expired_scan t now
           = Some (t', ts_expire (deref t ts), [(ts, Restamped)])
         ∧ keys t' = keys t ∧ pool t' = pool t ∧ current t' = current t
         ∧ (∀ q, q ∈ exps t' ↔ q ∈ exps t)
         ∧ (∀ q, ts_expire (deref t' q) = ts_expire (deref t q)))
  ∧ (∃ t', trash_oldest_scan t 1 now
             = Some (t', 1, [(ts, Restamped); (ts, Trashed)])
           ∧ (∀ q, q ∈ keys t' ↔ q ∈ keys t ∧ q ≠ ts)
           ∧ (∀ q, q ∈ exps t' ↔ q ∈ exps t ∧ q ≠ ts)
           ∧ e ∈ exps t').
Proof.
  intros Hnd Hhead Hnx Hne Hz Hlt He Hgt. unfold TICK_ETERNITY in Hz.
  set (eb := eb32_lookup_ge (mem t) (exps t) (u32 (now - TIMER_LOOK_BACK))).
  assert (Hpick : scan_pick t eb = Some ts)
    by (subst eb; by rewrite scan_pick_lookup_ge).
  assert (Hts : ts ∈ exps t)
    by (apply (scan_pick_elem t eb); [apply cursor_ok_lookup_ge|done]).
  pose proof (eb32_next_elem _ _ _ Hnx) as Hee.
  pose proof (eb32_next_ne _ _ _ Hnd Hnx) as Hets.
  destruct (two_nodes_length (exps t) ts e Hts Hee) as [m Hlen]; [done|].
  destruct (restamp_resumes_at_node t ts e Hnd Hnx Hgt)
    as (Hres & Hk & Hd & Hkeys & Hpool & Hcur & Hex & Hdates).
  set (t3 := eb32_insert ts (poke ts (with_exps_key (ts_expire (deref t ts)))
                               (eb32_delete ts t))) in *.
  split.
  - exists (with_exp_next (exps_key (deref t3 ts)) t3). split.
    + unfold trash_expired_scan. fold eb. rewrite Hlen.
      cbn [trash_expired_loop].
      rewrite (trash_expired_body_restamp t eb now ts Hpick Hlt He Hz).
      cbv zeta. fold t3. rewrite Hnx, Hres.
      rewrite (trash_expired_body_return t3 (Some ts) now ts); [|done|].
      * simpl. by rewrite Hk.
      * rewrite Hk. by apply tick_not_expired_lt.
    + split_and!; [done|done|done| |].
      * intros q. change (q ∈ exps t3 ↔ q ∈ exps t). rewrite Hex.
        destruct (decide (q = ts)) as [->|]; tauto.
      * intros q. rewrite deref_with_exp_next. apply Hdates.
  - exists (stksess_free (ebmb_delete ts (eb32_delete ts t3)) ts). split.
    + unfold trash_oldest_scan. fold eb.
      replace (2 * length (exps t) + 1)%nat with (S (S (2 * m + 3))) by lia.
      cbn [trash_oldest_loop]. change (0 <? 1) with true. cbv iota.
      rewrite (trash_oldest_body_restamp t eb 0 ts Hpick Hne Hz).
      cbv zeta. fold t3. rewrite Hnx, Hres.
      rewrite (trash_oldest_body_trash t3 (Some ts) 0 ts); [|done|by rewrite Hk, Hd].
      change (0 + 1) with 1. by destruct (2 * m + 3)%nat.
    + assert (Hx : ∀ q, q ∈ exps (stksess_free (ebmb_delete ts (eb32_delete ts t3)) ts)
                        ↔ q ∈ exps t ∧ q ≠ ts).
      { intros q. change (q ∈ unlink ts (exps t3) ↔ q ∈ exps t ∧ q ≠ ts).
        rewrite elem_of_unlink, Hex. tauto. }
      split_and!; [|done|by apply Hx].
      intros q. change (q ∈ unlink ts (keys t3) ↔ q ∈ keys t ∧ q ≠ ts).
      rewrite elem_of_unlink, Hkeys. tauto.
Qed.

Lemma restamp_resume_misses_nodes_witness :
  (∃ t', trash_expired_scan wrap_touched 8 = Some (t', 16, [(2%nat, Restamped)])
         ∧ keys t' = keys wrap_touched ∧ pool t' = pool wrap_touched
         ∧ current t' = current wrap_touched
         ∧ (∀ q, q ∈ exps t' ↔ q ∈ exps wrap_touched)
         ∧ (∀ q, ts_expire (deref t' q) = ts_expire (deref wrap_touched q)))
  ∧ (∃ t', trash_oldest_scan wrap_touched 1 8
             = Some (t', 1, [(2%nat, Restamped); (2%nat, Trashed)])
           ∧ (∀ q, q ∈ keys t' ↔ q ∈ keys wrap_touched ∧ q ≠ 2%nat)
           ∧ (∀ q, q ∈ exps t' ↔ q ∈ exps wrap_touched ∧ q ≠ 2%nat)
           ∧ 3%nat ∈ exps t')
  ∧ tick_is_expired (ts_expire (deref wrap_touched 3%nat)) 8 = true
  ∧ tick_is_expired (ts_expire (deref wrap_touched 1%nat)) 8 = true
  ∧ tick_is_lt (ts_expire (deref wrap_touched 3%nat))
               (ts_expire (deref wrap_touched 2%nat)) = true
  ∧ tick_is_lt (ts_expire (deref wrap_touched 1%nat))
               (ts_expire (deref wrap_touched 2%nat)) = true.
Proof.
  destruct (restamp_resume_misses_nodes wrap_touched 8 2%nat 3%nat) as [H1 H2].
  - apply (bool_decide_unpack _). by vm_compute.
  - by vm_compute.
  - by vm_compute.
  - by vm_compute.
  - by vm_compute.
  - by vm_compute.
  - by vm_compute.
  - by vm_compute.
  - split; [exact H1|]. split; [exact H2|]. by vm_compute.
Defined.

(** ** What the sweep of a reachable table removes and returns *)


Lemma elapsed_prefix_split now t l :
  (∀ q, q ∈ elapsed_prefix now t l → tick_is_lt now (exps_key (deref t q)) = false)
  ∧ ((l = elapsed_prefix now t l ∧ first_later now t l = TICK_ETERNITY)
     ∨ (∃ p rest, l = elapsed_prefix now t l ++ p :: rest
                  ∧ tick_is_lt now (exps_key (deref t p)) = true
                  ∧ first_later now t l = exps_key (deref t p))).
Proof.
  induction l as [|a l [IH1 IH2]]; simpl.
  - split; [intros q Hq; by apply elem_of_nil in Hq|by left].
  - destruct (tick_is_lt now (exps_key (deref t a))) eqn:Hlt.
    + split; [intros q Hq; by apply elem_of_nil in Hq|].
      right. by exists a, l.
    + split.
      * intros q [->|Hq]%elem_of_cons; [done|by apply IH1].
      * destruct IH2 as [[Hl Hf]|(p & rest & Hl & Hp & Hf)].
        -- left. split; [by f_equal|done].
        -- right. exists p, rest. split_and!; [simpl; by f_equal|done|done].
Qed.

Lemma NoDup_scan_order t now : NoDup (exps t) → NoDup (scan_order t now).
Proof.
  intros Hnd. unfold scan_order.
  rewrite (eb32_below_from (mem t) (exps t) (u32 (now - TIMER_LOOK_BACK))) in Hnd.
  by rewrite Permutation_app_comm.
Qed.

(** C7, as the code has it.  The sweep returns, whatever the number of
    nodes it has to visit, and what it leaves is [sweep_result].  In a
    table reached through the functions of the file, where every node is
    keyed by the date of its session, and whose tree has no key that is
    exactly [now - TIMER_LOOK_BACK]: every session whose date has expired
    is trashed, taken out of both trees, given back to the pool and
    counted out of [current], and every other session is kept; the
    trashed sessions are the nodes that come in the order of the scan
    before the first node whose key is later than [now], none of them
    keyed later than [now]; the sweep stops at that node, records its key
    in [exp_next] and returns it, or, if there is no such node, empties
    the tree, records [TICK_ETERNITY] and returns that. *)
Theorem sweep_drains_and_reports (t : stktable) (now : Z) :
  NoDup (exps t) →
  ∃ t' r vs,
    trash_expired_scan t now = Some (t', r, vs) ∧
    stktable_trash_expired t now = Some (t', r) ∧
    sweep_result now t t' r vs ∧
    ∀ owned, reachable t owned →
      (∀ p, p ∈ exps t → exps_key (deref t p) ≠ u32 (now - TIMER_LOOK_BACK)) →
      (∀ p, p ∈ keys t → tick_is_expired (ts_expire (deref t p)) now = true →
         (p, Trashed) ∈ vs ∧ (p ∉ keys t') ∧ (p ∉ exps t') ∧ p ∈ pool t')
      ∧ (∀ p, p ∈ keys t → tick_is_expired (ts_expire (deref t p)) now = false →
           p ∈ keys t' ∧ p ∈ exps t' ∧ (p ∉ trashed vs))
      ∧ vs = all_trashed (trashed vs)
      ∧ current t' = current t - Z.of_nat (length (trashed vs))
      ∧ (∀ q, q ∈ trashed vs → tick_is_lt now (exps_key (deref t q)) = false)
      ∧ exp_next t' = r
      ∧ ((∃ p rest, scan_order t now = trashed vs ++ p :: rest
                    ∧ tick_is_lt now (exps_key (deref t p)) = true
                    ∧ r = exps_key (deref t p) ∧ p ∈ exps t')
         ∨ (scan_order t now = trashed vs ∧ r = TICK_ETERNITY
            ∧ exps t' = [] ∧ keys t' = [])).
Proof.
  intros Hnd.
  destruct (trash_expired_scan_total t now Hnd) as [[[t' r] vs] Hscan].
  exists t', r, vs. split; [done|]. split.
  { unfold stktable_trash_expired. by rewrite Hscan. }
  pose proof Hscan as Hrun. unfold trash_expired_scan in Hrun.
  apply trash_expired_loop_run in Hrun.
  assert (Hres : sweep_result now t t' r vs).
  { apply (expired_run_result _ _ _ _ _ _ Hrun Hnd), cursor_ok_lookup_ge. }
  split; [done|]. intros owned Hre Hfar.
  pose proof (reachable_inv _ _ Hre) as Hi.
  destruct (expired_run_inv owned _ _ _ _ _ _ Hrun Hi (cursor_ok_lookup_ge _ _))
    as (Hi' & _).
  destruct (trash_expired_scan_in_sync t now t' r vs Hnd (inv_sync _ _ Hi) Hscan)
    as (Hvs & Hr & Hex).
  destruct Hres as (Hnext & _ & Hvis & Hkeys & Hpool & _).
  assert (Htr : trashed vs = elapsed_prefix now t (scan_order t now))
    by (by rewrite Hvs, trashed_all_trashed).
  destruct (elapsed_prefix_split now t (scan_order t now)) as [Hel Hsplit].
  rewrite <- Htr in Hel, Hsplit, Hex.
  split_and!.
  - intros p Hp He.
    pose proof (trash_expired_scan_reachable _ _ _ _ _ _ Hre Hfar Hscan p Hp He) as Hv.
    split_and!; [done| | |].
    + rewrite Hkeys, elem_of_trashed. tauto.
    + by apply (Hvis p Trashed Hv).
    + rewrite Hpool, elem_of_app, elem_of_reverse, elem_of_trashed. by left.
  - intros p Hp He.
    assert (Hout : p ∉ trashed vs).
    { rewrite elem_of_trashed. intros Hv.
      destruct (Hvis _ _ Hv) as (_ & _ & [Ht _] & _). specialize (Ht eq_refl).
      congruence. }
    split_and!; [by apply Hkeys| |done].
    apply Hex. split; [by apply (inv_both _ _ Hi)|done].
  - by rewrite Htr, <- Hvs.
  - pose proof (inv_current _ _ Hi) as Hc. pose proof (inv_current _ _ Hi') as Hc'.
    assert (Hperm : keys t ≡ₚ trashed vs ++ keys t').
    { apply NoDup_Permutation.
      - pose proof (inv_slots _ _ Hi) as Hs.
        apply NoDup_app in Hs as (_ & _ & Hs). by apply NoDup_app in Hs as (? & _).
      - apply NoDup_app. split_and!.
        + pose proof (NoDup_scan_order t now Hnd) as Hso.
          destruct Hsplit as [[Hl _]|(p & rest & Hl & _)]; rewrite Hl in Hso;
            [done|by apply NoDup_app in Hso as (? & _)].
        + intros q Hq Hq'. apply Hkeys in Hq' as [_ ?]. done.
        + pose proof (inv_slots _ _ Hi') as Hs.
          apply NoDup_app in Hs as (_ & _ & Hs). by apply NoDup_app in Hs as (? & _).
      - intros q. rewrite elem_of_app, Hkeys. split.
        + intros Hq. destruct (decide (q ∈ trashed vs)); [by left|by right].
        + intros [Hq|[Hq _]]; [|done].
          apply elem_of_trashed in Hq. apply (inv_both _ _ Hi).
          by destruct (Hvis _ _ Hq) as (? & _). }
    apply Permutation_length in Hperm. rewrite length_app in Hperm. lia.
  - done.
  - done.
  - destruct Hsplit as [[Hl Hf]|(p & rest & Hl & Hp & Hf)].
    + right. rewrite Hr, Hf.
      assert (He : exps t' = []).
      { apply elem_of_nil_inv. intros q Hq.
        apply Hex in Hq as [Hq Hout]. destruct Hout.
        apply (elem_of_scan_order t now) in Hq. by rewrite Hl in Hq. }
      split_and!; [done|done|done|].
      apply elem_of_nil_inv. intros q Hq.
      apply (inv_both _ _ Hi') in Hq. rewrite He in Hq. by apply elem_of_nil in Hq.
    + left. exists p, rest. rewrite Hr, Hf. split_and!; try done.
      apply Hex. split.
      * apply (elem_of_scan_order t now). rewrite Hl, elem_of_app. right. left.
      * intros Hin. specialize (Hel p Hin). congruence.
Qed.

Lemma sweep_drains_and_reports_witness :
  let t' := scenario_swept in
  let vs := [(1%nat, Trashed)] in
  trash_expired_scan scenario_full 1200 = Some (t', 1300, vs)
  ∧ stktable_trash_expired scenario_full 1200 = Some (t', 1300)
  ∧ sweep_result 1200 scenario_full t' 1300 vs
  ∧ (∀ p, p ∈ keys scenario_full →
          tick_is_expired (ts_expire (deref scenario_full p)) 1200 = true →
       (p, Trashed) ∈ vs ∧ (p ∉ keys t') ∧ (p ∉ exps t') ∧ p ∈ pool t')
  ∧ (∀ p, p ∈ keys scenario_full →
          tick_is_expired (ts_expire (deref scenario_full p)) 1200 = false →
       p ∈ keys t' ∧ p ∈ exps t' ∧ (p ∉ trashed vs))
  ∧ vs = all_trashed (trashed vs)
  ∧ current t' = current scenario_full - Z.of_nat (length (trashed vs))
  ∧ (∀ q, q ∈ trashed vs →
          tick_is_lt 1200 (exps_key (deref scenario_full q)) = false)
  ∧ exp_next t' = 1300
  ∧ ((∃ p rest, scan_order scenario_full 1200 = trashed vs ++ p :: rest
                ∧ tick_is_lt 1200 (exps_key (deref scenario_full p)) = true
                ∧ 1300 = exps_key (deref scenario_full p) ∧ p ∈ exps t')
     ∨ (scan_order scenario_full 1200 = trashed vs ∧ 1300 = TICK_ETERNITY
        ∧ exps t' = [] ∧ keys t' = [])).
Proof.
  intros t' vs.
  destruct (sweep_drains_and_reports scenario_full 1200)
    as (t1 & r & vs1 & Hscan & Hsw & Hres & Hall).
  { apply (bool_decide_unpack _). by vm_compute. }
  assert (Hc : trash_expired_scan scenario_full 1200 = Some (t', 1300, vs))
    by by vm_compute.
  rewrite Hc in Hscan. injection Hscan as <- <- <-.
  split; [exact Hc|]. split; [exact Hsw|]. split; [exact Hres|].
  apply (Hall [] scenario_full_reachable).
  apply (proj1 (Forall_forall _ _)). apply (bool_decide_unpack _). by vm_compute.
Defined.

(** C7 as it is stated fails.  The sessions of [scenario_full] have the
    dates 1100 and 1300; 2^31 ticks after tick 1100 both have expired, but
    the sweep starts at the key 1100, which is [now - TIMER_LOOK_BACK],
    reads it as later than [now], for the difference of two ticks half
    the tick space apart is negative either way, and returns 1100 with
    both sessions in the table. *)
Lemma sweep_drains_and_reports_counterexample :
  ¬ (∀ t owned now t' r p,
       reachable t owned → stktable_trash_expired t now = Some (t', r) →
       p ∈ keys t → tick_is_expired (ts_expire (deref t p)) now = true →
       p ∉ keys t').
Proof.
  intros H.
  apply (H scenario_full [] (1100 + 2 ^ 31) scenario_full 1100 1%nat
           scenario_full_reachable).
  - by vm_compute.
  - apply (bool_decide_unpack _). by vm_compute.
  - by vm_compute.
  - apply (bool_decide_unpack _). by vm_compute.
Qed.
